(** * virtual-console: a shallow embedding of the formatting and routing code

    The development follows the sources:
    - [util.mjs]: [escapeHtml], [safeString], [circularToString], [argToHtml],
      [argsToHtml];
    - [browser.mjs]: [formatArgs], the browser [VirtualConsole], the context
      router ([consoleReflect], [consoleReflectSet], [consoleReflectRun]) and
      the [set] trap of the global facade;
    - [node.mjs]: the Node [VirtualConsole].

    JavaScript strings are modelled as [string] (one [ascii] per code unit,
    for texts of code units below 256), values as an inductive type over a
    heap of objects, exceptions by the [result] type. *)

From stdpp Require Import base gmap strings list pretty.
From Stdlib Require Import ZArith Ascii.

Local Open Scope Z_scope.
Local Open Scope nat_scope.

(** ** Characters and strings *)

Definition chr (n : nat) : string := String (ascii_of_nat n) EmptyString.
Definition ESC : string := Eval cbv in chr 27.
Definition NL : string := Eval cbv in chr 10.
Definition TAB : string := Eval cbv in chr 9.
Definition DQc : ascii := Eval cbv in ascii_of_nat 34.
Definition DQ : string := String DQc EmptyString.
Definition SQ : string := Eval cbv in chr 39.
Definition BSL : string := Eval cbv in chr 92.

Definition ascii_eqb (a b : ascii) : bool := Ascii.eqb a b.

(** [sep.join(parts)] *)
Definition join (sep : string) (parts : list string) : string :=
  String.concat sep parts.

(** [s.repeat(n)] *)
Fixpoint repeat_str (s : string) (n : nat) : string :=
  match n with
  | 0 => ""
  | S k => s +:+ repeat_str s k
  end.

(** [s.replaceAll(pat, rep)] for a non-empty pattern: leftmost matches, not
    overlapping, the replacement is not scanned again.  [skip] counts the
    characters of a match that remain to be dropped. *)
Fixpoint replaceAll_from (pat rep : string) (skip : nat) (s : string) : string :=
  match s with
  | EmptyString => ""
  | String c s' =>
      match skip with
      | S k => replaceAll_from pat rep k s'
      | 0 =>
          if String.prefix pat s
          then rep +:+ replaceAll_from pat rep (String.length pat - 1) s'
          else String c (replaceAll_from pat rep 0 s')
      end
  end.

Definition replaceAll (pat rep s : string) : string :=
  replaceAll_from pat rep 0 s.

(** White space in the sense of [String.prototype.trim], on the code units
    below 256: tab, line feed, vertical tab, form feed, carriage return,
    space and the no-break space U+00A0. *)
Definition is_space (c : ascii) : bool :=
  let n := nat_of_ascii c in
  ((9 <=? n) && (n <=? 13)) || (n =? 32) || (n =? 160).

Fixpoint trimStart (s : string) : string :=
  match s with
  | String c s' => if is_space c then trimStart s' else s
  | EmptyString => ""
  end.

Fixpoint trimEnd (s : string) : string :=
  match s with
  | EmptyString => ""
  | String c s' =>
      match trimEnd s' with
      | EmptyString => if is_space c then "" else String c ""
      | t => String c t
      end
  end.

Definition trim (s : string) : string := trimEnd (trimStart s).

Fixpoint str_take (n : nat) (s : string) : string :=
  match n, s with
  | S k, String c s' => String c (str_take k s')
  | _, _ => ""
  end.

Fixpoint str_drop (n : nat) (s : string) : string :=
  match n, s with
  | S k, String _ s' => str_drop k s'
  | _, _ => s
  end.

Fixpoint str_forallb (p : ascii → bool) (s : string) : bool :=
  match s with
  | EmptyString => true
  | String c s' => p c && str_forallb p s'
  end.

Definition is_empty (s : string) : bool :=
  match s with EmptyString => true | _ => false end.

(** ** Completions: a value, a thrown exception, or fuel exhausted

    [OutOfFuel] is the model's own outcome for a recursion cut by its fuel;
    no JavaScript [catch] sees it. *)

Inductive error := TypeError | RangeError.

Inductive result (A : Type) :=
  | Ok (a : A)
  | Throw (e : error)
  | OutOfFuel.
Arguments Ok {A} a.
Arguments Throw {A} e.
Arguments OutOfFuel {A}.

Global Instance result_ret : MRet result := λ A a, Ok a.
Global Instance result_bind : MBind result := λ A B f r,
  match r with
  | Ok a => f a
  | Throw e => Throw e
  | OutOfFuel => OutOfFuel
  end.
Global Instance result_fmap : FMap result := λ A B f r,
  match r with
  | Ok a => Ok (f a)
  | Throw e => Throw e
  | OutOfFuel => OutOfFuel
  end.

(** [try { body } catch { handler }] *)
Definition try_catch {A} (body handler : result A) : result A :=
  match body with
  | Throw _ => handler
  | r => r
  end.

Definition returns {A} (r : result A) : bool :=
  match r with Ok _ => true | _ => false end.

Definition terminates {A} (r : result A) : bool :=
  match r with OutOfFuel => false | _ => true end.

(** [xs.map(f)] where [f] may throw: left to right, the first exception wins. *)
Fixpoint mapR {A B} (f : A → result B) (xs : list A) : result (list B) :=
  match xs with
  | [] => Ok []
  | x :: xs' => y ← f x; ys ← mapR f xs'; Ok (y :: ys)
  end.

(** ** Numbers

    A number is NaN, an infinity, or a decimal [±m·10^e].  Rounding to binary64
    is not modelled; the formatters only convert numbers from and to text. *)

Inductive number :=
  | NaN
  | Infinity (neg : bool)
  | Dec (neg : bool) (m : N) (e : Z).

Definition is_digit (c : ascii) : bool :=
  let n := nat_of_ascii c in (48 <=? n) && (n <=? 57).

Definition digit_val (c : ascii) : N := N.of_nat (nat_of_ascii c - 48).

Definition hex_val (c : ascii) : option N :=
  let n := nat_of_ascii c in
  if (48 <=? n) && (n <=? 57) then Some (N.of_nat (n - 48))
  else if (97 <=? n) && (n <=? 102) then Some (N.of_nat (n - 87))
  else if (65 <=? n) && (n <=? 70) then Some (N.of_nat (n - 55))
  else None.

Fixpoint take_digits (s : string) : string * string :=
  match s with
  | String c s' =>
      if is_digit c then let '(d, r) := take_digits s' in (String c d, r)
      else ("", s)
  | EmptyString => ("", "")
  end.

Fixpoint take_hex (s : string) : string * string :=
  match s with
  | String c s' =>
      match hex_val c with
      | Some _ => let '(d, r) := take_hex s' in (String c d, r)
      | None => ("", s)
      end
  | EmptyString => ("", "")
  end.

Fixpoint digits_to_N (acc : N) (s : string) : N :=
  match s with
  | String c s' => digits_to_N (acc * 10 + digit_val c)%N s'
  | EmptyString => acc
  end.

Fixpoint hex_to_N (acc : N) (s : string) : N :=
  match s with
  | String c s' => hex_to_N (acc * 16 + default 0%N (hex_val c))%N s'
  | EmptyString => acc
  end.

Fixpoint strip_trailing_zeros (s : string) : string * nat :=
  match s with
  | EmptyString => ("", 0)
  | String c s' =>
      match strip_trailing_zeros s' with
      | (EmptyString, k) =>
          if ascii_eqb c "0" then ("", S k) else (String c "", k)
      | (t, k) => (String c t, k)
      end
  end.

(** [Number::toString] (radix 10) *)
Definition Number_toString (x : number) : string :=
  match x with
  | NaN => "NaN"
  | Infinity false => "Infinity"
  | Infinity true => "-Infinity"
  | Dec neg m e =>
      if decide (m = 0%N) then "0" else
      let '(ds, z) := strip_trailing_zeros (pretty m) in
      let k := Z.of_nat (String.length ds) in
      let n := (k + e + Z.of_nat z)%Z in
      let sign := if neg then "-" else "" in
      sign +:+
      (if decide (k ≤ n ∧ n ≤ 21)%Z then
         ds +:+ repeat_str "0" (Z.to_nat (n - k))
       else if decide (0 < n ∧ n ≤ 21)%Z then
         str_take (Z.to_nat n) ds +:+ "." +:+ str_drop (Z.to_nat n) ds
       else if decide (-6 < n ∧ n ≤ 0)%Z then
         "0." +:+ repeat_str "0" (Z.to_nat (- n)) +:+ ds
       else
         let ex := ((if decide (n - 1 < 0)%Z then "-" else "+")
                    +:+ pretty (Z.to_N (Z.abs (n - 1)))) in
         if decide (k = 1)%Z then ds +:+ "e" +:+ ex
         else str_take 1 ds +:+ "." +:+ str_drop 1 ds +:+ "e" +:+ ex)
  end.

Definition take_sign (s : string) : bool * string :=
  match s with
  | String c s' =>
      if ascii_eqb c "-" then (true, s')
      else if ascii_eqb c "+" then (false, s')
      else (false, s)
  | EmptyString => (false, "")
  end.

(** [parseInt(string)] without a radix, on a string *)
Definition parseInt_string (input : string) : number :=
  let '(neg, s) := take_sign (trimStart input) in
  if String.prefix "0x" s || String.prefix "0X" s then
    let '(d, _) := take_hex (str_drop 2 s) in
    if is_empty d then NaN else Dec neg (hex_to_N 0 d) 0
  else
    let '(d, _) := take_digits s in
    if is_empty d then NaN else Dec neg (digits_to_N 0 d) 0.

Definition take_exponent (s : string) : Z :=
  match s with
  | String c s' =>
      if ascii_eqb c "e" || ascii_eqb c "E" then
        let '(neg, s'') := take_sign s' in
        let '(d, _) := take_digits s'' in
        if is_empty d then 0%Z
        else if neg then (- Z.of_N (digits_to_N 0 d))%Z
        else Z.of_N (digits_to_N 0 d)
      else 0%Z
  | EmptyString => 0%Z
  end.

(** [parseFloat(string)], on a string *)
Definition parseFloat_string (input : string) : number :=
  let '(neg, s) := take_sign (trimStart input) in
  if String.prefix "Infinity" s then Infinity neg else
  let '(ip, r) := take_digits s in
  let '(fp, r') :=
    match r with
    | String c r1 => if ascii_eqb c "." then take_digits r1 else ("", r)
    | EmptyString => ("", r)
    end in
  if is_empty ip && is_empty fp then NaN
  else Dec neg (digits_to_N 0 (ip +:+ fp))
               (take_exponent r' - Z.of_nat (String.length fp))%Z.

(** ** Values and the heap

    Objects live in a heap and are referred to by location, so that a graph
    may hold cycles and sharing.  The classes are those the formatters tell
    apart: ordinary objects, objects without prototype
    ([Object.create(null)]), arrays, errors, dates and regular expressions.
    [props] lists the own enumerable properties in property order; an array
    is dense and [props] holds its elements.  [toStr] is the outcome of the
    object's conversion to a primitive string (its [toString] protocol).
    String wrapper objects, accessors and proxies are outside the model, a
    function has no property of its own and converts to its source text, and
    no property holds a built-in constructor: [x?.constructor === String]
    holds of the strings only. *)

Definition loc := nat.

Inductive value :=
  | VUndefined
  | VNull
  | VBoolean (b : bool)
  | VNumber (n : number)
  | VBigInt (z : Z)
  | VString (s : string)
  | VSymbol (description : string)
  | VFunction (name source : string)
  | VObject (l : loc).

Inductive key :=
  | KString (s : string)
  | KSymbol (description : string).

Inductive obj_class :=
  | ClassObject
  | ClassNullProto
  | ClassArray
  | ClassError (stack : string)
  | ClassDate (iso : option string)
  | ClassRegExp (source : string).

Record object := mkObject {
  oclass : obj_class;
  props : list (key * value);
  toStr : result string
}.

Definition heap := list object.

(** An ordinary object literal, [Object.create(null)] with properties, an
    array (its [toString] joins the elements; the text is given). *)
Definition plain (ps : list (key * value)) : object :=
  mkObject ClassObject ps (Ok "[object Object]").
Definition Object_create_null (ps : list (key * value)) : object :=
  mkObject ClassNullProto ps (Throw TypeError).
Definition array (elems : list value) (text : string) : object :=
  mkObject ClassArray (imap (λ i v, (KString (pretty i), v)) elems) (Ok text).

Definition is_Error (h : heap) (v : value) : bool :=
  match v with
  | VObject l =>
      match h !! l with
      | Some (mkObject (ClassError _) _ _) => true
      | _ => false
      end
  | _ => false
  end.

(** [arg instanceof Error && arg.stack]: the stack when it is truthy *)
Definition error_stack (h : heap) (v : value) : option string :=
  match v with
  | VObject l =>
      match h !! l with
      | Some (mkObject (ClassError st) _ _) =>
          if is_empty st then None else Some st
      | _ => None
      end
  | _ => None
  end.

Definition instanceof_Function (v : value) : bool :=
  match v with VFunction _ _ => true | _ => false end.

Definition instanceof_Object (h : heap) (v : value) : bool :=
  match v with
  | VFunction _ _ => true
  | VObject l =>
      match h !! l with
      | Some (mkObject ClassNullProto _ _) => false
      | _ => true
      end
  | _ => false
  end.

(** [(arg === null || arg instanceof Object) && !(arg instanceof Function)] *)
Definition is_null_or_object (h : heap) (v : value) : bool :=
  match v with
  | VNull => true
  | _ => instanceof_Object h v && negb (instanceof_Function v)
  end.

(** [format?.constructor === String] and [Object(arg) instanceof String] *)
Definition is_String (v : value) : bool :=
  match v with VString _ => true | _ => false end.

Definition Symbol_toString (description : string) : string :=
  "Symbol(" +:+ description +:+ ")".

(** [String(v)] *)
Definition String_ (h : heap) (v : value) : result string :=
  match v with
  | VUndefined => Ok "undefined"
  | VNull => Ok "null"
  | VBoolean b => Ok (if b then "true" else "false")
  | VNumber n => Ok (Number_toString n)
  | VBigInt z => Ok (pretty z)
  | VString s => Ok s
  | VSymbol d => Ok (Symbol_toString d)
  | VFunction _ src => Ok src
  | VObject l =>
      match h !! l with
      | Some o => toStr o
      | None => Ok "[object Object]"
      end
  end.

(** The abstract operation [ToString(v)], as applied by [parseInt(v)] and
    by string concatenation: it throws on a symbol. *)
Definition ToString (h : heap) (v : value) : result string :=
  match v with
  | VSymbol _ => Throw TypeError
  | _ => String_ h v
  end.

Definition parseInt (h : heap) (v : value) : result number :=
  s ← ToString h v; Ok (parseInt_string s).

Definition parseFloat (h : heap) (v : value) : result number :=
  s ← ToString h v; Ok (parseFloat_string s).

(** [Object.prototype.toString.call(v)] *)
Definition Object_prototype_toString (h : heap) (v : value) : string :=
  match v with
  | VUndefined => "[object Undefined]"
  | VNull => "[object Null]"
  | VBoolean _ => "[object Boolean]"
  | VNumber _ => "[object Number]"
  | VBigInt _ => "[object BigInt]"
  | VString _ => "[object String]"
  | VSymbol _ => "[object Symbol]"
  | VFunction _ _ => "[object Function]"
  | VObject l =>
      match oclass <$> h !! l with
      | Some ClassArray => "[object Array]"
      | Some (ClassError _) => "[object Error]"
      | Some (ClassDate _) => "[object Date]"
      | Some (ClassRegExp _) => "[object RegExp]"
      | _ => "[object Object]"
      end
  end.

(** *** JSON.stringify *)

Definition hex_digit (n : nat) : string :=
  chr (if n <? 10 then 48 + n else 87 + n).

Definition json_escape_char (c : ascii) : string :=
  let n := nat_of_ascii c in
  if n =? 34 then BSL +:+ DQ
  else if n =? 92 then BSL +:+ BSL
  else if n =? 8 then BSL +:+ "b"
  else if n =? 12 then BSL +:+ "f"
  else if n =? 10 then BSL +:+ "n"
  else if n =? 13 then BSL +:+ "r"
  else if n =? 9 then BSL +:+ "t"
  else if n <? 32 then BSL +:+ "u00" +:+ hex_digit (n / 16) +:+ hex_digit (n mod 16)
  else String c "".

Fixpoint json_escape (s : string) : string :=
  match s with
  | EmptyString => ""
  | String c s' => json_escape_char c +:+ json_escape s'
  end.

Definition QuoteJSONString (s : string) : string :=
  DQ +:+ json_escape s +:+ DQ.

Definition json_number (n : number) : string :=
  match n with
  | Dec _ _ _ => Number_toString n
  | _ => "null"
  end.

Definition json_wrap (gap indent stepback opn cls : string)
    (partial : list string) : string :=
  match partial with
  | [] => opn +:+ cls
  | _ =>
      if is_empty gap then opn +:+ join "," partial +:+ cls
      else opn +:+ NL +:+ indent +:+ join ("," +:+ NL +:+ indent) partial
           +:+ NL +:+ stepback +:+ cls
  end.

(** [SerializeJSONProperty]: [None] stands for [undefined].  [stack] holds
    the objects being serialized; meeting one of them again throws.  Of the
    objects of the model only a [Date] has a [toJSON] method: a property
    [toJSON] is serialized like any other, and left out when it holds a
    function. *)
Fixpoint SerializeJSONProperty (fuel : nat) (h : heap) (gap : string)
    (stack : list loc) (indent : string) (v : value) : result (option string) :=
  match v with
  | VUndefined | VSymbol _ | VFunction _ _ => Ok None
  | VNull => Ok (Some "null")
  | VBoolean b => Ok (Some (if b then "true" else "false"))
  | VNumber n => Ok (Some (json_number n))
  | VBigInt _ => Throw TypeError
  | VString s => Ok (Some (QuoteJSONString s))
  | VObject l =>
      match h !! l with
      | None => Ok (Some "{}")
      | Some (mkObject (ClassDate (Some iso)) _ _) => Ok (Some (QuoteJSONString iso))
      | Some (mkObject (ClassDate None) _ _) => Ok (Some "null")
      | Some (mkObject cl ps _) =>
          if bool_decide (l ∈ stack) then Throw TypeError else
          match fuel with
          | 0 => OutOfFuel
          | S fuel' =>
              let indent' := indent +:+ gap in
              let ser := SerializeJSONProperty fuel' h gap (l :: stack) indent' in
              match cl with
              | ClassArray =>
                  partial ← mapR (λ kv, default "null" <$> ser kv.2) ps;
                  Ok (Some (json_wrap gap indent' indent "[" "]" partial))
              | _ =>
                  partial ← mapR (λ kv,
                    match kv.1 with
                    | KSymbol _ => Ok None
                    | KString k =>
                        o ← ser kv.2;
                        Ok (option_map (λ str, QuoteJSONString k +:+ ":" +:+
                              (if is_empty gap then "" else " ") +:+ str) o)
                    end) ps;
                  Ok (Some (json_wrap gap indent' indent "{" "}" (omap id partial)))
              end
          end
      end
  end.

(** [JSON.stringify(v)] and [JSON.stringify(v, null, '\t')] *)
Definition JSON_stringify (h : heap) (v : value) (gap : string) : result (option string) :=
  SerializeJSONProperty (S (length h)) h gap [] "" v.

(** The heaps the serialization above is right about: no object has a
    property [toJSON] that holds a function, which [JSON.stringify] would
    call to go on with what it returns. *)
Definition is_toJSON (kv : key * value) : bool :=
  match kv with
  | (KString name, VFunction _ _) => bool_decide (name = "toJSON")
  | _ => false
  end.

Definition no_toJSON (h : heap) : bool :=
  forallb (λ o, forallb (λ kv, negb (is_toJSON kv)) (props o)) h.

(** An [undefined] result read where a string is expected *)
Definition or_undefined (o : option string) : string := default "undefined" o.

(** * util.mjs *)

(** ** escapeHtml *)

Definition escapeHtml (str : string) : string :=
  replaceAll ">" "&gt;"
    (replaceAll "<" "&lt;"
       (replaceAll DQ "&quot;"
          (replaceAll "&" "&amp;" str))).

(** ** safeString

    [None] is [undefined], which [JSON.stringify] answers for a value it
    does not serialize. *)
Definition safeString (h : heap) (arg : value) : result (option string) :=
  try_catch (Some <$> String_ h arg)
    (try_catch (JSON_stringify h arg "")
       (Ok (Some (Object_prototype_toString h arg)))).

(** [escapeHtml(safeString(arg))]: [undefined] has no [replaceAll]. *)
Definition escapeHtml_safeString (h : heap) (arg : value) : result string :=
  s ← safeString h arg;
  match s with
  | Some str => Ok (escapeHtml str)
  | None => Throw TypeError
  end.

(** ** circularToString *)

Module colors.
Definition reset : string := ESC +:+ "[0m".
Definition green : string := ESC +:+ "[32m".
Definition yellow : string := ESC +:+ "[33m".
Definition cyan : string := ESC +:+ "[36m".
Definition grey : string := ESC +:+ "[90m".
Definition magenta : string := ESC +:+ "[35m".
End colors.

(** [[...Object.keys(value), ...Object.getOwnPropertySymbols(value)]], each key
    with [value[key]] *)
Definition is_symbol_key (kv : key * value) : bool :=
  match kv.1 with KSymbol _ => true | KString _ => false end.

Definition own_keys (o : object) : list (key * value) :=
  List.filter (λ kv, negb (is_symbol_key kv)) (props o)
  ++ List.filter is_symbol_key (props o).

(** The variables [scan] closes over: [circularIds], [walkStack], [idCounter] *)
Record scan_state := mkScan {
  circularIds : gmap loc nat;
  walkStack : gset loc;
  idCounter : nat
}.

Definition scan_init : scan_state := mkScan ∅ ∅ 1.

(** [for (const x of xs) f(x)] in the state [s] *)
Fixpoint forR {A S} (f : A → S → result S) (xs : list A) (s : S) : result S :=
  match xs with
  | [] => Ok s
  | x :: xs' => s' ← f x s; forR f xs' s'
  end.

(** [scan(value)].  A location outside the heap denotes no value and is
    passed over.  Fuel is spent when an object enters [walkStack]. *)
Fixpoint scan (fuel : nat) (h : heap) (v : value) (st : scan_state)
    : result scan_state :=
  match v with
  | VObject l =>
      match h !! l with
      | None => Ok st
      | Some o =>
          if bool_decide (l ∈ walkStack st) then
            match circularIds st !! l with
            | Some _ => Ok st
            | None =>
                Ok (mkScan (<[l := idCounter st]> (circularIds st))
                           (walkStack st) (S (idCounter st)))
            end
          else
            match fuel with
            | 0 => OutOfFuel
            | S fuel' =>
                let st1 := mkScan (circularIds st) ({[l]} ∪ walkStack st)
                                  (idCounter st) in
                st2 ← forR (λ kv, scan fuel' h kv.2) (own_keys o) st1;
                Ok (mkScan (circularIds st2) (walkStack st2 ∖ {[l]})
                           (idCounter st2))
            end
      end
  | _ => Ok st
  end.

Definition is_ident_start (c : ascii) : bool :=
  let n := nat_of_ascii c in
  (n =? 36) || ((65 <=? n) && (n <=? 90)) || (n =? 95)
  || ((97 <=? n) && (n <=? 122)).

Definition is_ident_part (c : ascii) : bool :=
  is_ident_start c || is_digit c.

(** [/^[$A-Z_a-z][\w$]*$/.test(s)] *)
Definition is_identifier (s : string) : bool :=
  match s with
  | String c s' => is_ident_start c && str_forallb is_ident_part s'
  | EmptyString => false
  end.

(** The text of a key in front of its value *)
Definition format_key (isArray : bool) (k : key) : string :=
  if isArray then "" else
  let keyStr :=
    match k with
    | KSymbol d => "[" +:+ Symbol_toString d +:+ "]"
    | KString s => s
    end in
  let keyStr :=
    if is_identifier keyStr then keyStr
    else SQ +:+ replaceAll NL (BSL +:+ "n")
                  (replaceAll SQ (BSL +:+ SQ) keyStr) +:+ SQ in
  keyStr +:+ ": ".

(** [xs.map(f)] where [f] reads and updates a state and may throw *)
Fixpoint mapS {A B S} (f : A → S → result (B * S)) (xs : list A) (s : S)
    : result (list B * S) :=
  match xs with
  | [] => Ok ([], s)
  | x :: xs' =>
      '(y, s1) ← f x s;
      '(ys, s2) ← mapS f xs' s1;
      Ok (y :: ys, s2)
  end.

Definition exceeds (currentDepth : nat) (depth : option nat) : bool :=
  match depth with
  | None => false
  | Some d => d <? currentDepth
  end.

Definition is_array_class (c : obj_class) : bool :=
  match c with ClassArray => true | _ => false end.

Definition ref_prefix (refId : option nat) : string :=
  match refId with
  | Some n => colors.cyan +:+ "<ref *" +:+ pretty n +:+ ">" +:+ colors.reset +:+ " "
  | None => ""
  end.

Definition circular_marker (n : nat) : string :=
  colors.cyan +:+ "[Circular *" +:+ pretty n +:+ "]" +:+ colors.reset.

Definition depth_marker : string :=
  colors.cyan +:+ "[Object]" +:+ colors.reset.

(** Step 2 of [format]: a [Date] renders by [toISOString()], which throws on
    an invalid date, a [RegExp] by [toString()]. *)
Definition special_object (o : object) : option (result string) :=
  match oclass o with
  | ClassDate (Some iso) => Some (Ok (colors.magenta +:+ iso +:+ colors.reset))
  | ClassDate None => Some (Throw RangeError)
  | ClassRegExp src => Some (Ok (colors.magenta +:+ src +:+ colors.reset))
  | _ => None
  end.

(** An object without keys, at the depth it is met *)
Definition format_leaf (currentDepth : nat) (depth : option nat) : string :=
  if exceeds currentDepth depth then depth_marker else "{}".

(** [format(value, currentDepth)]; the set [seen] is threaded through.  A
    [bigint], like a location outside the heap, reaches the object branch
    and has no keys.  Fuel is spent when the keys of an object are mapped. *)
Fixpoint format (fuel : nat) (h : heap) (ids : gmap loc nat) (depth : option nat)
    (v : value) (currentDepth : nat) (seen : gset loc)
    : result (string * gset loc) :=
  match v with
  | VString s => Ok (colors.green +:+ SQ +:+ s +:+ SQ +:+ colors.reset, seen)
  | VNumber n => Ok (colors.yellow +:+ Number_toString n +:+ colors.reset, seen)
  | VBoolean b =>
      Ok (colors.yellow +:+ (if b then "true" else "false") +:+ colors.reset, seen)
  | VUndefined => Ok (colors.grey +:+ "undefined" +:+ colors.reset, seen)
  | VNull => Ok (colors.reset +:+ "null" +:+ colors.reset, seen)
  | VSymbol d => Ok (colors.green +:+ Symbol_toString d +:+ colors.reset, seen)
  | VFunction name _ =>
      Ok (colors.cyan +:+ "[Function: "
          +:+ (if is_empty name then "(anonymous)" else name) +:+ "]"
          +:+ colors.reset, seen)
  | VBigInt _ => Ok (format_leaf currentDepth depth, seen)
  | VObject l =>
      match h !! l with
      | None => Ok (format_leaf currentDepth depth, seen)
      | Some o =>
          match special_object o with
          | Some r => s ← r; Ok (s, seen)
          | None =>
              let refId := ids !! l in
              match (if bool_decide (l ∈ seen) then refId else None) with
              | Some n => Ok (circular_marker n, seen)
              | None =>
                  if exceeds currentDepth depth then Ok (depth_marker, seen) else
                  let seen := {[l]} ∪ seen in
                  let isArray := is_array_class (oclass o) in
                  let prefix := ref_prefix refId in
                  let open := if isArray then "[" else "{" in
                  let close := if isArray then "]" else "}" in
                  let keys := own_keys o in
                  if bool_decide (keys = []) then Ok (prefix +:+ open +:+ close, seen)
                  else
                    match fuel with
                    | 0 => OutOfFuel
                    | S fuel' =>
                        let spaces := repeat_str TAB currentDepth in
                        let nextSpaces := repeat_str TAB (currentDepth + 1) in
                        '(content, seen) ←
                          mapS (λ kv seen,
                            '(valStr, seen) ← format fuel' h ids depth kv.2
                                                (currentDepth + 1) seen;
                            Ok (nextSpaces +:+ format_key isArray kv.1 +:+ valStr,
                                seen)) keys seen;
                        Ok (prefix +:+ open +:+ NL
                            +:+ join ("," +:+ NL) content +:+ NL
                            +:+ spaces +:+ close, seen ∖ {[l]})
                    end
              end
          end
      end
  end.

(** [circularToString(target, { depth })]; [depth = None] is [Infinity]. *)
Definition circularToString (h : heap) (target : value) (depth : option nat)
    : result string :=
  st ← scan (length h) h target scan_init;
  '(s, _) ← format (length h) h (circularIds st) depth target 0 ∅;
  Ok s.

(** ** The ansi_up converter

    [ansi_up.ansi_to_html] belongs to the [ansi_up] package, not to this
    repository: the development is parametric in it.  The converter of
    [util.mjs] is one object, which keeps the colours in force and an
    unfinished escape sequence from one invocation to the next:
    [ansi_to_html] is the conversion by that object as it stands, the same
    at every invocation as long as the texts converted leave the object as
    they found it, which texts without escape sequences do. *)
Class AnsiUp := ansi_to_html : string → string.

(** The converter as an object with a state: [convert a text] is the markup
    and the state after it.  [in_state c a] is the conversion the object
    does at its next invocation when it is in state [a]. *)
Record ansi_up := mkAnsiUp {
  ansi_state : Type;
  convert : ansi_state → string → string * ansi_state
}.

Definition in_state (c : ansi_up) (a : ansi_state c) : AnsiUp :=
  λ text, (convert c a text).1.

Section util_html.
Context `{!AnsiUp}.

(** [argToHtml(arg)] *)
Definition argToHtml (h : heap) (arg : value) : result string :=
  match error_stack h arg with
  | Some stack => Ok (ansi_to_html stack)
  | None =>
      let structural := ansi_to_html <$> circularToString h arg None in
      if is_null_or_object h arg then
        try_catch
          ((λ j, ansi_to_html (or_undefined j)) <$> JSON_stringify h arg TAB)
          structural
      else structural
  end.

(** The state of the [replace] callback of [argsToHtml] *)
Record replace_state := mkReplace {
  argIndex : nat;
  hasStyle : bool
}.

(** The class of [/%[%Ocdfijos]/g] *)
Definition html_specifier (c : ascii) : bool :=
  match String.index 0 (String c "") "%Ocdfijos" with
  | Some _ => true
  | None => false
  end.

Definition style_open (style : string) : string :=
  "</span><span style=" +:+ DQ +:+ style +:+ DQ +:+ ">".

(** The callback given to [html.replace(regex, ...)]; [c] is the second
    character of the match. *)
Definition html_callback (h : heap) (args : list value) (c : ascii)
    (st : replace_state) : result (string * replace_state) :=
  if ascii_eqb c "%" then Ok ("%", st) else
  match args !! argIndex st with
  | None => Ok (String "%" (String c ""), st)
  | Some arg =>
      let st' := mkReplace (S (argIndex st)) (hasStyle st) in
      if ascii_eqb c "c" then
        e ← escapeHtml_safeString h arg;
        Ok (style_open e, mkReplace (S (argIndex st)) true)
      else if ascii_eqb c "s" then
        s ← safeString h arg; Ok (ansi_to_html (or_undefined s), st')
      else if ascii_eqb c "d" || ascii_eqb c "i" then
        s ← safeString h arg;
        Ok (Number_toString (parseInt_string (or_undefined s)), st')
      else if ascii_eqb c "f" then
        s ← safeString h arg;
        Ok (Number_toString (parseFloat_string (or_undefined s)), st')
      else if ascii_eqb c "o" || ascii_eqb c "O" then
        s ← circularToString h arg None; Ok (ansi_to_html s, st')
      else if ascii_eqb c "j" then
        s ← try_catch
              ((λ j, ansi_to_html (or_undefined j)) <$> JSON_stringify h arg "")
              ((λ s, ansi_to_html (or_undefined s)) <$> safeString h arg);
        Ok (s, st')
      else Ok (String "%" (String c ""), st')
  end.

(** [html.replace(regex, callback)] *)
Fixpoint html_replace (h : heap) (args : list value) (html : string)
    (st : replace_state) : result (string * replace_state) :=
  match html with
  | EmptyString => Ok ("", st)
  | String c tl =>
      match tl with
      | String d tl' =>
          if ascii_eqb c "%" && html_specifier d then
            '(piece, st1) ← html_callback h args d st;
            '(rest, st2) ← html_replace h args tl' st1;
            Ok (piece +:+ rest, st2)
          else
            '(rest, st2) ← html_replace h args tl st;
            Ok (String c rest, st2)
      | EmptyString => Ok (String c "", st)
      end
  end.

Definition empty_style_span : string :=
  Eval cbv in "<span style=" +:+ DQ +:+ DQ +:+ ">".

(** [argsToHtml(args)]; the last branch is [format?.constructor !== String]. *)
Definition argsToHtml (h : heap) (args : list value) : result string :=
  match args with
  | [] => Ok ""
  | VString format :: _ =>
      '(html, st) ← html_replace h args (ansi_to_html format) (mkReplace 1 false);
      let html := if hasStyle st then "<span>" +:+ html +:+ "</span>" else html in
      let html := replaceAll empty_style_span "<span>" html in
      let html := replaceAll "<span></span>" "" html in
      rest ← mapR (argToHtml h) (drop (argIndex st) args);
      let html := html +:+ " " +:+ join " " rest in
      Ok (replaceAll NL ("<br/>" +:+ NL) (trim html))
  | _ => join " " <$> mapR (argToHtml h) args
  end.

End util_html.

(** * browser.mjs: formatArgs *)

(** The variables of the [while] loop of [formatArgs] *)
Record format_state := mkFormat {
  output : string;
  fmtIndex : nat
}.

Definition emit (st : format_state) (s : string) : format_state :=
  mkFormat (output st +:+ s) (fmtIndex st).

(** The class of [/%[sdifoOc%]/g] *)
Definition plain_specifier (c : ascii) : bool :=
  match String.index 0 (String c "") "sdifoOc%" with
  | Some _ => true
  | None => false
  end.

(** [try { JSON.stringify(arg, null, '\t') } catch { String(arg) }], read as
    text *)
Definition json_or_String (h : heap) (arg : value) : result string :=
  try_catch (or_undefined <$> JSON_stringify h arg TAB) (String_ h arg).

(** One match of the regular expression; [c] is its second character. *)
Definition format_match (h : heap) (args : list value) (c : ascii)
    (st : format_state) : result format_state :=
  if ascii_eqb c "%" then Ok (emit st "%") else
  match args !! fmtIndex st with
  | None => Ok (emit st (String "%" (String c "")))
  | Some arg =>
      let st' := mkFormat (output st) (S (fmtIndex st)) in
      if ascii_eqb c "c" then Ok st'
      else if ascii_eqb c "s" then
        s ← String_ h arg; Ok (emit st' s)
      else if ascii_eqb c "d" || ascii_eqb c "i" then
        n ← parseInt h arg; Ok (emit st' (Number_toString n))
      else if ascii_eqb c "f" then
        n ← parseFloat h arg; Ok (emit st' (Number_toString n))
      else if ascii_eqb c "o" || ascii_eqb c "O" then
        s ← json_or_String h arg; Ok (emit st' s)
      else Ok st'
  end.

(** The [while ((match = regex.exec(format)) !== null)] loop followed by
    [output += format.slice(lastIndex)], over the rest of the template *)
Fixpoint format_loop (h : heap) (args : list value) (format : string)
    (st : format_state) : result format_state :=
  match format with
  | EmptyString => Ok st
  | String c tl =>
      match tl with
      | String d tl' =>
          if ascii_eqb c "%" && plain_specifier d then
            st1 ← format_match h args d st;
            format_loop h args tl' st1
          else format_loop h args tl (emit st (String c ""))
      | EmptyString => Ok (emit st (String c ""))
      end
  end.

(** The body of [while (argIndex < args.length)] for one argument *)
Definition format_rest_arg (h : heap) (arg : value) (out : string) : result string :=
  let out := if is_empty out then out else out +:+ " " in
  match error_stack h arg with
  | Some stack => Ok (out +:+ stack)
  | None =>
      if is_null_or_object h arg then
        s ← json_or_String h arg; Ok (out +:+ s)
      else
        s ← String_ h arg; Ok (out +:+ s)
  end.

(** The callback of [args.map] when the first argument is no string;
    [None] is [undefined], which [join] reads as the empty string. *)
Definition format_plain_arg (h : heap) (arg : value) : result (option string) :=
  match arg with
  | VString s => Ok (Some s)
  | _ =>
      match error_stack h arg with
      | Some stack => Ok (Some stack)
      | None => try_catch (JSON_stringify h arg TAB) (Some <$> String_ h arg)
      end
  end.

(** [formatArgs(args)]; the first branch is [format?.constructor !== String]. *)
Definition formatArgs (h : heap) (args : list value) : result string :=
  match args with
  | [] => Ok ""
  | VString format :: _ =>
      st ← format_loop h args format (mkFormat "" 1);
      forR (format_rest_arg h) (drop (fmtIndex st) args) (output st)
  | _ =>
      parts ← mapR (format_plain_arg h) args;
      Ok (join " " (default "" <$> parts))
  end.

(** * The capturing console

    What a call does outside the instance is recorded as a list of events:
    calls of the base console, of the configured error handler, and (Node)
    writes to the streams of the base console. *)

(** A host function given as [error_handler] *)
Definition handler := nat.

Record console_options := mkOptions {
  realConsoleOutput : bool;
  recordOutput : bool;
  supportsAnsi : bool;
  error_handler : option handler
}.

Inductive event :=
  | BaseCall (method : string) (args : list value)
  | BaseClear
  | HandlerCall (f : handler) (arg : value)
  | StreamWrite (stderr : bool) (chunk : string).

(** The fields of an instance.  [base_methods] names the functions found on
    [#base_console]; a console has them all, [console_methods] below. *)
Record VirtualConsole := mkConsole {
  outputs : string;
  outputsHtml : string;
  options : console_options;
  base_methods : list string;
  loggedFreshLineId : option string
}.

Definition set_fresh (id : option string) (vc : VirtualConsole) : VirtualConsole :=
  mkConsole (outputs vc) (outputsHtml vc) (options vc) (base_methods vc) id.

Definition set_buffers (text html : string) (vc : VirtualConsole) : VirtualConsole :=
  mkConsole text html (options vc) (base_methods vc) (loggedFreshLineId vc).

(** [method == 'error' && this.options.error_handler && args.length === 1
    && args[0] instanceof Error] *)
Definition intercepted (h : heap) (o : console_options) (method : string)
    (args : list value) : option (handler * value) :=
  if String.eqb method "error" then
    match error_handler o, args with
    | Some f, [a] => if is_Error h a then Some (f, a) else None
    | _, _ => None
    end
  else None.

(** [clear()], the same in both files.  The fields are reset before
    [this.#base_console.clear()] is reached, which throws when the base
    console has no such function: the state after the call comes with its
    completion. *)
Definition clear (vc : VirtualConsole) : VirtualConsole * result (list event) :=
  (set_buffers "" "" (set_fresh None vc),
   if realConsoleOutput (options vc) then
     if bool_decide ("clear" ∈ base_methods vc) then Ok [BaseClear]
     else Throw TypeError
   else Ok []).

(** An instance is an object with an identity; the router holds a reference
    to one, or [null]. *)
Definition instance := nat.
Definition defaultConsole : instance := 0.

(** What calling [fn()] does: it returns a value or a promise, or throws. *)
Inductive settlement :=
  | Fulfilled (v : value)
  | Rejected (e : value).

Inductive returned :=
  | Plain (v : value)
  | Promise (s : option settlement).

Inductive completion :=
  | Returns (r : returned)
  | Throws (e : value).

(** [fn], run against the router cell it finds, which it may rebind *)
Definition callee := option instance → completion * option instance.

(** [Promise.resolve(result)] settles as [result] does; [None]: never. *)
Definition Promise_resolve (r : returned) : option settlement :=
  match r with
  | Plain v => Some (Fulfilled v)
  | Promise s => s
  end.

Module Browser.
Section browser.
Context `{!AnsiUp}.

Definition methods : list string :=
  ["log"; "info"; "warn"; "debug"; "error"; "table"; "dir"; "assert";
   "count"; "countReset"; "time"; "timeLog"; "timeEnd"; "group";
   "groupCollapsed"; "groupEnd"].

(** [new VirtualConsole(options)] *)
Definition new_VirtualConsole (base : list string) (o : console_options)
    : VirtualConsole :=
  mkConsole "" "" o base None.

(** [this[method]] was defined by the constructor *)
Definition installed (vc : VirtualConsole) (method : string) : bool :=
  bool_decide (method ∈ methods) && bool_decide (method ∈ base_methods vc).

(** [vc[method](...args)] *)
Definition call (h : heap) (vc : VirtualConsole) (method : string)
    (args : list value) : result (VirtualConsole * list event) :=
  if negb (installed vc method) then Throw TypeError else
  match intercepted h (options vc) method args with
  | Some (f, e) => Ok (vc, [HandlerCall f e])
  | None =>
      let vc := set_fresh None vc in
      vc ← (if recordOutput (options vc) then
              text ← formatArgs h args;
              html ← argsToHtml h args;
              Ok (set_buffers (outputs vc +:+ text +:+ NL)
                              (outputsHtml vc +:+ html +:+ "<br/>" +:+ NL) vc)
            else Ok vc);
      Ok (vc, if realConsoleOutput (options vc)
              then [BaseCall method args] else [])
  end.

(** [freshLine(id, ...args)] *)
Definition freshLine (h : heap) (vc : VirtualConsole) (id : string)
    (args : list value) : result (VirtualConsole * list event) :=
  '(vc, evs) ← call h vc "log" args;
  Ok (set_fresh (Some id) vc, evs).

(** ** The context router: [currentAsyncConsole] is one global cell. *)

Definition consoleReflect (currentAsyncConsole : option instance) : instance :=
  default defaultConsole currentAsyncConsole.

Definition consoleReflectSet (v : instance) (_ : option instance)
    : option instance := Some v.

(** [consoleReflectRun] is an [async] function: it runs up to its [await],
    and is resumed when the awaited promise settles. *)
Inductive run_state :=
  | Settled (s : settlement)
  | Suspended (previousConsole : option instance) (awaited : option settlement).

Definition consoleReflectRun_start (v : instance) (fn : callee)
    (currentAsyncConsole : option instance) : option instance * run_state :=
  let previousConsole := currentAsyncConsole in
  let currentAsyncConsole := Some v in
  match fn currentAsyncConsole with
  | (Throws e, _) => (previousConsole, Settled (Rejected e))
  | (Returns result, currentAsyncConsole) =>
      (currentAsyncConsole, Suspended previousConsole (Promise_resolve result))
  end.

(** The resumption: the [finally] block, then the function settles. *)
Definition consoleReflectRun_resume (previousConsole : option instance)
    (s : settlement) (_ : option instance) : option instance * settlement :=
  (previousConsole, s).

(** The whole run; [env] is what other code does to the cell while the
    function is suspended.  [None]: the awaited promise never settles. *)
Definition consoleReflectRun (v : instance) (fn : callee)
    (env : option instance → option instance)
    (currentAsyncConsole : option instance)
    : option instance * option settlement :=
  match consoleReflectRun_start v fn currentAsyncConsole with
  | (c, Settled s) => (c, Some s)
  | (c, Suspended previousConsole (Some s)) =>
      let '(c', s') := consoleReflectRun_resume previousConsole s (env c) in
      (c', Some s')
  | (c, Suspended _ None) => (env c, None)
  end.

(** [hookAsyncContext(fn)]: with [fn] the scoped run, without it the
    rebinding of the cell, which stays. *)
Definition hookAsyncContext (this : instance) (fn : option callee)
    (env : option instance → option instance)
    (currentAsyncConsole : option instance)
    : option instance * option settlement :=
  match fn with
  | Some fn => consoleReflectRun this fn env currentAsyncConsole
  | None => (consoleReflectSet this currentAsyncConsole, None)
  end.

(** ** The global facade

    [FullProxy] (package [full-proxy]) forwards an operation that has no
    trap to the object its first argument computes, here
    [Object.assign({}, globalConsoleAdditionalProperties, consoleReflect())].
    An instance is seen through its own enumerable properties; all of them
    are writable data properties. *)

(** Names found on the prototype chain of an instance: the methods of
    [VirtualConsole.prototype] and the properties of [Object.prototype].
    All are writable data properties but [__proto__], an accessor. *)
Definition prototype_names : list string :=
  ["constructor"; "hookAsyncContext"; "freshLine"; "clear";
   "__defineGetter__"; "__defineSetter__"; "hasOwnProperty";
   "__lookupGetter__"; "__lookupSetter__"; "isPrototypeOf";
   "propertyIsEnumerable"; "toString"; "valueOf"; "__proto__";
   "toLocaleString"].

(** The own properties the constructor leaves on an instance; [opts] is the
    location of the [options] object. *)
Definition own_properties (vc : VirtualConsole) (opts : loc)
    : gmap string value :=
  list_to_map
    ([("outputs", VString (outputs vc));
      ("outputsHtml", VString (outputsHtml vc));
      ("options", VObject opts)]
     ++ ((λ m, (m, VFunction "" "")) <$> List.filter (installed vc) methods)
     ++ [("freshLine", VFunction "bound freshLine" "");
         ("clear", VFunction "bound clear" "")]).

Record realm := mkRealm {
  objects : gmap instance (gmap string value);
  currentAsyncConsole : option instance;
  globalConsoleAdditionalProperties : gmap string value
}.

Definition own_of (r : realm) (i : instance) : gmap string value :=
  default ∅ (objects r !! i).

(** [property in target] *)
Definition has_property (own : gmap string value) (property : string) : bool :=
  bool_decide (is_Some (own !! property))
  || bool_decide (property ∈ prototype_names).

(** Whether [Reflect.set(target, property, value)] finds the accessor
    [__proto__] of [Object.prototype] rather than a data property. *)
Definition reaches_proto_setter (own : gmap string value) (property : string)
    : bool :=
  bool_decide (property = "__proto__") && bool_decide (own !! property = None).

(** The values the setter of [__proto__] takes as a prototype: an object
    or [null]. *)
Definition is_prototype (v : value) : bool :=
  match v with
  | VNull | VObject _ | VFunction _ _ => true
  | _ => false
  end.

(** The [set] trap.  [Reflect.set] on a data property, own or inherited,
    leaves an own property on the instance.  At [__proto__] it runs the
    setter of [Object.prototype]: a value that is neither an object nor
    [null] changes nothing, another one replaces the prototype of the
    instance, which the model does not follow ([None]). *)
Definition facade_set (property : string) (v : value) (r : realm)
    : option (realm * bool) :=
  let target := consoleReflect (currentAsyncConsole r) in
  if has_property (own_of r target) property then
    if reaches_proto_setter (own_of r target) property then
      if is_prototype v then None else Some (r, true)
    else
      Some (mkRealm (<[target := <[property := v]> (own_of r target)]> (objects r))
                    (currentAsyncConsole r) (globalConsoleAdditionalProperties r),
            true)
  else
    Some (mkRealm (objects r) (currentAsyncConsole r)
                  (<[property := v]> (globalConsoleAdditionalProperties r)),
          true).

(** Reading [console[property]]: an own property of the merged object;
    [None] when the merged object has none, and the read goes on to its
    prototype.  [Object.assign] copies by assignment, so that an own
    [__proto__] of a source reaches the setter and leaves no own property. *)
Definition facade_get (property : string) (r : realm) : option value :=
  if bool_decide (property = "__proto__") then None
  else (own_of r (consoleReflect (currentAsyncConsole r))
        ∪ globalConsoleAdditionalProperties r) !! property.

End browser.
End Browser.

(** * node.mjs *)

(** The text Node's own [Console] writes for a call belongs to Node
    ([util.formatWithOptions]): the development is parametric in it. *)
Class NodeFormat := node_format : heap → list value → string.

Module Node.
Section node.
Context `{!AnsiUp} `{!NodeFormat}.

Inductive method := log | info | warn | debug | error.

Definition method_name (m : method) : string :=
  match m with
  | log => "log" | info => "info" | warn => "warn"
  | debug => "debug" | error => "error"
  end.

(** Node's [Console] writes [warn] and [error] to [_stderr]. *)
Definition to_stderr (m : method) : bool :=
  match m with warn | error => true | _ => false end.

(** The [write] function a [VirtualStream] hands to Node's [Writable],
    on one chunk.  Without pass-through it calls back at once; with
    pass-through the callback is left to the stream of the base console. *)
Definition stream_write (vc : VirtualConsole) (stderr : bool) (chunk : string)
    : VirtualConsole * list event :=
  let vc := set_fresh None vc in
  let vc := if recordOutput (options vc)
            then set_buffers (outputs vc +:+ chunk) (outputsHtml vc) vc
            else vc in
  (vc, if realConsoleOutput (options vc) then [StreamWrite stderr chunk] else []).

(** *** The virtual stream as a [Writable]

    A stream calls back after the running code has returned.  While a
    write awaits its callback, the [Writable] keeps the chunks written to
    it and hands them to [stream_write] one by one as the callbacks
    arrive. *)
Record vstream := mkStream { writing : bool; buffered : list string }.

Definition idle : vstream := mkStream false [].

(** [stream.write(chunk)] *)
Definition Writable_write (vc : VirtualConsole) (s : vstream) (stderr : bool)
    (chunk : string) : VirtualConsole * vstream * list event :=
  if writing s then (vc, mkStream true (buffered s ++ [chunk]), [])
  else
    let '(vc', evs) := stream_write vc stderr chunk in
    (vc', mkStream (realConsoleOutput (options vc)) (buffered s), evs).

(** The buffered chunks are written until one awaits its callback. *)
Fixpoint clearBuffer (vc : VirtualConsole) (stderr : bool) (chunks : list string)
    : VirtualConsole * vstream * list event :=
  match chunks with
  | [] => (vc, idle, [])
  | chunk :: rest =>
      let '(vc', evs) := stream_write vc stderr chunk in
      if realConsoleOutput (options vc) then (vc', mkStream true rest, evs)
      else
        let '(vc'', s, evs') := clearBuffer vc' stderr rest in
        (vc'', s, evs ++ evs')
  end.

(** The callback of the write in flight *)
Definition Writable_onwrite (vc : VirtualConsole) (s : vstream) (stderr : bool)
    : VirtualConsole * vstream * list event :=
  if writing s then clearBuffer vc stderr (buffered s) else (vc, s, []).

(** [this._stdout] and [this._stderr] *)
Record streams := mkStreams { _stdout : vstream; _stderr : vstream }.

Definition idle_streams : streams := mkStreams idle idle.

Definition stream_of (ss : streams) (stderr : bool) : vstream :=
  if stderr then _stderr ss else _stdout ss.

Definition set_stream (ss : streams) (stderr : bool) (s : vstream) : streams :=
  if stderr then mkStreams (_stdout ss) s else mkStreams s (_stderr ss).

(** [originalMethod.apply(this, args)]: Node's [Console] formats the call
    and writes one chunk to its stream. *)
Definition originalMethod (h : heap) (vc : VirtualConsole) (ss : streams)
    (m : method) (args : list value) : VirtualConsole * streams * list event :=
  let '(vc', s, evs) :=
    Writable_write vc (stream_of ss (to_stderr m)) (to_stderr m)
      (node_format h args +:+ NL) in
  (vc', set_stream ss (to_stderr m) s, evs).

(** [vc[method](...args)] on an instance whose virtual streams are in the
    state [ss] *)
Definition call_on (h : heap) (vc : VirtualConsole) (ss : streams) (m : method)
    (args : list value) : result (VirtualConsole * streams * list event) :=
  match intercepted h (options vc) (method_name m) args with
  | Some (f, e) => Ok (vc, ss, [HandlerCall f e])
  | None =>
      vc ← (if recordOutput (options vc) then
              html ← argsToHtml h args;
              Ok (set_buffers (outputs vc)
                              (outputsHtml vc +:+ html +:+ "<br/>" +:+ NL) vc)
            else Ok vc);
      if negb (realConsoleOutput (options vc)) || recordOutput (options vc)
      then Ok (originalMethod h vc ss m args)
      else if bool_decide (method_name m ∈ base_methods vc)
      then Ok (set_fresh None vc, ss, [BaseCall (method_name m) args])
      else Throw TypeError
  end.

(** [vc[method](...args)] when no write awaits its callback *)
Definition call (h : heap) (vc : VirtualConsole) (m : method)
    (args : list value) : result (VirtualConsole * list event) :=
  '(vc', _, evs) ← call_on h vc idle_streams m args;
  Ok (vc', evs).

(** [ansiEscapes.cursorUp(1) + ansiEscapes.eraseLine] (package
    [ansi-escapes]) *)
Definition overwrite_line : string := ESC +:+ "[1A" +:+ ESC +:+ "[2K".

(** [freshLine(id, ...args)]: the line before is erased when it was
    written by [freshLine] with the same [id]; the write goes through
    [this._stdout], a [VirtualStream]. *)
Definition freshLine_on (h : heap) (vc : VirtualConsole) (ss : streams)
    (id : string) (args : list value)
    : result (VirtualConsole * streams * list event) :=
  let '(vc, ss, evs0) :=
    if supportsAnsi (options vc)
       && bool_decide (loggedFreshLineId vc = Some id)
    then
      let '(vc', s, evs) := Writable_write vc (_stdout ss) false overwrite_line in
      (vc', set_stream ss false s, evs)
    else (vc, ss, []) in
  '(vc, ss, evs) ← call_on h vc ss log args;
  Ok (set_fresh (Some id) vc, ss, evs0 ++ evs).

(** [freshLine(id, ...args)] when no write awaits its callback *)
Definition freshLine (h : heap) (vc : VirtualConsole) (id : string)
    (args : list value) : result (VirtualConsole * list event) :=
  '(vc', _, evs) ← freshLine_on h vc idle_streams id args;
  Ok (vc', evs).

(** ** Resize listeners

    A target stream that is a TTY carries one [resize] listener for all
    the virtual streams in front of it.  Target streams, [listenerInfo]
    objects and virtual streams (behind their [WeakRef]) are identities; a
    target stream is a Node stream, with [on] and [off].  What
    [virtualStream.emit('resize')] runs is outside this module. *)
Definition stream := nat.
Definition info_ref := nat.
Definition vref := nat.

(** [streamResizeListeners] (the [WeakMap]), the set [virtualStreams] of
    each [listenerInfo], the listeners attached to each stream by
    [on('resize', ...)], named by their [listenerInfo], and the identity
    of the next object. *)
Record registry := mkRegistry {
  streamResizeListeners : gmap stream info_ref;
  virtualStreams : gmap info_ref (gset vref);
  resize_listeners : gmap stream (list info_ref);
  next_info : info_ref
}.

Definition no_registry : registry := mkRegistry ∅ ∅ ∅ 0.

Definition refs_of (r : registry) (i : info_ref) : gset vref :=
  default ∅ (virtualStreams r !! i).

Definition listeners_of (r : registry) (s : stream) : list info_ref :=
  default [] (resize_listeners r !! s).

(** [stream.off('resize', listener)]: one attachment of the listener goes *)
Fixpoint off (i : info_ref) (attached : list info_ref) : list info_ref :=
  match attached with
  | [] => []
  | x :: rest => if bool_decide (x = i) then rest else x :: off i rest
  end.

(** [getListenerInfo(stream)] *)
Definition getListenerInfo (s : stream) (r : registry) : info_ref * registry :=
  match streamResizeListeners r !! s with
  | Some existing => (existing, r)
  | None =>
      let listenerInfo := next_info r in
      (listenerInfo,
       mkRegistry (<[s := listenerInfo]> (streamResizeListeners r))
                  (<[listenerInfo := ∅]> (virtualStreams r))
                  (<[s := listeners_of r s ++ [listenerInfo]]> (resize_listeners r))
                  (S listenerInfo))
  end.

(** The constructor of [VirtualStream] on a TTY; [v] is the new stream. *)
Definition new_VirtualStream (targetStream : stream) (v : vref) (r : registry)
    : registry :=
  let '(listenerInfo, r) := getListenerInfo targetStream r in
  mkRegistry (streamResizeListeners r)
             (<[listenerInfo := {[v]} ∪ refs_of r listenerInfo]> (virtualStreams r))
             (resize_listeners r) (next_info r).

(** The end of the listener and of the cleanup callback, given the set
    that is left *)
Definition release_if_empty (s : stream) (listenerInfo : info_ref)
    (left : gset vref) (r : registry) : registry :=
  let r := mkRegistry (streamResizeListeners r)
                      (<[listenerInfo := left]> (virtualStreams r))
                      (resize_listeners r) (next_info r) in
  if bool_decide (left ≠ ∅) then r else
  mkRegistry (delete s (streamResizeListeners r)) (virtualStreams r)
             (<[s := off listenerInfo (listeners_of r s)]> (resize_listeners r))
             (next_info r).

(** [listenerInfo.listener]; [alive] tells the references [deref()] still
    answers. *)
Definition listener (s : stream) (listenerInfo : info_ref) (alive : vref → bool)
    (r : registry) : registry :=
  release_if_empty s listenerInfo
    (filter (λ v, alive v = true) (refs_of r listenerInfo)) r.

(** A [resize] event of the target stream: the listeners attached run. *)
Definition emit_resize (s : stream) (alive : vref → bool) (r : registry)
    : registry :=
  foldl (λ r i, listener s i alive r) r (listeners_of r s).

(** The callback of [virtualStreamCleanupRegistry] *)
Definition cleanup (s : stream) (virtualStreamRef : vref) (r : registry)
    : registry :=
  match streamResizeListeners r !! s with
  | None => r
  | Some listenerInfo =>
      release_if_empty s listenerInfo
        (refs_of r listenerInfo ∖ {[virtualStreamRef]}) r
  end.

(** What happens to the registry: a virtual stream is made, the target
    stream is resized, a virtual stream has been collected. *)
Inductive registry_step : registry → registry → Prop :=
  | step_new s v r : registry_step r (new_VirtualStream s v r)
  | step_resize s alive r : registry_step r (emit_resize s alive r)
  | step_cleanup s v r : registry_step r (cleanup s v r).

(** ** The context router

    [AsyncLocalStorage] is Node's.  After its documentation, [getStore()]
    answers the store of the running context, [enterWith(v)] makes [v]
    the store for the rest of it, and [run(v, fn)] calls [fn]
    synchronously with [v] as the store and leaves the store of the caller
    as it found it, whatever [fn] did and whether it returned or threw. *)
Definition AsyncLocalStorage_getStore (store : option instance)
    : option instance := store.

Definition AsyncLocalStorage_enterWith (v : instance) (_ : option instance)
    : option instance := Some v.

Definition AsyncLocalStorage_run (v : instance) (fn : callee)
    (store : option instance) : option instance * completion :=
  let '(c, _) := fn (Some v) in (store, c).

Definition consoleReflect (store : option instance) : instance :=
  default defaultConsole (AsyncLocalStorage_getStore store).

Definition consoleReflectSet (v : instance) (store : option instance)
    : option instance := AsyncLocalStorage_enterWith v store.

Definition consoleReflectRun (v : instance) (fn : callee)
    (store : option instance) : option instance * completion :=
  AsyncLocalStorage_run v fn store.

(** [hookAsyncContext(fn)]; [None]: nothing is returned. *)
Definition hookAsyncContext (this : instance) (fn : option callee)
    (store : option instance) : option instance * option completion :=
  match fn with
  | Some fn => let '(s, c) := consoleReflectRun this fn store in (s, Some c)
  | None => (consoleReflectSet this store, None)
  end.

End node.
End Node.

(** * Definitions used to state the properties *)

(** ** Instances to run the model on examples

    [ansi_up] escapes the five characters below in the text it is given; on a
    text without escape sequence that is all it does.  [text_only_ansi] does
    this and nothing else.  [plain_node_format] stands for Node's formatter
    in examples where the text it writes does not matter. *)
Definition escape_txt_char (c : ascii) : string :=
  let n := nat_of_ascii c in
  if n =? 38 then "&amp;"
  else if n =? 60 then "&lt;"
  else if n =? 62 then "&gt;"
  else if n =? 34 then "&quot;"
  else if n =? 39 then "&#x27;"
  else String c "".

Fixpoint escape_txt_for_html (s : string) : string :=
  match s with
  | EmptyString => ""
  | String c s' => escape_txt_char c +:+ escape_txt_for_html s'
  end.

Definition text_only_ansi : AnsiUp := escape_txt_for_html.

(** The same as an object, whose state never changes *)
Definition text_only_converter : ansi_up :=
  mkAnsiUp unit (λ a text, (escape_txt_for_html text, a)).

Definition plain_node_format : NodeFormat :=
  λ h args, match formatArgs h args with Ok s => s | _ => "" end.

(** A base console with every method, and two configurations *)
Definition console_methods : list string := "clear" :: Browser.methods.

Definition recording : console_options := mkOptions false true false None.
Definition recording_pass_through : console_options := mkOptions true true false None.

(** ** Events *)
Definition is_HandlerCall (e : event) : bool :=
  match e with HandlerCall _ _ => true | _ => false end.

Definition sample_heap : heap :=
  [mkObject (ClassError "Error: boom") [] (Ok "Error: boom");
   Object_create_null []].

Definition handling : console_options := mkOptions false true false (Some 7).

(** ** Templates

    What a template becomes once no argument remains: scanning as the
    regular expression does, [%%] becomes [%] and every other match stands
    as it is, like the text around it. *)
Fixpoint literal_specifiers (spec : ascii → bool) (s : string) : string :=
  match s with
  | EmptyString => ""
  | String c tl =>
      match tl with
      | String d tl' =>
          if ascii_eqb c "%" && spec d then
            (if ascii_eqb d "%" then "%" else String "%" (String d ""))
            +:+ literal_specifiers spec tl'
          else String c (literal_specifiers spec tl)
      | EmptyString => String c ""
      end
  end.

(** The specifiers the claim names *)
Definition claimed_specifiers : list ascii :=
  ["s"; "d"; "i"; "f"; "o"; "O"; "c"]%char.

(** ** The structural stringifier *)

(** [toISOString()] throws on an invalid date. *)
Definition has_invalid_date (h : heap) : bool :=
  existsb (λ o, match oclass o with ClassDate None => true | _ => false end) h.

(** The objects of [seen] are those on the path being rendered ([ws], the
    [walkStack] of [scan] at the same place), and objects without keys, which
    [format] leaves in the set. *)
Definition path_inv (h : heap) (ws seen : gset loc) : Prop :=
  ws ⊆ seen ∧
  ∀ l, l ∈ seen → l ∈ ws ∨ ∃ o, h !! l = Some o ∧ own_keys o = [].

(** [format] came back: with a text, or with the [RangeError] of an invalid
    date. *)
Definition format_ok {A} (h : heap) (ws : gset loc)
    (r : result (A * gset loc)) : Prop :=
  match r with
  | Ok (_, seen') => path_inv h ws seen'
  | Throw e => e = RangeError ∧ has_invalid_date h = true
  | OutOfFuel => False
  end.

(** [scan] and [format] walk the same paths: where [scan] returns with the
    identifiers [circularIds st'], [format], given these or more, returns. *)
Definition walks_alike (h : heap) (depth : option nat) (idsF : gmap loc nat)
    (fuel : nat) (v : value) (st : scan_state) : Prop :=
  ∃ st', scan fuel h v st = Ok st' ∧
         walkStack st' = walkStack st ∧
         circularIds st ⊆ circularIds st' ∧
         (circularIds st' ⊆ idsF →
          ∀ fuel2 cur seen,
            length h ≤ fuel2 + size (walkStack st) →
            path_inv h (walkStack st) seen →
            format_ok h (walkStack st) (format fuel2 h idsF depth v cur seen)).

(** Occurrences of [pat] in [s], counted at every position *)
Fixpoint count_occurrences (pat s : string) : nat :=
  match s with
  | EmptyString => 0
  | String _ s' =>
      (if String.prefix pat s then 1 else 0) + count_occurrences pat s'
  end.

(** [const o = {}; o.self = o] *)
Definition self_referential : heap := [plain [(KString "self", VObject 0)]].

(** ** Reading the markup

    A reader of the fragments [argsToHtml] writes, after the tokenizer of
    HTML: [<] opens a tag, [>] closes it, and inside a tag a double quote
    after [=] opens an attribute value that only the next double quote closes.
    [style_attrs] lists the values of the [style] attributes met, in order:
    one for each container that bears a style. *)
Inductive scan_mode :=
  | InText
  | InTag (name : string)
  | AfterEquals (name : string)
  | InValue (name val : string).

Definition scan_step (m : scan_mode) (c : ascii) : scan_mode * list string :=
  match m with
  | InText => (if ascii_eqb c "<" then InTag "" else InText, [])
  | InTag name =>
      if ascii_eqb c ">" then (InText, [])
      else if ascii_eqb c " " then (InTag "", [])
      else if ascii_eqb c "=" then (AfterEquals name, [])
      else (InTag (name +:+ String c ""), [])
  | AfterEquals name =>
      if ascii_eqb c DQc then (InValue name "", [])
      else if ascii_eqb c ">" then (InText, [])
      else (InTag "", [])
  | InValue name val =>
      if ascii_eqb c DQc
      then (InTag "", if String.eqb name "style" then [val] else [])
      else (InValue name (val +:+ String c ""), [])
  end.

Fixpoint style_attrs_from (m : scan_mode) (s : string) : list string :=
  match s with
  | EmptyString => []
  | String c s' =>
      (scan_step m c).2 ++ style_attrs_from (scan_step m c).1 s'
  end.

Definition style_attrs (s : string) : list string := style_attrs_from InText s.

(** The mode reached and the values met after reading [s] *)
Fixpoint scan_run (m : scan_mode) (s : string) : scan_mode * list string :=
  match s with
  | EmptyString => (m, [])
  | String c s' =>
      let '(m1, out1) := scan_step m c in
      let '(m2, out2) := scan_run m1 s' in
      (m2, out1 ++ out2)
  end.

(** No double quote and no angle bracket: nothing that ends an attribute
    value or a tag *)
Definition attr_safe_char (c : ascii) : bool :=
  negb (ascii_eqb c DQc) && negb (ascii_eqb c "<") && negb (ascii_eqb c ">").

Definition attr_safe (s : string) : bool := str_forallb attr_safe_char s.

(** Text that opens no tag and holds no specifier *)
Definition plain_text (s : string) : bool :=
  str_forallb (λ c, negb (ascii_eqb c "<") && negb (ascii_eqb c "%")) s.

Definition no_lt (s : string) : bool :=
  str_forallb (λ c, negb (ascii_eqb c "<")) s.

Definition no_dq (s : string) : bool :=
  str_forallb (λ c, negb (ascii_eqb c DQc)) s.

(** Whether [p] is a prefix of a text that starts with [lit], when the
    characters of [lit] decide it *)
Fixpoint prefix_known (p lit : string) : option bool :=
  match p with
  | EmptyString => Some true
  | String a p' =>
      match lit with
      | EmptyString => None
      | String b lit' => if ascii_eqb a b then prefix_known p' lit' else Some false
      end
  end.

(** What [escapeHtml] does to one character *)
Definition escape_html_char (c : ascii) : string :=
  if ascii_eqb c "&" then "&amp;"
  else if ascii_eqb c DQc then "&quot;"
  else if ascii_eqb c "<" then "&lt;"
  else if ascii_eqb c ">" then "&gt;"
  else String c "".

Fixpoint str_flat_map (f : ascii → string) (s : string) : string :=
  match s with
  | EmptyString => ""
  | String c s' => f c +:+ str_flat_map f s'
  end.

(** The final step of [argsToHtml] on a text *)
Definition nl_to_br (s : string) : string := replaceAll NL ("<br/>" +:+ NL) s.

(** ** Templates with several [%c]

    A template of text pieces with a [%c] before each piece but the first,
    what the replacement makes of it, and markup as a sequence of containers:
    the style of each, if it bears one, and its text. *)
Fixpoint styled_template (texts : list string) : string :=
  match texts with
  | [] => ""
  | t :: texts' => "%c" +:+ t +:+ styled_template texts'
  end.

Fixpoint styled_html (pieces : list (string * string)) : string :=
  match pieces with
  | [] => ""
  | (e, t) :: pieces' => style_open e +:+ t +:+ styled_html pieces'
  end.

Definition container : Type := option string * string.

Definition open_tag (style : option string) : string :=
  match style with
  | None => "<span>"
  | Some e => "<span style=" +:+ DQ +:+ e +:+ DQ +:+ ">"
  end.

Definition render_container (c : container) : string :=
  open_tag c.1 +:+ c.2 +:+ "</span>".

Fixpoint render (cs : list container) : string :=
  match cs with
  | [] => ""
  | c :: cs' => render_container c +:+ render cs'
  end.

Definition styles (cs : list container) : list string := omap fst cs.

(** The two entries of [replaceTable], on containers: an empty style is
    dropped from its container, and a container without style and without
    text is dropped altogether. *)
Definition unstyle_empty (c : container) : container :=
  match c.1 with
  | Some "" => (None, c.2)
  | _ => c
  end.

Definition is_bare_empty (c : container) : bool :=
  match c with
  | (None, "") => true
  | _ => false
  end.

Definition drop_bare_empty (cs : list container) : list container :=
  filter (λ c, is_bare_empty c = false) cs.

(** The containers [argsToHtml] leaves for the text [t0] followed by the
    styled pieces *)
Definition containers_of (t0 : string) (pieces : list (string * string))
    : list container :=
  drop_bare_empty
    (unstyle_empty <$> ((None, t0) :: (prod_map Some id <$> pieces))).

Definition well_formed (c : container) : Prop :=
  no_lt c.2 = true ∧ ∀ e, c.1 = Some e → attr_safe e = true.

(** ** Heaps whose conversions come back

    [toStr] stands for the [toString] and [valueOf] an object carries: it
    returns, throws, or does not come back. *)
Definition toString_terminates (h : heap) : bool :=
  forallb (λ o, terminates (toStr o)) h.

(** An outcome that is a value, or the [RangeError] of an invalid date *)
Definition date_only {A} (h : heap) (r : result A) : Prop :=
  match r with
  | Ok _ => True
  | Throw e => e = RangeError ∧ has_invalid_date h = true
  | OutOfFuel => False
  end.

(** Text without [%] *)
Definition no_percent (s : string) : bool :=
  str_forallb (λ c, negb (ascii_eqb c "%")) s.

(** The text of an argument left over after the template, in [formatArgs] *)
Definition rest_text (h : heap) (arg : value) : result string :=
  match error_stack h arg with
  | Some stack => Ok stack
  | None => if is_null_or_object h arg then json_or_String h arg else String_ h arg
  end.

(** The state one argument further *)
Definition bump (st : format_state) : format_state :=
  mkFormat (output st) (S (fmtIndex st)).

(** ** The buffers between two states of an instance *)
Definition grows (vc vc' : VirtualConsole) : Prop :=
  String.prefix (outputs vc) (outputs vc') = true ∧
  String.prefix (outputsHtml vc) (outputsHtml vc') = true ∧
  options vc' = options vc ∧
  base_methods vc' = base_methods vc ∧
  (recordOutput (options vc) = false →
   outputs vc' = outputs vc ∧ outputsHtml vc' = outputsHtml vc).

(** ** Runs in flight

    The resumption of a suspended run, on the cell it finds; a run whose
    promise never settles is never resumed. *)
Definition finish (st : Browser.run_state) (c : option instance) : option instance :=
  match st with
  | Browser.Suspended previousConsole (Some s) =>
      (Browser.consoleReflectRun_resume previousConsole s c).1
  | _ => c
  end.

(** ** Reading an escaped text

    The decoding of the four entities [escapeHtml] writes, as a reader of
    markup does it; [skip] counts the characters of an entity that remain to
    be passed over. *)
Fixpoint unescape_from (skip : nat) (s : string) : string :=
  match s with
  | EmptyString => ""
  | String c s' =>
      match skip with
      | S k => unescape_from k s'
      | 0 =>
          if String.prefix "&amp;" s then String "&" (unescape_from 4 s')
          else if String.prefix "&quot;" s then String DQc (unescape_from 5 s')
          else if String.prefix "&lt;" s then String "<" (unescape_from 3 s')
          else if String.prefix "&gt;" s then String ">" (unescape_from 3 s')
          else String c (unescape_from 0 s')
      end
  end.

Definition unescapeHtml (s : string) : string := unescape_from 0 s.

(** ** The identifiers of [scan]

    The identifiers handed out are [1], [2], ... up to [idCounter - 1], each
    to one object. *)
Definition ids_numbered (st : scan_state) : Prop :=
  idCounter st = S (size (circularIds st)) ∧
  (∀ l n, circularIds st !! l = Some n → 1 ≤ n ∧ n < idCounter st) ∧
  (∀ n, 1 ≤ n → n < idCounter st → ∃ l, circularIds st !! l = Some n) ∧
  (∀ l1 l2 n, circularIds st !! l1 = Some n → circularIds st !! l2 = Some n →
     l1 = l2).

(** ** Heaps without cycle

    Every property that holds an object leads to an object of lower rank;
    an object may still be reached by several paths. *)
Definition descends (rank : loc → nat) (l : loc) (o : object) : bool :=
  forallb (λ kv : key * value,
             match kv.2 with
             | VObject l' => rank l' <? rank l
             | _ => true
             end) (props o).

Definition ranked (rank : loc → nat) (h : heap) : bool :=
  forallb id (imap (descends rank) h).

(** [{ a: shared, b: shared }] with [shared = { x: 1 }] *)
Definition shared_twice : heap :=
  [plain [(KString "a", VObject 1); (KString "b", VObject 1)];
   plain [(KString "x", VNumber (Dec false 1 0))]].

(** ** The ends of a line *)
Definition first_char (s : string) : option ascii :=
  match s with
  | String c _ => Some c
  | EmptyString => None
  end.

Fixpoint last_char (s : string) : option ascii :=
  match s with
  | EmptyString => None
  | String c s' =>
      match s' with
      | EmptyString => Some c
      | _ => last_char s'
      end
  end.

(** No white space at either end *)
Definition no_space_at_ends (s : string) : bool :=
  match first_char s, last_char s with
  | Some a, Some b => negb (is_space a) && negb (is_space b)
  | _, _ => true
  end.

(** ** The registry of resize listeners

    A stream carries the listener of its [listenerInfo] and no other; a
    registered [listenerInfo] has a virtual stream; two streams never share
    one. *)
Definition registry_ok (r : Node.registry) : Prop :=
  (∀ s, Node.listeners_of r s
        = match Node.streamResizeListeners r !! s with
          | Some i => [i]
          | None => []
          end) ∧
  (∀ s i, Node.streamResizeListeners r !! s = Some i →
          i < Node.next_info r ∧ Node.refs_of r i ≠ ∅) ∧
  (∀ s1 s2 i, Node.streamResizeListeners r !! s1 = Some i →
              Node.streamResizeListeners r !! s2 = Some i → s1 = s2).

(** ** Scanning a template

    Whether the scan of the regular expression over [s] ends on a [%] that
    no match has taken: a specifier character put after [s] would pair with
    it. *)
Fixpoint dangling (spec : ascii → bool) (s : string) : bool :=
  match s with
  | EmptyString => false
  | String c tl =>
      match tl with
      | String d tl' =>
          if ascii_eqb c "%" && spec d then dangling spec tl'
          else dangling spec tl
      | EmptyString => ascii_eqb c "%"
      end
  end.

(** The matches of the scan over [s], [%%] apart: each of them takes an
    argument when one is left. *)
Fixpoint consuming (spec : ascii → bool) (s : string) : nat :=
  match s with
  | EmptyString => 0
  | String c tl =>
      match tl with
      | String d tl' =>
          if ascii_eqb c "%" && spec d
          then (if ascii_eqb d "%" then 0 else 1) + consuming spec tl'
          else consuming spec tl
      | EmptyString => 0
      end
  end.

(** ** A converter that drops control sequences

    [ansi_up] takes out of its input every control sequence [ESC [ ...] and
    interprets those that end in [m] and have no intermediate byte, the
    colours; the others leave no trace.  [csi_ansi] stands for it on texts
    whose control sequences are of the second kind and have no parameter:
    [ESC [], at most one intermediate byte (code units 32 to 47) and a final
    byte (code units 64 to 126). *)
Definition is_intermediate (c : ascii) : bool :=
  let n := nat_of_ascii c in (32 <=? n) && (n <=? 47).

Definition is_final (c : ascii) : bool :=
  let n := nat_of_ascii c in (64 <=? n) && (n <=? 126).

Fixpoint drop_csi (s : string) : string :=
  match s with
  | EmptyString => ""
  | String c tl =>
      match tl with
      | String b (String i tl2) =>
          if ascii_eqb c (ascii_of_nat 27) && ascii_eqb b "[" then
            if is_final i && negb (ascii_eqb i "m") then drop_csi tl2
            else
              match tl2 with
              | String f rest =>
                  if is_intermediate i && is_final f then drop_csi rest
                  else String c (drop_csi tl)
              | EmptyString => String c (drop_csi tl)
              end
          else String c (drop_csi tl)
      | _ => String c (drop_csi tl)
      end
  end.

Definition csi_ansi : AnsiUp := λ s, escape_txt_for_html (drop_csi s).

(** ** The markup after the replacement

    What [argsToHtml] does to the markup [html.replace] returned when no
    argument is left to append: the outer container, the two entries of
    [replaceTable], the separator, [trim] and the line breaks. *)
Definition finish_html (hasStyle : bool) (html : string) : string :=
  let html := if hasStyle then "<span>" +:+ html +:+ "</span>" else html in
  let html := replaceAll empty_style_span "<span>" html in
  let html := replaceAll "<span></span>" "" html in
  replaceAll NL ("<br/>" +:+ NL) (trim (html +:+ " " +:+ "")).

(** * Strings: basic facts *)

Lemma str_app_cons (c : ascii) (s t : string) :
  String c s +:+ t = String c (s +:+ t).
Proof. reflexivity. Qed.

Lemma str_app_nil_l (s : string) : "" +:+ s = s.
Proof. reflexivity. Qed.

Lemma str_app_nil_r (s : string) : s +:+ "" = s.
Proof. induction s as [|c s IH]; [done|]. by rewrite str_app_cons, IH. Qed.

Lemma str_app_assoc (s t u : string) : (s +:+ t) +:+ u = s +:+ (t +:+ u).
Proof. induction s as [|c s IH]; [done|]. by rewrite !str_app_cons, IH. Qed.

Lemma ascii_eqb_neq (a b : ascii) : ascii_eqb a b = false ↔ a ≠ b.
Proof. apply Ascii.eqb_neq. Qed.

(** Induction on a string two characters at a time *)
Lemma string_ind2 (P : string → Prop) :
  P "" → (∀ c, P (String c "")) →
  (∀ c d s, P s → P (String d s) → P (String c (String d s))) →
  ∀ s, P s.
Proof.
  intros H0 H1 H2 s.
  assert (P s ∧ ∀ c, P (String c s)) as [? _]; [|done].
  induction s as [|d s [IH1 IH2]]; [by split|].
  split; [apply IH2|]. intros c. by apply H2.
Qed.

(** ** The Node calls on idle streams *)

Lemma stream_of_idle (stderr : bool) : Node.stream_of Node.idle_streams stderr = Node.idle.
Proof. by destruct stderr. Qed.

Lemma node_call_idle `{!AnsiUp} `{!NodeFormat} h vc m args :
  Node.call h vc m args
  = match intercepted h (options vc) (Node.method_name m) args with
    | Some (f, e) => Ok (vc, [HandlerCall f e])
    | None =>
        vc ← (if recordOutput (options vc) then
                html ← argsToHtml h args;
                Ok (set_buffers (outputs vc)
                                (outputsHtml vc +:+ html +:+ "<br/>" +:+ NL) vc)
              else Ok vc);
        if negb (realConsoleOutput (options vc)) || recordOutput (options vc)
        then Ok (Node.stream_write vc (Node.to_stderr m) (node_format h args +:+ NL))
        else if bool_decide (Node.method_name m ∈ base_methods vc)
        then Ok (set_fresh None vc, [BaseCall (Node.method_name m) args])
        else Throw TypeError
    end.
Proof.
  unfold Node.call, Node.call_on.
  destruct (intercepted h (options vc) (Node.method_name m) args) as [[f e]|]; [done|].
  destruct (if recordOutput (options vc) then _ else _) as [vc1| |]; try done.
  cbn [mbind result_bind].
  destruct (negb (realConsoleOutput (options vc1)) || recordOutput (options vc1)).
  - unfold Node.originalMethod, Node.Writable_write. rewrite stream_of_idle.
    cbn [Node.writing Node.idle].
    by destruct (Node.stream_write vc1 _ _) as [vc2 evs2].
  - by case_bool_decide.
Qed.

(** Without pass-through every write is complete when [write] returns: the
    streams stay idle. *)
Lemma Writable_write_idle vc stderr chunk :
  realConsoleOutput (options vc) = false →
  Node.Writable_write vc Node.idle stderr chunk
  = ((Node.stream_write vc stderr chunk).1, Node.idle,
     (Node.stream_write vc stderr chunk).2).
Proof.
  intros Hreal. unfold Node.Writable_write. cbn [Node.writing Node.idle Node.buffered].
  destruct (Node.stream_write vc stderr chunk) as [vc' evs]. by rewrite Hreal.
Qed.

Lemma stream_write_options vc stderr chunk :
  options (Node.stream_write vc stderr chunk).1 = options vc.
Proof.
  destruct vc as [o oh op bm fr]. unfold Node.stream_write. simpl.
  by destruct (recordOutput op).
Qed.

Lemma node_freshLine_idle `{!AnsiUp} `{!NodeFormat} h vc id args :
  realConsoleOutput (options vc) = false →
  Node.freshLine h vc id args
  = (let '(vc, evs0) :=
       if supportsAnsi (options vc)
          && bool_decide (loggedFreshLineId vc = Some id)
       then Node.stream_write vc false Node.overwrite_line
       else (vc, []) in
     '(vc, evs) ← Node.call h vc Node.log args;
     Ok (set_fresh (Some id) vc, evs0 ++ evs)).
Proof.
  intros Hreal. unfold Node.freshLine, Node.freshLine_on, Node.call.
  destruct (supportsAnsi (options vc) && bool_decide (loggedFreshLineId vc = Some id)).
  - change (Node._stdout Node.idle_streams) with Node.idle.
    rewrite (Writable_write_idle _ _ _ Hreal).
    destruct (Node.stream_write vc false Node.overwrite_line) as [vc0 evs0].
    cbn [fst snd]. change (Node.set_stream Node.idle_streams false Node.idle)
      with Node.idle_streams.
    destruct (Node.call_on h vc0 Node.idle_streams Node.log args)
      as [[[vc1 ss1] evs1]| |]; done.
  - destruct (Node.call_on h vc Node.idle_streams Node.log args)
      as [[[vc1 ss1] evs1]| |]; done.
Qed.

(** * Properties of the capturing console and of the router *)

(** ** clear *)

(** C9: [clear()] empties both buffers and resets the identifier of the last
    overwritable line, whatever the state before; it calls the [clear] of the
    base console exactly when pass-through is enabled; a second [clear()]
    leaves the state as the first left it, and completes as the first did. *)
Theorem clear_resets_and_is_idempotent (vc : VirtualConsole) :
  outputs (clear vc).1 = "" ∧
  outputsHtml (clear vc).1 = "" ∧
  loggedFreshLineId (clear vc).1 = None ∧
  options (clear vc).1 = options vc ∧
  base_methods (clear vc).1 = base_methods vc ∧
  ("clear" ∈ base_methods vc →
   (clear vc).2 = Ok (if realConsoleOutput (options vc) then [BaseClear] else [])) ∧
  (realConsoleOutput (options vc) = false → (clear vc).2 = Ok []) ∧
  clear (clear vc).1 = clear vc.
Proof.
  destruct vc as [o oh op bm fr]. unfold clear. simpl. split_and!; try done.
  - intros Hc. rewrite bool_decide_true by done. by destruct (realConsoleOutput op).
  - by intros ->.
Qed.

Lemma clear_resets_and_is_idempotent_witness :
  (clear (mkConsole "a" "a<br/>" recording_pass_through console_methods
            (Some "id"))).2
  = Ok [BaseClear].
Proof.
  apply (clear_resets_and_is_idempotent
           (mkConsole "a" "a<br/>" recording_pass_through console_methods
              (Some "id"))).
  unfold console_methods. simpl. set_solver.
Defined.

(** ** The error interceptor *)

Lemma intercepted_Some h o method args f a :
  intercepted h o method args = Some (f, a) →
  method = "error" ∧ error_handler o = Some f ∧ args = [a] ∧ is_Error h a = true.
Proof.
  unfold intercepted. destruct (String.eqb method "error") eqn:Hm; [|done].
  apply String.eqb_eq in Hm.
  destruct (error_handler o) as [g|]; [|done].
  destruct args as [|x [|y args]]; try done.
  destruct (is_Error h x) eqn:He; [|done].
  intros [= -> ->]. done.
Qed.

Lemma intercepted_error h o f a :
  error_handler o = Some f → is_Error h a = true →
  intercepted h o "error" [a] = Some (f, a).
Proof. intros Hf He. unfold intercepted. simpl. by rewrite Hf, He. Qed.

Lemma browser_call_events `{!AnsiUp} h vc method args vc' evs :
  Browser.call h vc method args = Ok (vc', evs) →
  intercepted h (options vc) method args = None →
  evs = (if realConsoleOutput (options vc) then [BaseCall method args] else []).
Proof.
  unfold Browser.call. intros Hc Hi. rewrite Hi in Hc.
  destruct (negb (Browser.installed vc method)); [done|].
  destruct vc as [o oh op bm fr]. simpl in *.
  destruct (recordOutput op); simpl in Hc.
  - destruct (formatArgs h args); try done. simpl in Hc.
    destruct (argsToHtml h args); try done. simpl in Hc. by injection Hc.
  - by injection Hc.
Qed.

Lemma node_call_events `{!AnsiUp} `{!NodeFormat} h vc m args vc' evs :
  Node.call h vc m args = Ok (vc', evs) →
  intercepted h (options vc) (Node.method_name m) args = None →
  evs = (if realConsoleOutput (options vc) then
           if recordOutput (options vc)
           then [StreamWrite (Node.to_stderr m) (node_format h args +:+ NL)]
           else [BaseCall (Node.method_name m) args]
         else []).
Proof.
  rewrite node_call_idle. intros Hc Hi. rewrite Hi in Hc.
  destruct vc as [o oh op bm fr]. simpl in *.
  destruct op as [real rec ansi eh]. simpl in *.
  destruct rec; simpl in Hc.
  - destruct (argsToHtml h args); try done. simpl in Hc.
    rewrite orb_true_r in Hc. injection Hc as <- <-. simpl. by destruct real.
  - destruct real; simpl in Hc; [|by injection Hc].
    case_bool_decide; [by injection Hc|done].
Qed.

(** C6: with an error handler configured, [error] called with exactly one
    argument that is an [Error] calls the handler with it and returns, the
    instance and the base console untouched; a call of another method, with
    another number of arguments or with a single argument that is no [Error]
    never reaches the handler.  Both implementations. *)
Theorem error_handler_intercepts_exactly `{!AnsiUp} `{!NodeFormat}
    (h : heap) (vc : VirtualConsole) :
  (∀ f a, error_handler (options vc) = Some f → is_Error h a = true →
     (Browser.installed vc "error" = true →
      Browser.call h vc "error" [a] = Ok (vc, [HandlerCall f a])) ∧
     Node.call h vc Node.error [a] = Ok (vc, [HandlerCall f a])) ∧
  (∀ method args vc' evs,
     method ≠ "error" ∨ length args ≠ 1 ∨ (∃ a, args = [a] ∧ is_Error h a = false) →
     Browser.call h vc method args = Ok (vc', evs) →
     forallb (λ e, negb (is_HandlerCall e)) evs = true) ∧
  (∀ m args vc' evs,
     m ≠ Node.error ∨ length args ≠ 1 ∨ (∃ a, args = [a] ∧ is_Error h a = false) →
     Node.call h vc m args = Ok (vc', evs) →
     forallb (λ e, negb (is_HandlerCall e)) evs = true).
Proof.
  assert (Hnone : ∀ method args,
    method ≠ "error" ∨ length args ≠ 1 ∨ (∃ a, args = [a] ∧ is_Error h a = false) →
    intercepted h (options vc) method args = None).
  { intros method args Hcase.
    destruct (intercepted h (options vc) method args) as [[f a]|] eqn:Hi; [|done].
    apply intercepted_Some in Hi as (-> & _ & -> & He).
    destruct Hcase as [?|[?|(b & [= <-] & Hb)]]; try done. congruence. }
  split; [|split].
  - intros f a Hf He. split.
    + intros Hinst. unfold Browser.call.
      by rewrite Hinst, (intercepted_error _ _ _ _ Hf He).
    + rewrite node_call_idle. simpl. by rewrite (intercepted_error _ _ _ _ Hf He).
  - intros method args vc' evs Hcase Hc.
    rewrite (browser_call_events _ _ _ _ _ _ Hc (Hnone _ _ Hcase)).
    by destruct (realConsoleOutput (options vc)).
  - intros m args vc' evs Hcase Hc.
    assert (Hcase' : Node.method_name m ≠ "error" ∨ length args ≠ 1
                     ∨ (∃ a, args = [a] ∧ is_Error h a = false)).
    { destruct Hcase as [Hm|Hr]; [left|by right]. by destruct m. }
    rewrite (node_call_events _ _ _ _ _ _ Hc (Hnone _ _ Hcase')).
    by destruct (realConsoleOutput (options vc)), (recordOutput (options vc)).
Qed.

Lemma error_handler_intercepts_exactly_witness :
  Browser.call (H := text_only_ansi) sample_heap
    (Browser.new_VirtualConsole console_methods handling) "error" [VObject 0]
  = Ok (Browser.new_VirtualConsole console_methods handling, [HandlerCall 7 (VObject 0)])
  ∧ Node.call (H := text_only_ansi) (H0 := plain_node_format) sample_heap
      (mkConsole "" "" handling console_methods None) Node.error [VObject 0]
    = Ok (mkConsole "" "" handling console_methods None, [HandlerCall 7 (VObject 0)])
  ∧ forallb (λ e, negb (is_HandlerCall e)) [] = true.
Proof.
  pose proof (error_handler_intercepts_exactly (H := text_only_ansi)
                (H0 := plain_node_format) sample_heap
                (Browser.new_VirtualConsole console_methods handling))
    as (Hyes & Hno & _).
  destruct (Hyes 7 (VObject 0) eq_refl eq_refl) as [Hb Hn].
  split; [exact (Hb eq_refl)|]. split; [exact Hn|].
  apply (Hno "log" [VObject 0]
           (set_buffers ("Error: boom" +:+ NL) ("Error: boom<br/>" +:+ NL)
              (Browser.new_VirtualConsole console_methods handling)) []).
  - left. done.
  - vm_compute. reflexivity.
Defined.

(** ** Pass-through *)

(** C5, as the claim states it, fails in [node.mjs]: with pass-through and
    recording both enabled, [log('hi')] does not call [log] of the base console;
    Node's own [Console] formats the call and the text goes to the output
    stream of the base console. *)
Lemma node_pass_through_writes_formatted_text :
  Node.call (H := text_only_ansi) (H0 := plain_node_format) []
    (mkConsole "" "" recording_pass_through console_methods None)
    Node.log [VString "hi"]
  = Ok (mkConsole ("hi" +:+ NL) ("hi<br/>" +:+ NL) recording_pass_through
          console_methods None,
        [StreamWrite false ("hi" +:+ NL)]).
Proof. vm_compute. reflexivity. Qed.

Lemma stream_of_set_stream ss stderr s :
  Node.stream_of (Node.set_stream ss stderr s) stderr = s.
Proof. by destruct stderr. Qed.

(** C5 (amended): a call that is not handed to the error handler and that
    returns, on an instance with pass-through enabled, makes exactly one call
    outside in [browser.mjs], in every configuration: the method of the base
    console with the original arguments.  In [node.mjs] the same holds when
    recording is disabled.  With recording enabled the method of the base
    console is not called: the text formatted by Node's [Console] goes to the
    virtual stream, which writes it to the stream of the base console at once
    when no earlier write awaits the callback of that stream, and otherwise
    keeps it; each callback then writes the oldest chunk kept. *)
Theorem pass_through_events `{!AnsiUp} `{!NodeFormat}
    (h : heap) (vc : VirtualConsole) (args : list value) :
  realConsoleOutput (options vc) = true →
  (∀ method vc' evs,
     intercepted h (options vc) method args = None →
     Browser.call h vc method args = Ok (vc', evs) →
     evs = [BaseCall method args]) ∧
  (∀ m ss vc' ss' evs,
     intercepted h (options vc) (Node.method_name m) args = None →
     Node.call_on h vc ss m args = Ok (vc', ss', evs) →
     if recordOutput (options vc) then
       let s := Node.stream_of ss (Node.to_stderr m) in
       let chunk := node_format h args +:+ NL in
       evs = (if Node.writing s then []
              else [StreamWrite (Node.to_stderr m) chunk]) ∧
       Node.stream_of ss' (Node.to_stderr m)
       = Node.mkStream true (if Node.writing s then Node.buffered s ++ [chunk]
                             else Node.buffered s)
     else evs = [BaseCall (Node.method_name m) args] ∧ ss' = ss) ∧
  (∀ s stderr chunk rest,
     Node.writing s = true → Node.buffered s = chunk :: rest →
     Node.Writable_onwrite vc s stderr
     = ((Node.stream_write vc stderr chunk).1, Node.mkStream true rest,
        [StreamWrite stderr chunk])).
Proof.
  intros Hreal. split_and!.
  - intros method vc' evs Hi Hc.
    rewrite (browser_call_events _ _ _ _ _ _ Hc Hi). by rewrite Hreal.
  - intros m ss vc' ss' evs Hi. unfold Node.call_on. rewrite Hi.
    destruct vc as [o oh op bm fr]. simpl in *.
    destruct op as [real rec ansi eh]. simpl in *. subst real.
    destruct rec; simpl.
    + destruct (argsToHtml h args); try done. simpl.
      unfold Node.originalMethod, Node.Writable_write.
      destruct (Node.writing (Node.stream_of ss (Node.to_stderr m))); simpl.
      * intros [= <- <- <-]. by rewrite stream_of_set_stream.
      * intros [= <- <- <-]. by rewrite stream_of_set_stream.
    + case_bool_decide; [|done]. by intros [= <- <- <-].
  - intros s stderr chunk rest Hw Hb. unfold Node.Writable_onwrite.
    rewrite Hw, Hb. simpl.
    destruct vc as [o oh op bm fr]. simpl in *.
    destruct op as [real rec ansi eh]. simpl in *. subst real.
    by destruct rec.
Qed.

Lemma pass_through_events_witness :
  let vc := mkConsole "" "" recording_pass_through console_methods None in
  let args := [VString "%s"; VNumber (Dec false 1 0)] in
  let busy := Node.mkStreams Node.idle (Node.mkStream true ["0" +:+ NL]) in
  ∃ vc1 evs1 vc2 ss2 evs2 vc3 ss3 evs3,
    Browser.call (H := text_only_ansi) [] vc "warn" args = Ok (vc1, evs1)
    ∧ evs1 = [BaseCall "warn" args]
    ∧ Node.call_on (H := text_only_ansi) (H0 := plain_node_format) [] vc
        Node.idle_streams Node.warn args = Ok (vc2, ss2, evs2)
    ∧ evs2 = [StreamWrite true ("1" +:+ NL)]
    ∧ Node._stderr ss2 = Node.mkStream true []
    ∧ Node.call_on (H := text_only_ansi) (H0 := plain_node_format) [] vc
        busy Node.warn args = Ok (vc3, ss3, evs3)
    ∧ evs3 = []
    ∧ Node._stderr ss3 = Node.mkStream true ["0" +:+ NL; "1" +:+ NL]
    ∧ Node.Writable_onwrite vc3 (Node._stderr ss3) true
      = (mkConsole ("0" +:+ NL) ("1<br/>" +:+ NL) recording_pass_through
           console_methods None,
         Node.mkStream true ["1" +:+ NL], [StreamWrite true ("0" +:+ NL)]).
Proof.
  intros vc args busy.
  pose proof (pass_through_events (H := text_only_ansi) (H0 := plain_node_format)
                [] vc args eq_refl) as (Hb & Hn & Hw).
  do 8 eexists. split; [by vm_compute|]. split.
  { eapply (Hb "warn"); [reflexivity|]. by vm_compute. }
  split; [by vm_compute|].
  pose proof (Hn Node.warn Node.idle_streams _ _ _ eq_refl ltac:(by vm_compute))
    as [He Hs].
  split; [exact He|]. split; [exact Hs|].
  split; [by vm_compute|].
  pose proof (Hn Node.warn busy _ _ _ eq_refl ltac:(by vm_compute)) as [He3 Hs3].
  split; [exact He3|]. split; [exact Hs3|].
  vm_compute. reflexivity.
Defined.

(** ** Run-scoped activation *)

(** C2: [consoleReflectRun(v, fn)] calls [fn] with [v] as the active instance;
    when [fn] has completed (it threw, or what it returned has settled) the
    binding is the one found at the call, whatever [fn] and other code did to
    it meanwhile, and the caller gets the result or the error of [fn] as it
    is: a value [fn] returned, the settlement of a promise it returned, the
    exception it threw.  In [browser.mjs] the caller holds a promise, which
    never settles when the promise [fn] returned never does, and the binding
    is then not restored; in [node.mjs] the call is synchronous.
    [hookAsyncContext(fn)] is that run. *)
Theorem consoleReflectRun_restores_and_forwards
    (v : instance) (fn : callee) (env : option instance → option instance)
    (prior : option instance) :
  Browser.consoleReflect (Browser.consoleReflectSet v prior) = v ∧
  Node.consoleReflect (Node.consoleReflectSet v prior) = v ∧
  (∀ x c, fn (Some v) = (Returns (Plain x), c) →
     Browser.consoleReflectRun v fn env prior = (prior, Some (Fulfilled x)) ∧
     Node.consoleReflectRun v fn prior = (prior, Returns (Plain x))) ∧
  (∀ s c, fn (Some v) = (Returns (Promise (Some s)), c) →
     Browser.consoleReflectRun v fn env prior = (prior, Some s) ∧
     Node.consoleReflectRun v fn prior = (prior, Returns (Promise (Some s)))) ∧
  (∀ c, fn (Some v) = (Returns (Promise None), c) →
     Browser.consoleReflectRun v fn env prior = (env c, None) ∧
     Node.consoleReflectRun v fn prior = (prior, Returns (Promise None))) ∧
  (∀ e c, fn (Some v) = (Throws e, c) →
     Browser.consoleReflectRun v fn env prior = (prior, Some (Rejected e)) ∧
     Node.consoleReflectRun v fn prior = (prior, Throws e)) ∧
  Browser.hookAsyncContext v (Some fn) env prior
  = Browser.consoleReflectRun v fn env prior ∧
  Node.hookAsyncContext v (Some fn) prior
  = ((Node.consoleReflectRun v fn prior).1,
     Some (Node.consoleReflectRun v fn prior).2).
Proof.
  unfold Browser.consoleReflectRun, Browser.consoleReflectRun_start,
    Browser.consoleReflectSet, Node.hookAsyncContext, Node.consoleReflectRun,
    Node.AsyncLocalStorage_run.
  split_and!; try done.
  - intros x c Hfn. by rewrite Hfn.
  - intros s c Hfn. by rewrite Hfn.
  - intros c Hfn. by rewrite Hfn.
  - intros e c Hfn. by rewrite Hfn.
  - by destruct (fn (Some v)).
Qed.

(** A callee that rebinds the router to instance 7 and returns a value,
    while other code rebinds it to instance 9: the caller gets the value,
    and the binding is instance 3 again. *)
Lemma consoleReflectRun_restores_and_forwards_witness :
  let fn : callee := λ _, (Returns (Plain (VString "done")), Some 7) in
  Browser.consoleReflectRun 5 fn (λ _, Some 9) (Some 3)
  = (Some 3, Some (Fulfilled (VString "done")))
  ∧ Node.consoleReflectRun 5 fn (Some 3) = (Some 3, Returns (Plain (VString "done"))).
Proof.
  intros fn.
  destruct (consoleReflectRun_restores_and_forwards 5 fn (λ _, Some 9) (Some 3))
    as (_ & _ & Hplain & _).
  exact (Hplain (VString "done") (Some 7) eq_refl).
Defined.

(** ** The global facade *)


Lemma has_property_false (own : gmap string value) (property : string) :
  Browser.has_property own property = false →
  own !! property = None ∧ property ≠ "__proto__".
Proof.
  unfold Browser.has_property. intros [Hown Hproto]%orb_false_iff.
  apply bool_decide_eq_false in Hown, Hproto. split.
  - by apply eq_None_not_Some.
  - intros ->. apply Hproto. unfold Browser.prototype_names. set_solver.
Qed.



(** * Properties of the formatters *)

(** ** Specifiers without argument *)

Lemma emit_emit (st : format_state) (a b : string) :
  emit (emit st a) b = emit st (a +:+ b).
Proof. unfold emit. simpl. by rewrite str_app_assoc. Qed.

Lemma format_match_exhausted h args c st :
  length args ≤ fmtIndex st →
  format_match h args c st
  = Ok (emit st (if ascii_eqb c "%" then "%" else String "%" (String c ""))).
Proof.
  intros Hlen. unfold format_match. destruct (ascii_eqb c "%"); [done|].
  by rewrite (lookup_ge_None_2 _ _ Hlen).
Qed.

Lemma literal_specifiers_cons2 spec c d s :
  literal_specifiers spec (String c (String d s))
  = if ascii_eqb c "%" && spec d then
      (if ascii_eqb d "%" then "%" else String "%" (String d ""))
      +:+ literal_specifiers spec s
    else String c (literal_specifiers spec (String d s)).
Proof. reflexivity. Qed.

Lemma format_loop_cons2 h args c d s st :
  format_loop h args (String c (String d s)) st
  = if ascii_eqb c "%" && plain_specifier d then
      st1 ← format_match h args d st; format_loop h args s st1
    else format_loop h args (String d s) (emit st (String c "")).
Proof. reflexivity. Qed.

Lemma html_replace_cons2 `{!AnsiUp} h args c d s st :
  html_replace h args (String c (String d s)) st
  = if ascii_eqb c "%" && html_specifier d then
      '(piece, st1) ← html_callback h args d st;
      '(rest, st2) ← html_replace h args s st1;
      Ok (piece +:+ rest, st2)
    else
      '(rest, st2) ← html_replace h args (String d s) st;
      Ok (String c rest, st2).
Proof. reflexivity. Qed.

Lemma format_loop_exhausted h args template st :
  length args ≤ fmtIndex st →
  format_loop h args template st
  = Ok (emit st (literal_specifiers plain_specifier template)).
Proof.
  revert st. induction template as [|c|c d s IH1 IH2] using string_ind2;
    intros st Hlen.
  - simpl. unfold emit. by rewrite str_app_nil_r; destruct st.
  - done.
  - rewrite format_loop_cons2, literal_specifiers_cons2.
    destruct (ascii_eqb c "%" && plain_specifier d).
    + rewrite (format_match_exhausted _ _ _ _ Hlen). cbn [mbind result_bind].
      rewrite IH1 by done. by rewrite emit_emit.
    + rewrite IH2 by done. by rewrite emit_emit.
Qed.

(** A template alone: every specifier in it stands as it is. *)
Lemma formatArgs_template_only (h : heap) (template : string) :
  formatArgs h [VString template]
  = Ok (literal_specifiers plain_specifier template).
Proof.
  unfold formatArgs. rewrite format_loop_exhausted by (simpl; lia). done.
Qed.

Lemma html_callback_exhausted `{!AnsiUp} h args c st :
  length args ≤ argIndex st →
  html_callback h args c st
  = Ok (if ascii_eqb c "%" then "%" else String "%" (String c ""), st).
Proof.
  intros Hlen. unfold html_callback. destruct (ascii_eqb c "%"); [done|].
  by rewrite (lookup_ge_None_2 _ _ Hlen).
Qed.

Lemma html_replace_exhausted `{!AnsiUp} h args html st :
  length args ≤ argIndex st →
  html_replace h args html st = Ok (literal_specifiers html_specifier html, st).
Proof.
  intros Hlen. induction html as [|c|c d s IH1 IH2] using string_ind2; [done..|].
  rewrite html_replace_cons2, literal_specifiers_cons2.
  destruct (ascii_eqb c "%" && html_specifier d).
  - rewrite (html_callback_exhausted _ _ _ _ Hlen). cbn [mbind result_bind].
    by rewrite IH1.
  - by rewrite IH2.
Qed.

(** *** What a match takes *)

Lemma format_match_consumes h args d st st1 :
  format_match h args d st = Ok st1 →
  fmtIndex st1
  = if ascii_eqb d "%" then fmtIndex st else
    match args !! fmtIndex st with
    | Some _ => S (fmtIndex st)
    | None => fmtIndex st
    end.
Proof.
  unfold format_match. destruct (ascii_eqb d "%"); [by intros [= <-]|].
  destruct (args !! fmtIndex st) as [arg|]; [|by intros [= <-]].
  unfold parseInt, parseFloat.
  repeat match goal with |- context [if ?b then _ else _] => destruct b end;
    repeat match goal with |- context [?m ≫= _] =>
      match m with
      | String_ _ _ => destruct m
      | ToString _ _ => destruct m
      | json_or_String _ _ => destruct m
      end; simpl
    end;
    try done; by intros [= <-].
Qed.

Lemma html_callback_consumes `{!AnsiUp} h args d st piece st1 :
  html_callback h args d st = Ok (piece, st1) →
  argIndex st1
  = if ascii_eqb d "%" then argIndex st else
    match args !! argIndex st with
    | Some _ => S (argIndex st)
    | None => argIndex st
    end.
Proof.
  unfold html_callback. destruct (ascii_eqb d "%"); [by intros [= <- <-]|].
  destruct (args !! argIndex st) as [arg|]; [|by intros [= <- <-]].
  repeat match goal with |- context [if ?b then _ else _] => destruct b end;
    repeat match goal with |- context [?m ≫= _] =>
      match m with
      | safeString _ _ => destruct m
      | escapeHtml_safeString _ _ => destruct m
      | circularToString _ _ _ => destruct m
      | try_catch _ _ => destruct m
      end; simpl
    end;
    try done; by intros [= <- <-].
Qed.

(** ** A first argument that is no string *)




(** ** Arguments that cannot be converted *)

(** C4 fails in [formatArgs]: [%s] applies [String(arg)] and [%d] applies
    [parseInt(arg)] to the argument itself, and both throw a [TypeError] on
    an object without prototype (the second on a symbol as well); the
    exception leaves [formatArgs] and the console method that called it.
    [argsToHtml] goes through [safeString] and returns on the same
    arguments; it throws a [RangeError] for [%o] with an invalid [Date]. *)
Theorem formatArgs_throws_on_unconvertible_argument :
  formatArgs sample_heap [VString "%s"; VObject 1] = Throw TypeError
  ∧ formatArgs sample_heap [VString "%d"; VSymbol "id"] = Throw TypeError
  ∧ Browser.call (H := text_only_ansi) sample_heap
      (Browser.new_VirtualConsole console_methods recording) "log"
      [VString "%s"; VObject 1] = Throw TypeError
  ∧ argsToHtml (H := text_only_ansi) sample_heap [VString "%s"; VObject 1]
    = Ok "{}"
  ∧ argsToHtml (H := text_only_ansi) sample_heap [VString "%d"; VSymbol "id"]
    = Ok "NaN"
  ∧ argsToHtml (H := text_only_ansi)
      [mkObject (ClassDate None) [] (Ok "Invalid Date")] [VString "%o"; VObject 0]
    = Throw RangeError.
Proof. vm_compute. done. Qed.

(** ** safeString reads a string *)

(** Where [String(arg)] throws, [JSON.stringify(arg)] does not answer
    [undefined]: the second branch of [safeString] returns a string. *)
Lemma JSON_stringify_undefined (h : heap) (arg : value) (gap : string) :
  JSON_stringify h arg gap = Ok None → returns (String_ h arg) = true.
Proof.
  unfold JSON_stringify. destruct arg as [| | | | | | | |l]; try done.
  simpl. destruct (h !! l) as [[cl ps ts]|]; [|done].
  destruct cl as [| | | |[iso|]|]; simpl; try done.
  all: destruct (mapR _ ps); simpl; done.
Qed.

(** ** The structural stringifier terminates *)

Lemma size_below (ws : gset loc) (n : nat) (l : loc) :
  (∀ x, x ∈ ws → x < n) → l < n → l ∉ ws → size ws < n.
Proof.
  intros Hws Hl Hnot.
  assert (Hsub : {[l]} ∪ ws ⊆ set_seq 0 n).
  { intros x Hx. apply elem_of_set_seq. set_unfold. destruct Hx as [->|Hx]; [lia|].
    specialize (Hws x Hx). lia. }
  apply subseteq_size in Hsub.
  rewrite size_union, size_singleton, size_set_seq in Hsub by set_solver. lia.
Qed.

Lemma special_object_cases (h : heap) (l : loc) (o : object) (r : result string) :
  h !! l = Some o → special_object o = Some r →
  (∃ s, r = Ok s) ∨ (r = Throw RangeError ∧ has_invalid_date h = true).
Proof.
  intros Hl Hs. unfold special_object in Hs.
  destruct (oclass o) as [| | | |[iso|]|] eqn:Hc; simplify_eq; eauto.
  right. split; [done|]. apply existsb_exists. exists o. split.
  - apply list_elem_of_In. by eapply list_elem_of_lookup_2.
  - by rewrite Hc.
Qed.

Lemma scan_VObject fuel h l o st :
  h !! l = Some o →
  scan fuel h (VObject l) st
  = if bool_decide (l ∈ walkStack st) then
      match circularIds st !! l with
      | Some _ => Ok st
      | None => Ok (mkScan (<[l := idCounter st]> (circularIds st))
                           (walkStack st) (S (idCounter st)))
      end
    else
      match fuel with
      | 0 => OutOfFuel
      | S fuel' =>
          st2 ← forR (λ kv, scan fuel' h kv.2) (own_keys o)
                  (mkScan (circularIds st) ({[l]} ∪ walkStack st) (idCounter st));
          Ok (mkScan (circularIds st2) (walkStack st2 ∖ {[l]}) (idCounter st2))
      end.
Proof. intros Hl. destruct fuel; simpl; by rewrite Hl. Qed.

Lemma format_special fuel h ids depth l o r cur seen :
  h !! l = Some o → special_object o = Some r →
  format fuel h ids depth (VObject l) cur seen = (s ← r; Ok (s, seen)).
Proof. intros Hl Hs. destruct fuel; simpl; by rewrite Hl, Hs. Qed.

Lemma format_VObject fuel h ids depth l o cur seen :
  h !! l = Some o → special_object o = None →
  format fuel h ids depth (VObject l) cur seen
  = match (if bool_decide (l ∈ seen) then ids !! l else None) with
    | Some n => Ok (circular_marker n, seen)
    | None =>
        if exceeds cur depth then Ok (depth_marker, seen) else
        if bool_decide (own_keys o = []) then
          Ok (ref_prefix (ids !! l)
              +:+ (if is_array_class (oclass o) then "[" else "{")
              +:+ (if is_array_class (oclass o) then "]" else "}"),
              {[l]} ∪ seen)
        else
          match fuel with
          | 0 => OutOfFuel
          | S fuel' =>
              '(content, seen') ←
                mapS (λ kv seen,
                  '(valStr, seen) ← format fuel' h ids depth kv.2 (cur + 1) seen;
                  Ok (repeat_str TAB (cur + 1)
                      +:+ format_key (is_array_class (oclass o)) kv.1 +:+ valStr,
                      seen)) (own_keys o) ({[l]} ∪ seen);
              Ok (ref_prefix (ids !! l)
                  +:+ (if is_array_class (oclass o) then "[" else "{") +:+ NL
                  +:+ join ("," +:+ NL) content +:+ NL
                  +:+ repeat_str TAB cur
                  +:+ (if is_array_class (oclass o) then "]" else "}"),
                  seen' ∖ {[l]})
          end
    end.
Proof. intros Hl Hs. destruct fuel; simpl; by rewrite Hl, Hs. Qed.

(** The keys of one object, given the property for each value *)
Lemma keys_walk_alike (h : heap) depth idsF fuel
    (IH : ∀ v st, (∀ l, l ∈ walkStack st → l < length h) →
                  length h ≤ fuel + size (walkStack st) →
                  walks_alike h depth idsF fuel v st)
    (keys : list (key * value)) :
  ∀ st, (∀ l, l ∈ walkStack st → l < length h) →
    length h ≤ fuel + size (walkStack st) →
    ∃ st', forR (λ kv, scan fuel h kv.2) keys st = Ok st' ∧
           walkStack st' = walkStack st ∧
           circularIds st ⊆ circularIds st' ∧
           (circularIds st' ⊆ idsF →
            ∀ fuel2 cur seen (g : key * value → string → string),
              length h ≤ fuel2 + size (walkStack st) →
              path_inv h (walkStack st) seen →
              format_ok h (walkStack st)
                (mapS (λ kv seen,
                   '(valStr, seen) ← format fuel2 h idsF depth kv.2 cur seen;
                   Ok (g kv valStr, seen)) keys seen)).
Proof.
  induction keys as [|kv keys IHkeys]; intros st Hvalid Hfuel.
  - exists st. split_and!; [done|done|reflexivity|].
    intros _ fuel2 cur seen g _ Hinv. exact Hinv.
  - destruct (IH kv.2 st Hvalid Hfuel) as (sta & Hscan & Hws & Hids & Hfmt).
    destruct (IHkeys sta) as (st' & Hscan' & Hws' & Hids' & Hfmt').
    { by rewrite Hws. } { by rewrite Hws. }
    exists st'. split; [|split; [|split]].
    + simpl. by rewrite Hscan.
    + by rewrite Hws'.
    + by etrans.
    + intros HF fuel2 cur seen g Hfuel2 Hinv. simpl.
      assert (Hsub : circularIds sta ⊆ idsF) by by etrans.
      specialize (Hfmt Hsub fuel2 cur seen Hfuel2 Hinv).
      destruct (format fuel2 h idsF depth kv.2 cur seen) as [[valStr seen1]|e|];
        simpl in *; [|done..].
      rewrite <- Hws in Hfuel2, Hfmt.
      specialize (Hfmt' HF fuel2 cur seen1 g Hfuel2 Hfmt). rewrite Hws in Hfmt'.
      destruct (mapS _ keys seen1) as [[ys seen2]|e|]; simpl in *; done.
Qed.

Lemma walk_alike_step (h : heap) depth idsF fuel
    (IH : ∀ fuel', fuel = S fuel' →
          ∀ v st, (∀ l, l ∈ walkStack st → l < length h) →
                  length h ≤ fuel' + size (walkStack st) →
                  walks_alike h depth idsF fuel' v st) :
  ∀ v st, (∀ l, l ∈ walkStack st → l < length h) →
    length h ≤ fuel + size (walkStack st) →
    walks_alike h depth idsF fuel v st.
Proof.
  intros v st Hvalid Hfuel.
  destruct v as [| | | | | | | |l];
    try (exists st; split_and!; [by destruct fuel|done|reflexivity|];
         intros _ fuel2 cur seen _ Hinv; by destruct fuel2).
  destruct (h !! l) as [o|] eqn:Hl; last first.
  { exists st. split_and!; [by (destruct fuel; simpl; rewrite ?Hl)|done|reflexivity|].
    intros _ fuel2 cur seen _ Hinv. by (destruct fuel2; simpl; rewrite Hl). }
  pose proof (lookup_lt_Some _ _ _ Hl) as Hlt.
  unfold walks_alike. rewrite (scan_VObject _ _ _ _ _ Hl).
  assert (Hspecial : ∀ r fuel2 cur seen ws, special_object o = Some r →
         path_inv h ws seen →
         format_ok h ws (format fuel2 h idsF depth (VObject l) cur seen)).
  { intros r fuel2 cur seen ws Hs Hinv.
    rewrite (format_special _ _ _ _ _ _ _ _ _ Hl Hs).
    destruct (special_object_cases _ _ _ _ Hl Hs) as [[s ->]|[-> ?]]; by simpl. }
  assert (Hmarked : ∀ st', l ∈ walkStack st → is_Some (circularIds st' !! l) →
         circularIds st' ⊆ idsF →
         ∀ fuel2 cur seen, path_inv h (walkStack st) seen →
         format_ok h (walkStack st) (format fuel2 h idsF depth (VObject l) cur seen)).
  { intros st' Hin [n Hn] HF fuel2 cur seen Hinv.
    destruct (special_object o) as [r|] eqn:Hs; [by eapply Hspecial|].
    rewrite (format_VObject _ _ _ _ _ _ _ _ Hl Hs).
    rewrite bool_decide_true by (by apply Hinv).
    by rewrite (lookup_weaken _ _ _ _ Hn HF). }
  case_bool_decide as Hin.
  { destruct (circularIds st !! l) as [n|] eqn:Hn.
    - exists st. split_and!; [done|done|reflexivity|].
      intros HF fuel2 cur seen _ Hinv. by eapply (Hmarked st).
    - eexists. split_and!; [done|done|by apply insert_subseteq|].
      intros HF fuel2 cur seen _ Hinv. simpl in *.
      eapply (Hmarked (mkScan (<[l:=idCounter st]> (circularIds st))
                (walkStack st) (S (idCounter st))) Hin); [|exact HF|exact Hinv].
      simpl. by rewrite lookup_insert_eq. }
  pose proof (size_below _ _ _ Hvalid Hlt Hin) as Hsize.
  destruct fuel as [|fuel]; [lia|].
  destruct (keys_walk_alike h depth idsF fuel (IH fuel eq_refl) (own_keys o)
              (mkScan (circularIds st) ({[l]} ∪ walkStack st) (idCounter st)))
    as (st2 & Hscan & Hws & Hids & Hfmt).
  { simpl. intros x Hx. set_unfold. destruct Hx as [->|Hx]; auto. }
  { simpl. rewrite size_union, size_singleton by set_solver. lia. }
  simpl in *. rewrite Hscan. simpl.
  eexists. split; [done|]. simpl. split; [rewrite Hws; set_solver|].
  split; [done|].
  intros HF fuel2 cur seen Hfuel2 Hinv.
  destruct (special_object o) as [r|] eqn:Hs; [by eapply Hspecial|].
  rewrite (format_VObject _ _ _ _ _ _ _ _ Hl Hs).
  destruct (if bool_decide (l ∈ seen) then idsF !! l else None); [done|].
  destruct (exceeds cur depth); [done|].
  case_bool_decide as Hkeys.
  { simpl. destruct Hinv as [Hsub Hseen]. split; [set_solver|].
    intros x Hx. set_unfold. destruct Hx as [->|Hx]; eauto. }
  destruct fuel2 as [|fuel2]; [lia|].
  assert (Hinv1 : path_inv h ({[l]} ∪ walkStack st) ({[l]} ∪ seen)).
  { destruct Hinv as [Hsub Hseen]. split; [set_solver|].
    intros x Hx. set_unfold. destruct Hx as [->|Hx]; [by left; left|].
    destruct (Hseen x Hx); eauto. }
  specialize (Hfmt HF fuel2 (cur + 1) ({[l]} ∪ seen)
    (λ kv valStr, repeat_str TAB (cur + 1)
       +:+ format_key (is_array_class (oclass o)) kv.1 +:+ valStr)).
  rewrite size_union, size_singleton in Hfmt by set_solver.
  specialize (Hfmt ltac:(lia) Hinv1).
  destruct (mapS _ (own_keys o) ({[l]} ∪ seen)) as [[content seen']|e|];
    simpl in *; [|done..].
  destruct Hfmt as [Hsub Hseen]. split; [set_solver|].
  intros x Hx. set_unfold. destruct Hx as [Hx Hne].
  destruct (Hseen x Hx) as [[->|?]|?]; eauto. done.
Qed.

Lemma scan_format_walk_alike (h : heap) depth idsF fuel :
  ∀ v st, (∀ l, l ∈ walkStack st → l < length h) →
    length h ≤ fuel + size (walkStack st) →
    walks_alike h depth idsF fuel v st.
Proof.
  induction fuel as [|fuel IH]; apply walk_alike_step; intros fuel' Heq;
    [done|by injection Heq as <-].
Qed.

Lemma circularToString_outcome (h : heap) (target : value) (depth : option nat) :
  match circularToString h target depth with
  | Ok _ => True
  | Throw e => e = RangeError ∧ has_invalid_date h = true
  | OutOfFuel => False
  end.
Proof.
  unfold circularToString.
  destruct (scan_format_walk_alike h depth ∅ (length h) target scan_init)
    as (st & Hscan & _); [set_solver|simpl; lia|].
  destruct (scan_format_walk_alike h depth (circularIds st) (length h) target
              scan_init) as (st' & Hscan' & _ & _ & Hfmt); [set_solver|simpl; lia|].
  rewrite Hscan in Hscan'. injection Hscan' as <-. rewrite Hscan. simpl.
  specialize (Hfmt ltac:(reflexivity) (length h) 0 ∅).
  simpl in Hfmt. specialize (Hfmt ltac:(lia) ltac:(split; set_solver)).
  by destruct (format _ _ _ _ _ _ _) as [[s seen]|e|].
Qed.

(** C7: [circularToString] terminates on every heap and every value, cyclic
    or not, and throws only where [toISOString()] does, on an invalid date;
    for [o] with [o.self = o] the text is [<ref *1> { self: [Circular *1] }]:
    one back-reference marker, and the prefix [<ref *1>] in front of the
    object it refers to. *)
Theorem circularToString_terminates_on_cycles
    (h : heap) (target : value) (depth : option nat) :
  terminates (circularToString h target depth) = true ∧
  (has_invalid_date h = false →
   returns (circularToString h target depth) = true) ∧
  circularToString self_referential (VObject 0) None
  = Ok (ref_prefix (Some 1) +:+ "{" +:+ NL +:+ TAB +:+ "self: "
        +:+ circular_marker 1 +:+ NL +:+ "}") ∧
  (∀ s, circularToString self_referential (VObject 0) None = Ok s →
     count_occurrences "[Circular *" s = 1 ∧
     count_occurrences "[Circular *1]" s = 1 ∧
     count_occurrences "<ref *" s = 1 ∧
     String.prefix (colors.cyan +:+ "<ref *1>" +:+ colors.reset +:+ " {") s = true).
Proof.
  pose proof (circularToString_outcome h target depth) as Hout.
  split_and!.
  - by destruct (circularToString h target depth).
  - intros Hdate. destruct (circularToString h target depth); [done| |done].
    destruct Hout as [_ Hd]. congruence.
  - by vm_compute.
  - intros s Hs. vm_compute in Hs. injection Hs as <-. by vm_compute.
Qed.

Lemma circularToString_terminates_on_cycles_witness :
  returns (circularToString self_referential (VObject 0) (Some 3)) = true.
Proof.
  by apply (circularToString_terminates_on_cycles self_referential (VObject 0)
              (Some 3)).
Defined.

(** ** The style argument of [%c] *)

Lemma prefix_cons (a b : ascii) (p s : string) :
  String.prefix (String a p) (String b s)
  = if ascii_eqb a b then String.prefix p s else false.
Proof.
  simpl. destruct (ascii_dec a b) as [->|Hne].
  - unfold ascii_eqb. by rewrite Ascii.eqb_refl.
  - by rewrite (proj2 (ascii_eqb_neq a b) Hne).
Qed.

Lemma prefix_nil (s : string) : String.prefix "" s = true.
Proof. by destruct s. Qed.

Lemma replaceAll_from_cons pat rep c s :
  replaceAll_from pat rep 0 (String c s)
  = if String.prefix pat (String c s)
    then rep +:+ replaceAll_from pat rep (String.length pat - 1) s
    else String c (replaceAll_from pat rep 0 s).
Proof. reflexivity. Qed.

Lemma replaceAll_char (p : ascii) (rep : string) (s : string) :
  replaceAll (String p "") rep s
  = str_flat_map (λ c, if ascii_eqb p c then rep else String c "") s.
Proof.
  unfold replaceAll. induction s as [|c s IH]; [done|].
  rewrite replaceAll_from_cons, prefix_cons. simpl.
  destruct (ascii_eqb p c); by rewrite IH, ?prefix_nil.
Qed.

Lemma str_flat_map_app f (a b : string) :
  str_flat_map f (a +:+ b) = str_flat_map f a +:+ str_flat_map f b.
Proof.
  induction a as [|c a IH]; [done|]. rewrite str_app_cons. simpl.
  by rewrite IH, str_app_assoc.
Qed.

Lemma str_flat_map_compose f g (s : string) :
  str_flat_map g (str_flat_map f s) = str_flat_map (λ c, str_flat_map g (f c)) s.
Proof.
  induction s as [|c s IH]; [done|]. simpl. by rewrite str_flat_map_app, IH.
Qed.

Lemma str_flat_map_ext f g (s : string) :
  (∀ c, f c = g c) → str_flat_map f s = str_flat_map g s.
Proof. intros Hfg. induction s as [|c s IH]; [done|]. simpl. by rewrite Hfg, IH. Qed.

(** [escapeHtml] escapes character by character. *)
Lemma escapeHtml_chars (s : string) :
  escapeHtml s = str_flat_map escape_html_char s.
Proof.
  unfold escapeHtml, DQ, DQc.
  rewrite !replaceAll_char, !str_flat_map_compose.
  apply str_flat_map_ext.
  intros [[] [] [] [] [] [] [] []]; reflexivity.
Qed.

Lemma str_forallb_app p (a b : string) :
  str_forallb p (a +:+ b) = str_forallb p a && str_forallb p b.
Proof.
  induction a as [|c a IH]; [done|]. rewrite str_app_cons. simpl.
  by rewrite IH, andb_assoc.
Qed.

Lemma escapeHtml_attr_safe (s : string) : attr_safe (escapeHtml s) = true.
Proof.
  rewrite escapeHtml_chars. unfold attr_safe.
  induction s as [|c s IH]; [done|]. simpl. rewrite str_forallb_app, IH, andb_true_r.
  revert c. intros [[] [] [] [] [] [] [] []]; reflexivity.
Qed.

Lemma escapeHtml_nonempty (s : string) : s ≠ "" → escapeHtml s ≠ "".
Proof.
  rewrite escapeHtml_chars. destruct s as [|c s]; [done|]. intros _. simpl.
  assert (Hc : ∃ d t, escape_html_char c = String d t).
  { destruct c as [[] [] [] [] [] [] [] []]; vm_compute; eauto. }
  destruct Hc as (d & t & ->). by rewrite str_app_cons.
Qed.

(** *** The replacements of [replaceTable] *)

Lemma replaceAll_from_text p rep t s :
  no_lt t = true →
  replaceAll_from (String "<" p) rep 0 (t +:+ s)
  = t +:+ replaceAll_from (String "<" p) rep 0 s.
Proof.
  intros Ht. induction t as [|c t IH]; [done|].
  simpl in Ht. apply andb_true_iff in Ht as [Hc Ht].
  rewrite str_app_cons, replaceAll_from_cons, prefix_cons.
  assert (ascii_eqb "<" c = false) as ->.
  { apply negb_true_iff in Hc. unfold ascii_eqb in *. by rewrite Ascii.eqb_sym. }
  by rewrite IH.
Qed.

Lemma replaceAll_from_skip pat rep a s :
  replaceAll_from pat rep (String.length a) (a +:+ s) = replaceAll_from pat rep 0 s.
Proof. induction a as [|c a IH]; [done|]. simpl. exact IH. Qed.

Lemma plain_text_no_lt (s : string) : plain_text s = true → no_lt s = true.
Proof.
  unfold plain_text, no_lt. induction s as [|c s IH]; [done|].
  simpl. rewrite !andb_true_iff. naive_solver.
Qed.

Lemma attr_safe_no_lt (s : string) : attr_safe s = true → no_lt s = true.
Proof.
  unfold attr_safe, no_lt, attr_safe_char. induction s as [|c s IH]; [done|].
  simpl. rewrite !andb_true_iff. naive_solver.
Qed.

Lemma attr_safe_char_facts (c : ascii) :
  attr_safe_char c = true →
  ascii_eqb "<" c = false ∧ ascii_eqb c "<" = false
  ∧ ascii_eqb DQc c = false ∧ ascii_eqb c DQc = false.
Proof.
  destruct c as [[] [] [] [] [] [] [] []]; vm_compute; intros; done.
Qed.

Lemma prefix_known_correct p lit b s :
  prefix_known p lit = Some b → String.prefix p (lit +:+ s) = b.
Proof.
  revert lit. induction p as [|a p IH]; intros lit Hk.
  - simpl in Hk. injection Hk as <-. apply prefix_nil.
  - destruct lit as [|c lit]; [done|]. simpl in Hk. rewrite str_app_cons, prefix_cons.
    destruct (ascii_eqb a c); [by apply IH|by injection Hk].
Qed.

Lemma prefix_common a p s : String.prefix (a +:+ p) (a +:+ s) = String.prefix p s.
Proof.
  induction a as [|c a IH]; [done|]. rewrite !str_app_cons, prefix_cons.
  unfold ascii_eqb. by rewrite Ascii.eqb_refl.
Qed.

Lemma replaceAll_from_lt_nomatch P rep s :
  String.prefix P (String "<" s) = false →
  replaceAll_from P rep 0 (String "<" s) = String "<" (replaceAll_from P rep 0 s).
Proof. intros H. by rewrite replaceAll_from_cons, H. Qed.

Lemma replaceAll_from_match P rep a s :
  P = a → P ≠ "" →
  replaceAll_from P rep 0 (a +:+ s) = rep +:+ replaceAll_from P rep 0 s.
Proof.
  intros <- Hne. destruct P as [|c P]; [done|]. rewrite str_app_cons, replaceAll_from_cons.
  rewrite <- str_app_cons, <- (str_app_nil_r (String c P)) at 1.
  rewrite prefix_common, prefix_nil. simpl. rewrite Nat.sub_0_r.
  by rewrite replaceAll_from_skip.
Qed.

Lemma empty_style_span_shape :
  empty_style_span = String "<" ("span style=" +:+ DQ +:+ DQ +:+ ">").
Proof. reflexivity. Qed.

Lemma prefix_empty_style_span (e s : string) :
  attr_safe e = true → e ≠ "" →
  String.prefix (String "<" ("span style=" +:+ DQ +:+ DQ +:+ ">"))
    (String "<" ("span style=" +:+ DQ +:+ e +:+ s)) = false.
Proof.
  intros He Hne. destruct e as [|c e]; [done|].
  simpl in He. apply andb_true_iff in He as [Hc _].
  apply attr_safe_char_facts in Hc as (_ & _ & Hc & _).
  rewrite prefix_cons. simpl (ascii_eqb "<" "<"). cbv iota.
  rewrite !prefix_common. unfold DQ. rewrite !str_app_cons, prefix_cons.
  by rewrite Hc.
Qed.

Ltac lt_nomatch lit :=
  rewrite replaceAll_from_lt_nomatch;
  [|rewrite <- str_app_cons; apply (prefix_known_correct _ lit); reflexivity].

Ltac text_lit := rewrite replaceAll_from_text by reflexivity.

Lemma prefix_empty_span (c : ascii) (s : string) :
  ascii_eqb "<" c = false →
  String.prefix "<span></span>" (String "<" ("span>" +:+ String c s)) = false.
Proof.
  intros Hc. rewrite <- str_app_cons.
  change "<span></span>" with ("<span>" +:+ "</span>").
  rewrite prefix_common, prefix_cons. by rewrite Hc.
Qed.

Lemma trimEnd_app (t s : string) :
  trimEnd s ≠ "" → trimEnd (t +:+ s) = t +:+ trimEnd s.
Proof.
  intros Hs. induction t as [|c t IH]; [done|].
  rewrite !str_app_cons. simpl. rewrite IH.
  destruct (t +:+ trimEnd s) eqn:Heq; [|done].
  destruct t; [|done]. by simpl in Heq.
Qed.

(** *** The replacement itself *)

Lemma html_replace_other `{!AnsiUp} h args c tl st :
  ascii_eqb c "%" = false →
  html_replace h args (String c tl) st
  = '(rest, st2) ← html_replace h args tl st; Ok (String c rest, st2).
Proof. intros Hc. destruct tl; simpl; by rewrite ?Hc. Qed.

Lemma html_replace_text `{!AnsiUp} h args t rest st :
  plain_text t = true →
  html_replace h args (t +:+ rest) st
  = '(r, st') ← html_replace h args rest st; Ok (t +:+ r, st').
Proof.
  intros Ht. induction t as [|c t IH].
  - rewrite str_app_nil_l. destruct (html_replace h args rest st) as [[??]| |]; reflexivity.
  - simpl in Ht. apply andb_true_iff in Ht as [Hc Ht].
    apply andb_true_iff in Hc as [_ Hc]. apply negb_true_iff in Hc.
    rewrite str_app_cons, (html_replace_other _ _ _ _ _ Hc), (IH Ht).
    destruct (html_replace h args rest st) as [[??]| |]; reflexivity.
Qed.

Lemma html_callback_style `{!AnsiUp} h args arg s st :
  args !! argIndex st = Some arg → safeString h arg = Ok (Some s) →
  html_callback h args "c" st
  = Ok (style_open (escapeHtml s), mkReplace (S (argIndex st)) true).
Proof.
  intros Harg Hs. unfold html_callback, escapeHtml_safeString. simpl.
  by rewrite Harg, Hs.
Qed.

(** *** Reading the result *)

Lemma scan_run_app (m : scan_mode) (a b : string) :
  scan_run m (a +:+ b)
  = ((scan_run (scan_run m a).1 b).1,
     (scan_run m a).2 ++ (scan_run (scan_run m a).1 b).2).
Proof.
  revert m. induction a as [|c a IH]; intros m.
  - rewrite str_app_nil_l. simpl. by destruct (scan_run m b).
  - rewrite str_app_cons. simpl. destruct (scan_step m c) as [m1 o1]. rewrite IH.
    destruct (scan_run m1 a) as [m2 o2]. simpl.
    destruct (scan_run m2 b) as [m3 o3]. simpl. by rewrite app_assoc.
Qed.

Lemma style_attrs_from_run (m : scan_mode) (s : string) :
  style_attrs_from m s = (scan_run m s).2.
Proof.
  revert m. induction s as [|c s IH]; intros m; [done|]. simpl.
  destruct (scan_step m c) as [m1 o1]. simpl. rewrite IH.
  by destruct (scan_run m1 s).
Qed.

Lemma nl_to_br_chars (s : string) :
  nl_to_br s
  = str_flat_map (λ c, if ascii_eqb (ascii_of_nat 10) c
                       then "<br/>" +:+ NL else String c "") s.
Proof. unfold nl_to_br, NL. by rewrite replaceAll_char. Qed.

Lemma nl_to_br_app (a b : string) : nl_to_br (a +:+ b) = nl_to_br a +:+ nl_to_br b.
Proof. by rewrite !nl_to_br_chars, str_flat_map_app. Qed.

Lemma str_flat_map_cons f (c : ascii) (s : string) :
  str_flat_map f (String c s) = f c +:+ str_flat_map f s.
Proof. reflexivity. Qed.

Lemma scan_run_text (t : string) :
  no_lt t = true → scan_run InText (nl_to_br t) = (InText, []).
Proof.
  intros Ht. rewrite nl_to_br_chars. induction t as [|c t IH]; [done|].
  simpl in Ht. apply andb_true_iff in Ht as [Hc Ht]. apply negb_true_iff in Hc.
  assert (Hc1 : scan_run InText (if ascii_eqb (ascii_of_nat 10) c
                                 then "<br/>" +:+ NL else String c "")
                = (InText, [])).
  { destruct (ascii_eqb (ascii_of_nat 10) c); [reflexivity|]. simpl. by rewrite Hc. }
  rewrite str_flat_map_cons, scan_run_app, Hc1. cbn [fst snd]. by rewrite (IH Ht).
Qed.

Lemma scan_run_value (name val x : string) :
  no_dq x = true → scan_run (InValue name val) x = (InValue name (val +:+ x), []).
Proof.
  revert val. induction x as [|c x IH]; intros val Hx.
  - simpl. by rewrite str_app_nil_r.
  - simpl in Hx. apply andb_true_iff in Hx as [Hc Hx]. apply negb_true_iff in Hc.
    simpl. rewrite Hc, (IH _ Hx). by rewrite str_app_assoc.
Qed.

Lemma attr_safe_no_dq (s : string) : attr_safe s = true → no_dq s = true.
Proof.
  unfold attr_safe, no_dq, attr_safe_char. induction s as [|c s IH]; [done|].
  simpl. rewrite !andb_true_iff. naive_solver.
Qed.

Lemma no_dq_nl_to_br (s : string) : no_dq s = true → no_dq (nl_to_br s) = true.
Proof.
  intros Hs. rewrite nl_to_br_chars. unfold no_dq in *.
  induction s as [|c s IH]; [done|].
  simpl in Hs. apply andb_true_iff in Hs as [Hc Hs].
  rewrite str_flat_map_cons, str_forallb_app, (IH Hs), andb_true_r.
  destruct (ascii_eqb (ascii_of_nat 10) c); [reflexivity|]. simpl. by rewrite Hc.
Qed.

(** A style container in front of any text: the value read back is the
    escaped text, and the reader is outside the tag after it. *)
Lemma scan_run_style_open (e : string) :
  no_dq e = true →
  scan_run InText (style_open e) = (InText, [e]).
Proof.
  intros He. unfold style_open.
  rewrite scan_run_app.
  change (scan_run InText "</span><span style=") with (AfterEquals "style", @nil string).
  cbn [fst snd]. rewrite scan_run_app.
  change (scan_run (AfterEquals "style") DQ) with (InValue "style" "", @nil string).
  cbn [fst snd]. rewrite scan_run_app, (scan_run_value _ _ _ He).
  cbn [fst snd]. rewrite str_app_nil_l. reflexivity.
Qed.

Lemma scan_run_seq (m m1 : scan_mode) (o1 : list string) (a b : string) :
  scan_run m a = (m1, o1) →
  scan_run m (a +:+ b) = ((scan_run m1 b).1, o1 ++ (scan_run m1 b).2).
Proof. intros Ha. by rewrite scan_run_app, Ha. Qed.

(** *** The whole call *)

Lemma html_replace_styles `{!AnsiUp} h args (segs : list (value * string)) ss i hs :
  (∀ k a, segs.*1 !! k = Some a → args !! (i + k) = Some a) →
  Forall (λ t, plain_text t = true) segs.*2 →
  mapR (safeString h) segs.*1 = Ok (Some <$> ss) →
  html_replace h args (styled_template segs.*2) (mkReplace i hs)
  = Ok (styled_html (zip (escapeHtml <$> ss) segs.*2),
        mkReplace (i + length segs) (hs || negb (bool_decide (segs = [])))).
Proof.
  revert ss i hs. induction segs as [|[a t] segs IH]; intros ss i hs Hargs Ht Hss.
  - destruct ss; [|done]. simpl. by rewrite Nat.add_0_r, orb_false_r.
  - cbn [fmap list_fmap fst mapR] in Hss.
    destruct (safeString h a) as [o| |] eqn:Hs; try done.
    cbn [mbind result_bind] in Hss.
    destruct (mapR (safeString h) segs.*1) as [os| |] eqn:Hss'; try done.
    cbn [mbind result_bind] in Hss.
    destruct ss as [|s ss']; [done|]. cbn [fmap list_fmap] in Hss.
    injection Hss as -> ->.
    apply Forall_cons in Ht as [Ht Hts].
    cbn [fmap list_fmap fst snd styled_template zip zip_with styled_html].
    change ("%c" +:+ ?x) with (String "%" (String "c" x)).
    rewrite html_replace_cons2.
    change (ascii_eqb "%" "%" && html_specifier "c") with true. cbv iota.
    assert (Harg : args !! argIndex (mkReplace i hs) = Some a).
    { simpl. rewrite <- (Nat.add_0_r i). by apply Hargs. }
    rewrite (html_callback_style _ _ _ _ _ Harg Hs). cbn [mbind result_bind argIndex].
    rewrite (html_replace_text _ _ _ _ _ Ht).
    rewrite (IH ss' (S i) true); [|
      intros k b Hk; replace (S i + k) with (i + S k) by lia; by apply Hargs | done | done].
    cbn [mbind result_bind]. rewrite ?str_app_assoc. f_equal. f_equal.
    f_equal; [simpl; lia|]. simpl. by rewrite orb_true_r.
Qed.

Lemma style_open_tag (e : string) : style_open e = "</span>" +:+ open_tag (Some e).
Proof. reflexivity. Qed.

Lemma render_pieces (s : option string) (t : string) (pieces : list (string * string)) :
  open_tag s +:+ (t +:+ styled_html pieces) +:+ "</span>"
  = render ((s, t) :: (prod_map Some id <$> pieces)).
Proof.
  revert s t. induction pieces as [|[e t'] pieces IH]; intros s t.
  - cbn [styled_html fmap list_fmap render]. unfold render_container.
    cbn [fst snd]. by rewrite !str_app_nil_r.
  - change (render ((s, t) :: (prod_map Some id <$> ((e, t') :: pieces))))
      with (render_container (s, t)
            +:+ render ((Some e, t') :: (prod_map Some id <$> pieces))).
    rewrite <- IH. cbn [styled_html]. rewrite style_open_tag.
    unfold render_container. cbn [fst snd]. by rewrite !str_app_assoc.
Qed.

Lemma well_formed_unstyle (c : container) : well_formed c → well_formed (unstyle_empty c).
Proof.
  destruct c as [[[|a e]|] t]; try done. intros [Ht _]. by split.
Qed.

Lemma replace_style_container (c : container) (rest : string) :
  well_formed c →
  replaceAll_from empty_style_span "<span>" 0 (render_container c +:+ rest)
  = render_container (unstyle_empty c)
    +:+ replaceAll_from empty_style_span "<span>" 0 rest.
Proof.
  destruct c as [[e|] t]; intros [Ht He]; cbn [fst snd] in *.
  - specialize (He e eq_refl). destruct e as [|a e].
    + change (render_container (Some "", t) +:+ rest)
        with (empty_style_span +:+ (t +:+ "</span>") +:+ rest).
      rewrite replaceAll_from_match by done. rewrite empty_style_span_shape.
      rewrite str_app_assoc, (replaceAll_from_text _ _ t) by done.
      change ("</span>" +:+ rest) with (String "<" ("/span>" +:+ rest)).
      lt_nomatch "</span>". text_lit.
      unfold unstyle_empty, render_container. cbn [fst snd open_tag].
      by rewrite !str_app_assoc.
    + change (unstyle_empty (Some (String a e), t)) with (Some (String a e), t).
      unfold render_container. cbn [fst snd open_tag]. rewrite !str_app_assoc.
      change ("<span style=" +:+ ?x) with (String "<" ("span style=" +:+ x)).
      change ("</span>" +:+ ?x) with (String "<" ("/span>" +:+ x)).
      rewrite empty_style_span_shape.
      rewrite replaceAll_from_lt_nomatch by by apply prefix_empty_style_span.
      text_lit. text_lit.
      rewrite (replaceAll_from_text _ _ (String a e)) by by apply attr_safe_no_lt.
      text_lit. text_lit. rewrite (replaceAll_from_text _ _ t) by done.
      lt_nomatch "</span>". text_lit. reflexivity.
  - change (unstyle_empty (None, t)) with (@pair (option string) string None t).
    unfold render_container. cbn [fst snd open_tag]. rewrite !str_app_assoc.
    change ("<span>" +:+ ?x) with (String "<" ("span>" +:+ x)).
    change ("</span>" +:+ ?x) with (String "<" ("/span>" +:+ x)).
    rewrite empty_style_span_shape.
    lt_nomatch "<span>". text_lit. rewrite (replaceAll_from_text _ _ t) by done.
    lt_nomatch "</span>". text_lit. reflexivity.
Qed.

Lemma replace_bare_container (c : container) (rest : string) :
  well_formed c →
  replaceAll_from "<span></span>" "" 0 (render_container c +:+ rest)
  = (if is_bare_empty c then "" else render_container c)
    +:+ replaceAll_from "<span></span>" "" 0 rest.
Proof.
  destruct c as [[e|] t]; intros [Ht He]; cbn [fst snd] in *.
  - specialize (He e eq_refl). cbn [is_bare_empty].
    unfold render_container. cbn [fst snd open_tag]. rewrite !str_app_assoc.
    change ("<span style=" +:+ ?x) with (String "<" ("span style=" +:+ x)).
    change ("</span>" +:+ ?x) with (String "<" ("/span>" +:+ x)).
    lt_nomatch "<span style=". text_lit. text_lit.
    rewrite (replaceAll_from_text _ _ e) by by apply attr_safe_no_lt.
    text_lit. text_lit. rewrite (replaceAll_from_text _ _ t) by done.
    lt_nomatch "</span>". text_lit. reflexivity.
  - destruct t as [|a t]; cbn [is_bare_empty].
    + change (render_container (None, "") +:+ rest) with ("<span></span>" +:+ rest).
      rewrite replaceAll_from_match by done. reflexivity.
    + pose proof Ht as Ht0. simpl in Ht. apply andb_true_iff in Ht as [Ha _].
      assert (Ha' : ascii_eqb "<" a = false).
      { apply negb_true_iff in Ha. unfold ascii_eqb in *. by rewrite Ascii.eqb_sym. }
      unfold render_container. cbn [fst snd open_tag]. rewrite !str_app_assoc.
      change ("<span>" +:+ ?x) with (String "<" ("span>" +:+ x)).
      change ("</span>" +:+ ?x) with (String "<" ("/span>" +:+ x)).
      rewrite replaceAll_from_lt_nomatch
        by (rewrite str_app_cons; by apply prefix_empty_span).
      text_lit. rewrite (replaceAll_from_text _ _ (String a t)) by done.
      lt_nomatch "</span>". text_lit. reflexivity.
Qed.

Lemma replace_style_render (cs : list container) :
  Forall well_formed cs →
  replaceAll empty_style_span "<span>" (render cs) = render (unstyle_empty <$> cs).
Proof.
  unfold replaceAll. induction 1 as [|c cs Hc _ IH]; [done|].
  cbn [render fmap list_fmap]. by rewrite replace_style_container, IH.
Qed.

Lemma replace_bare_render (cs : list container) :
  Forall well_formed cs →
  replaceAll "<span></span>" "" (render cs) = render (drop_bare_empty cs).
Proof.
  unfold replaceAll, drop_bare_empty. induction 1 as [|c cs Hc _ IH]; [done|].
  cbn [render]. rewrite replace_bare_container, IH by done.
  rewrite filter_cons. destruct (is_bare_empty c); by case_decide.
Qed.

Lemma render_shape (cs : list container) :
  cs ≠ [] → ∃ body, render cs = String "<" (body +:+ "</span>").
Proof.
  induction cs as [|[s t] cs IH]; [done|]. intros _.
  assert (Hopen : ∃ x, open_tag s = String "<" x) by (destruct s; by eexists).
  destruct Hopen as [x Hx]. cbn [render]. unfold render_container. cbn [fst snd].
  rewrite Hx. destruct cs as [|c cs].
  - exists (x +:+ t). cbn [render]. by rewrite str_app_nil_r, str_app_cons, !str_app_assoc.
  - destruct IH as [body ->]; [done|].
    exists (x +:+ t +:+ "</span>" +:+ String "<" body).
    by rewrite !str_app_cons, !str_app_assoc, !str_app_cons.
Qed.

Lemma trim_render (cs : list container) :
  trim (render cs +:+ " " +:+ "") = render cs.
Proof.
  destruct cs as [|c cs]; [reflexivity|].
  destruct (render_shape (c :: cs)) as [body ->]; [done|].
  unfold trim. rewrite str_app_cons.
  change (trimStart (String "<" ?s)) with (String "<" s).
  rewrite str_app_assoc, <- str_app_cons.
  rewrite trimEnd_app by done. reflexivity.
Qed.

Lemma scan_run_container (c : container) :
  well_formed c →
  scan_run InText (nl_to_br (render_container c))
  = (InText, match c.1 with Some e => [nl_to_br e] | None => [] end).
Proof.
  destruct c as [[e|] t]; intros [Ht He]; cbn [fst snd] in *;
    unfold render_container; cbn [fst snd open_tag];
    rewrite ?str_app_assoc, !nl_to_br_app.
  - specialize (He e eq_refl).
    rewrite (scan_run_seq InText (AfterEquals "style") [] (nl_to_br "<span style="))
      by reflexivity.
    rewrite (scan_run_seq (AfterEquals "style") (InValue "style" "") [] (nl_to_br DQ))
      by reflexivity.
    rewrite (scan_run_seq (InValue "style" "") (InValue "style" (nl_to_br e)) []
               (nl_to_br e))
      by (rewrite scan_run_value by (by apply no_dq_nl_to_br, attr_safe_no_dq);
          by rewrite str_app_nil_l).
    rewrite (scan_run_seq (InValue "style" (nl_to_br e)) (InTag "") [nl_to_br e]
               (nl_to_br DQ)) by reflexivity.
    rewrite (scan_run_seq (InTag "") InText [] (nl_to_br ">")) by reflexivity.
    rewrite (scan_run_seq InText InText [] _ _ (scan_run_text _ Ht)).
    reflexivity.
  - rewrite (scan_run_seq InText InText [] (nl_to_br "<span>")) by reflexivity.
    rewrite (scan_run_seq InText InText [] _ _ (scan_run_text _ Ht)).
    reflexivity.
Qed.

Lemma style_attrs_render (cs : list container) :
  Forall well_formed cs →
  style_attrs (nl_to_br (render cs)) = nl_to_br <$> styles cs.
Proof.
  intros Hcs. unfold style_attrs. rewrite style_attrs_from_run.
  assert (Hrun : scan_run InText (nl_to_br (render cs))
                 = (InText, nl_to_br <$> styles cs)); [|by rewrite Hrun].
  induction Hcs as [|c cs Hc _ IH]; [done|].
  cbn [render]. rewrite nl_to_br_app.
  rewrite (scan_run_seq _ _ _ _ _ (scan_run_container c Hc)), IH. cbn [fst snd].
  by destruct c as [[e|] t].
Qed.

Lemma styles_drop_bare_empty (cs : list container) :
  styles (drop_bare_empty cs) = styles cs.
Proof.
  unfold drop_bare_empty, styles. induction cs as [|[[e|] t] cs IH]; [done|..];
    rewrite filter_cons; case_decide; simpl; first [done | exact IH | f_equal; exact IH].
Qed.

Lemma styles_unstyle_empty (pieces : list (string * string)) :
  styles (unstyle_empty <$> (prod_map Some id <$> pieces))
  = filter (λ e, e ≠ "") pieces.*1.
Proof.
  unfold styles. induction pieces as [|[e t] pieces IH]; [done|].
  cbn [fmap list_fmap fst]. rewrite filter_cons.
  destruct e as [|a e]; case_decide; try done; simpl; first [exact IH | f_equal; exact IH].
Qed.

Lemma styles_containers_of (t0 : string) (pieces : list (string * string)) :
  styles (containers_of t0 pieces) = filter (λ e, e ≠ "") pieces.*1.
Proof.
  unfold containers_of. rewrite styles_drop_bare_empty.
  cbn [fmap list_fmap]. by rewrite <- styles_unstyle_empty.
Qed.

Lemma well_formed_pieces (t0 : string) (ss : list string) (texts : list string) :
  plain_text t0 = true → Forall (λ t, plain_text t = true) texts →
  Forall well_formed
    ((None, t0) :: (prod_map Some id <$> zip (escapeHtml <$> ss) texts)).
Proof.
  intros Ht0 Hts. constructor.
  - split; [by apply plain_text_no_lt|done].
  - apply Forall_fmap, Forall_forall. intros [e t] Hin.
    pose proof (elem_of_zip_l _ _ _ _ Hin) as He.
    pose proof (elem_of_zip_r _ _ _ _ Hin) as Ht.
    apply list_elem_of_fmap in He as (s & -> & _).
    rewrite Forall_forall in Hts. split; cbn [fst snd prod_map id].
    + by apply plain_text_no_lt, Hts.
    + intros ? [= <-]. apply escapeHtml_attr_safe.
Qed.

Lemma argsToHtml_styles `{!AnsiUp} h format t0 (segs : list (value * string)) ss :
  ansi_to_html format = t0 +:+ styled_template segs.*2 →
  plain_text t0 = true → Forall (λ t, plain_text t = true) segs.*2 →
  mapR (safeString h) segs.*1 = Ok (Some <$> ss) → segs ≠ [] →
  argsToHtml h (VString format :: segs.*1)
  = Ok (nl_to_br (render (containers_of t0 (zip (escapeHtml <$> ss) segs.*2)))).
Proof.
  intros Hfmt Ht0 Hts Hss Hne. unfold argsToHtml. rewrite Hfmt.
  rewrite (html_replace_text _ _ _ _ _ Ht0).
  rewrite (html_replace_styles _ _ segs ss 1 false) by done.
  cbn [mbind result_bind hasStyle argIndex orb].
  rewrite bool_decide_false by done. cbn [negb].
  replace (drop (1 + length segs) (VString format :: segs.*1)) with (@nil value)
    by (simpl; by rewrite drop_ge by (by rewrite length_fmap)).
  cbn [mapR mbind result_bind join String.concat].
  change ("<span>" +:+ (t0 +:+ ?x) +:+ "</span>")
    with (open_tag None +:+ (t0 +:+ x) +:+ "</span>").
  rewrite render_pieces.
  pose proof (well_formed_pieces t0 ss segs.*2 Ht0 Hts) as Hwf.
  rewrite replace_style_render by done.
  rewrite replace_bare_render
    by (apply Forall_fmap; eapply Forall_impl; [done|apply well_formed_unstyle]).
  fold (drop_bare_empty). by rewrite trim_render.
Qed.

Lemma mapR_length {A B} (f : A → result B) (xs : list A) (ys : list B) :
  mapR f xs = Ok ys → length ys = length xs.
Proof.
  revert ys. induction xs as [|x xs IH]; intros ys Hys; simpl in Hys.
  - by simplify_eq.
  - destruct (f x) as [y| |]; try done. cbn [mbind result_bind] in Hys.
    destruct (mapR f xs) as [ys'| |]; try done. cbn [mbind result_bind] in Hys.
    simplify_eq. simpl. by rewrite (IH ys').
Qed.

Lemma well_formed_containers_of (t0 : string) (ss texts : list string) :
  plain_text t0 = true → Forall (λ t, plain_text t = true) texts →
  Forall well_formed (containers_of t0 (zip (escapeHtml <$> ss) texts)).
Proof.
  intros Ht0 Hts. unfold containers_of, drop_bare_empty.
  apply Forall_forall. intros c [_ Hc]%list_elem_of_filter. revert c Hc.
  apply Forall_forall, Forall_fmap.
  eapply Forall_impl; [by apply well_formed_pieces|].
  apply well_formed_unstyle.
Qed.

(** [console.log('%cA%cB', 'x', '')]: the second style is empty and its
    container bears none. *)
Example argsToHtml_two_styles :
  argsToHtml (H := text_only_ansi) [] [VString "%cA%cB"; VString "x"; VString ""]
  = Ok ("<span style=" +:+ DQ +:+ "x" +:+ DQ +:+ ">A</span><span>B</span>").
Proof. vm_compute. reflexivity. Qed.




(** * Further properties of the formatters and of the console *)

(** ** The conversions return *)

Lemma mapR_terminates {A B} (f : A → result B) (xs : list A) :
  (∀ x, x ∈ xs → terminates (f x) = true) → terminates (mapR f xs) = true.
Proof.
  induction xs as [|x xs IH]; intros Hf; [done|]. simpl.
  pose proof (Hf x ltac:(set_solver)) as Hx.
  destruct (f x) as [y| |]; try done. simpl.
  specialize (IH (λ z Hz, Hf z ltac:(set_solver))).
  by destruct (mapR f xs).
Qed.

Lemma terminates_bind {A B} (m : result A) (k : A → result B) :
  terminates m = true → (∀ x, terminates (k x) = true) →
  terminates (m ≫= k) = true.
Proof. intros Hm Hk. destruct m; [apply Hk|done..]. Qed.

Lemma length_below (stack : list loc) (n : nat) (l : loc) :
  NoDup stack → (∀ x, x ∈ stack → x < n) → l < n → l ∉ stack → length stack < n.
Proof.
  intros Hnd Hst Hl Hnot.
  rewrite <- (size_list_to_set (C := gset loc)) by done.
  apply (size_below _ _ l); [|done|]; set_solver.
Qed.

Lemma SerializeJSONProperty_terminates fuel (h : heap) gap stack indent v :
  NoDup stack → (∀ x, x ∈ stack → x < length h) →
  length h < fuel + length stack →
  terminates (SerializeJSONProperty fuel h gap stack indent v) = true.
Proof.
  revert stack indent v. induction fuel as [|fuel IH]; intros stack indent v Hnd Hst Hfuel.
  - destruct v as [| | | | | | | |l]; try done.
    destruct (h !! l) as [[cl ps ts]|] eqn:Hl; simpl; rewrite ?Hl; [|done].
    pose proof (lookup_lt_Some _ _ _ Hl) as Hlt.
    destruct cl as [| | | |[iso|]|]; try done; case_bool_decide as Hin; try done;
      pose proof (length_below _ _ _ Hnd Hst Hlt Hin); lia.
  - destruct v as [| | | | | | | |l]; try done.
    destruct (h !! l) as [[cl ps ts]|] eqn:Hl; simpl; rewrite ?Hl; [|done].
    pose proof (lookup_lt_Some _ _ _ Hl) as Hlt.
    assert (Hrec : ∀ ind w,
      terminates (SerializeJSONProperty fuel h gap (l :: stack) ind w) = true
      ∨ l ∈ stack).
    { intros ind w. destruct (decide (l ∈ stack)) as [?|Hin]; [by right|left].
      apply IH.
      - by constructor.
      - intros x [->|Hx]%elem_of_cons; auto.
      - simpl. lia. }
    destruct cl as [| | | |[iso|]|]; try done; case_bool_decide as Hin; try done;
      apply terminates_bind; try done; apply mapR_terminates; intros [k w] _;
      simpl; try (destruct k; [|done]);
      (destruct (Hrec (indent +:+ gap) w) as [Hw|?]; [|done]);
      by destruct (SerializeJSONProperty _ _ _ _ _ w).
Qed.

Lemma JSON_stringify_terminates (h : heap) (v : value) (gap : string) :
  terminates (JSON_stringify h v gap) = true.
Proof.
  apply SerializeJSONProperty_terminates; [constructor|set_solver|simpl; lia].
Qed.

Lemma String_terminates (h : heap) (arg : value) :
  toString_terminates h = true → terminates (String_ h arg) = true.
Proof.
  intros Hh. destruct arg as [| | | | | | | |l]; try done. simpl.
  destruct (h !! l) as [o|] eqn:Hl; [|done].
  unfold toString_terminates in Hh. rewrite forallb_forall in Hh.
  apply Hh, list_elem_of_In. by eapply list_elem_of_lookup_2.
Qed.

Lemma safeString_Ok (h : heap) (arg : value) :
  toString_terminates h = true → ∃ s, safeString h arg = Ok (Some s).
Proof.
  intros Hh. unfold safeString.
  pose proof (String_terminates h arg Hh) as Hs.
  destruct (String_ h arg) as [s|e|] eqn:HS; [by eexists| |done]. simpl.
  pose proof (JSON_stringify_terminates h arg "") as Hj.
  destruct (JSON_stringify h arg "") as [[j|]|e'|] eqn:HJ;
    [by eexists| |by eexists|done].
  apply JSON_stringify_undefined in HJ. by rewrite HS in HJ.
Qed.

(** X1: on a heap where every conversion to a string comes back and no
    object has a [toJSON] method, [safeString] does not throw and returns a
    string, not [undefined]: what [String(arg)] returns when it returns, and
    where [String(arg)] throws what [JSON.stringify(arg)] returns, or the
    tag of [Object.prototype.toString] when [JSON.stringify] throws as
    well. *)
Theorem safeString_returns (h : heap) (arg : value) :
  toString_terminates h = true → no_toJSON h = true →
  (∃ s, safeString h arg = Ok (Some s)) ∧
  (∀ s, String_ h arg = Ok s → safeString h arg = Ok (Some s)) ∧
  (∀ e, String_ h arg = Throw e →
     (∀ j, JSON_stringify h arg "" = Ok j → safeString h arg = Ok j) ∧
     (∀ e', JSON_stringify h arg "" = Throw e' →
        safeString h arg = Ok (Some (Object_prototype_toString h arg)))).
Proof.
  intros Hh _. split; [by apply safeString_Ok|]. unfold safeString. split.
  - by intros s ->.
  - intros e ->. simpl. split.
    + by intros j ->.
    + by intros e' ->.
Qed.

Lemma safeString_returns_witness :
  ∃ s, safeString sample_heap (VObject 1) = Ok (Some s).
Proof. apply (safeString_returns sample_heap (VObject 1)); reflexivity. Defined.

(** ** The HTML formatter returns *)

Lemma date_only_bind {A B} (h : heap) (m : result A) (k : A → result B) :
  date_only h m → (∀ x, date_only h (k x)) → date_only h (m ≫= k).
Proof. intros Hm Hk. destruct m; [apply Hk|done..]. Qed.

Lemma date_only_fmap {A B} (h : heap) (f : A → B) (m : result A) :
  date_only h m → date_only h (f <$> m).
Proof. by destruct m. Qed.

Lemma date_only_try_catch {A} (h : heap) (body handler : result A) :
  terminates body = true → date_only h handler →
  date_only h (try_catch body handler).
Proof. by destruct body. Qed.

Lemma date_only_mapR {A B} (h : heap) (f : A → result B) (xs : list A) :
  (∀ x, date_only h (f x)) → date_only h (mapR f xs).
Proof.
  intros Hf. induction xs as [|x xs IH]; [done|]. simpl.
  apply date_only_bind; [done|]. intros y.
  apply date_only_bind; [done|]. done.
Qed.

Lemma date_only_safeString (h : heap) (arg : value) :
  toString_terminates h = true → date_only h (safeString h arg).
Proof. intros Hh. by destruct (safeString_Ok h arg Hh) as [s ->]. Qed.

Lemma terminates_fmap {A B} (f : A → B) (m : result A) :
  terminates (f <$> m) = terminates m.
Proof. by destruct m. Qed.

Lemma date_only_argToHtml `{!AnsiUp} (h : heap) (arg : value) :
  date_only h (argToHtml h arg).
Proof.
  unfold argToHtml. destruct (error_stack h arg); [done|].
  pose proof (circularToString_outcome h arg None) as Hc.
  assert (Hs : date_only h (ansi_to_html <$> circularToString h arg None))
    by by apply date_only_fmap.
  destruct (is_null_or_object h arg); [|done].
  apply date_only_try_catch; [|done].
  by rewrite terminates_fmap, JSON_stringify_terminates.
Qed.

Lemma date_only_html_callback `{!AnsiUp} (h : heap) args c st :
  toString_terminates h = true → date_only h (html_callback h args c st).
Proof.
  intros Hh. unfold html_callback.
  destruct (ascii_eqb c "%"); [done|].
  destruct (args !! argIndex st) as [arg|]; [|done].
  pose proof (date_only_safeString h arg Hh) as Hs.
  assert (He : date_only h (escapeHtml_safeString h arg)).
  { unfold escapeHtml_safeString. by destruct (safeString_Ok h arg Hh) as [s ->]. }
  pose proof (circularToString_outcome h arg None) as Hc.
  repeat (match goal with |- context [if ?b then _ else _] => destruct b end;
          try (apply date_only_bind; [done|done])).
  - apply date_only_bind; [|done]. apply date_only_try_catch.
    + by rewrite terminates_fmap, JSON_stringify_terminates.
    + by apply date_only_fmap.
  - done.
Qed.

Lemma date_only_html_replace `{!AnsiUp} (h : heap) args html st :
  toString_terminates h = true → date_only h (html_replace h args html st).
Proof.
  intros Hh. revert st.
  induction html as [|c|c d s IH1 IH2] using string_ind2; intros st; [done..|].
  rewrite html_replace_cons2. destruct (ascii_eqb c "%" && html_specifier d).
  - apply date_only_bind; [by apply date_only_html_callback|]. intros [piece st1].
    apply date_only_bind; [apply IH1|]. by intros [rest st2].
  - apply date_only_bind; [apply IH2|]. by intros [rest st2].
Qed.

Lemma date_only_argsToHtml `{!AnsiUp} (h : heap) (args : list value) :
  toString_terminates h = true → date_only h (argsToHtml h args).
Proof.
  intros Hh. unfold argsToHtml.
  assert (Hmap : ∀ xs, date_only h (mapR (argToHtml h) xs))
    by (intros xs; apply date_only_mapR, date_only_argToHtml).
  destruct args as [|[| | | | |format| | |] rest]; try done;
    try (by apply date_only_fmap).
  apply date_only_bind; [by apply date_only_html_replace|]. intros [html st].
  apply date_only_bind; [apply Hmap|]. done.
Qed.



(** ** The plain-text formatter returns on arguments that convert *)

Lemma ToString_String (h : heap) (arg : value) :
  returns (ToString h arg) = true → ToString h arg = String_ h arg.
Proof. by destruct arg. Qed.

Lemma returns_try_catch {A} (body handler : result A) :
  terminates body = true → returns handler = true →
  returns (try_catch body handler) = true.
Proof. by destruct body. Qed.

Lemma json_or_String_returns (h : heap) (arg : value) :
  returns (String_ h arg) = true → returns (json_or_String h arg) = true.
Proof.
  intros Hs. unfold json_or_String.
  pose proof (JSON_stringify_terminates h arg TAB) as Hj.
  by destruct (JSON_stringify h arg TAB).
Qed.

Lemma returns_bind {A B} (m : result A) (k : A → result B) :
  returns m = true → (∀ x, returns (k x) = true) → returns (m ≫= k) = true.
Proof. intros Hm Hk. destruct m; [apply Hk|done..]. Qed.

Lemma format_match_returns (h : heap) args c st :
  Forall (λ a, returns (ToString h a) = true) args →
  returns (format_match h args c st) = true.
Proof.
  intros Hargs. unfold format_match.
  destruct (ascii_eqb c "%"); [done|].
  destruct (args !! fmtIndex st) as [arg|] eqn:Harg; [|done].
  rewrite Forall_forall in Hargs.
  pose proof (Hargs arg (list_elem_of_lookup_2 _ _ _ Harg)) as Ht.
  pose proof Ht as Hs. rewrite (ToString_String _ _ Ht) in Hs.
  unfold parseInt, parseFloat.
  repeat match goal with |- context [if ?b then _ else _] => destruct b end;
    first [done | apply returns_bind; [done|done]
          | apply returns_bind; [by apply json_or_String_returns|done]
          | apply returns_bind; [by apply returns_bind|done]].
Qed.

Lemma format_loop_returns (h : heap) args format st :
  Forall (λ a, returns (ToString h a) = true) args →
  returns (format_loop h args format st) = true.
Proof.
  intros Hargs. revert st.
  induction format as [|c|c d s IH1 IH2] using string_ind2; intros st; [done..|].
  rewrite format_loop_cons2. destruct (ascii_eqb c "%" && plain_specifier d).
  - apply returns_bind; [by apply format_match_returns|]. intros st1. apply IH1.
  - apply IH2.
Qed.

Lemma format_rest_arg_returns (h : heap) (arg : value) (out : string) :
  returns (String_ h arg) = true → returns (format_rest_arg h arg out) = true.
Proof.
  intros Hs. unfold format_rest_arg. destruct (error_stack h arg); [done|].
  destruct (is_null_or_object h arg); apply returns_bind; try done.
  by apply json_or_String_returns.
Qed.

Lemma forR_returns {A S} (f : A → S → result S) (xs : list A) (s : S) :
  (∀ x s, x ∈ xs → returns (f x s) = true) → returns (forR f xs s) = true.
Proof.
  revert s. induction xs as [|x xs IH]; intros s Hf; [done|]. simpl.
  apply returns_bind; [apply Hf; set_solver|].
  intros s'. apply IH. intros y t Hy. apply Hf. set_solver.
Qed.

Lemma mapR_returns {A B} (f : A → result B) (xs : list A) :
  (∀ x, x ∈ xs → returns (f x) = true) → returns (mapR f xs) = true.
Proof.
  induction xs as [|x xs IH]; intros Hf; [done|]. simpl.
  apply returns_bind; [apply Hf; set_solver|]. intros y.
  apply returns_bind; [apply IH; intros z Hz; apply Hf; set_solver|done].
Qed.

Lemma format_plain_arg_returns (h : heap) (arg : value) :
  returns (String_ h arg) = true → returns (format_plain_arg h arg) = true.
Proof.
  intros Hs. unfold format_plain_arg.
  assert (Hjson : returns (try_catch (JSON_stringify h arg TAB)
                             (Some <$> String_ h arg)) = true).
  { apply returns_try_catch; [apply JSON_stringify_terminates|].
    by destruct (String_ h arg). }
  destruct arg; try done; by destruct (error_stack h _).
Qed.

(** X3: [formatArgs] returns a string whenever the conversion to a string
    of every argument returns: it throws only an exception that [String] or
    [parseInt] or [parseFloat] throws on one of the arguments. *)
Theorem formatArgs_returns_on_convertible_arguments (h : heap) (args : list value) :
  Forall (λ a, returns (ToString h a) = true) args →
  ∃ out, formatArgs h args = Ok out.
Proof.
  intros Hargs.
  assert (Hstr : ∀ a, a ∈ args → returns (String_ h a) = true).
  { intros a Ha. rewrite Forall_forall in Hargs.
    rewrite <- ToString_String; by apply Hargs. }
  assert (Hret : returns (formatArgs h args) = true);
    [|destruct (formatArgs h args); by eauto].
  unfold formatArgs.
  assert (Hplain : returns (mapR (format_plain_arg h) args ≫=
            λ parts, Ok (join " " (default "" <$> parts))) = true).
  { apply returns_bind; [|done]. apply mapR_returns.
    intros a Ha. by apply format_plain_arg_returns, Hstr. }
  destruct args as [|first rest]; [done|].
  destruct first; try exact Hplain.
  apply returns_bind; [by apply format_loop_returns|]. intros st.
  apply forR_returns. intros a out Ha.
  apply format_rest_arg_returns, Hstr.
  eapply subseteq_drop; exact Ha.
Qed.

Lemma formatArgs_returns_on_convertible_arguments_witness :
  ∃ out, formatArgs sample_heap
           [VString "%s %d %o"; VObject 0; VString "12px"; VNull; VUndefined]
         = Ok out.
Proof.
  apply (formatArgs_returns_on_convertible_arguments sample_heap).
  repeat constructor.
Defined.

(** ** Styles and left-over arguments in the plain text *)

Lemma format_loop_other h args c tl st :
  ascii_eqb c "%" = false →
  format_loop h args (String c tl) st = format_loop h args tl (emit st (String c "")).
Proof. intros Hc. destruct tl; simpl; by rewrite ?Hc. Qed.

Lemma emit_empty (st : format_state) : emit st "" = st.
Proof. destruct st. unfold emit. simpl. by rewrite str_app_nil_r. Qed.

Lemma format_loop_text h args t rest st :
  no_percent t = true →
  format_loop h args (t +:+ rest) st = format_loop h args rest (emit st t).
Proof.
  revert st. induction t as [|c t IH]; intros st Ht.
  - by rewrite str_app_nil_l, emit_empty.
  - simpl in Ht. apply andb_true_iff in Ht as [Hc Ht]. apply negb_true_iff in Hc.
    rewrite str_app_cons, (format_loop_other _ _ _ _ _ Hc), (IH _ Ht), emit_emit.
    reflexivity.
Qed.

Lemma format_match_index h args c st st1 :
  format_match h args c st = Ok st1 → fmtIndex st ≤ fmtIndex st1.
Proof.
  unfold format_match. destruct (ascii_eqb c "%"); [intros [= <-]; simpl; lia|].
  destruct (args !! fmtIndex st) as [arg|]; [|intros [= <-]; simpl; lia].
  unfold parseInt, parseFloat.
  repeat match goal with |- context [if ?b then _ else _] => destruct b end;
    repeat match goal with |- context [?m ≫= _] =>
      match m with
      | String_ _ _ => destruct m
      | ToString _ _ => destruct m
      | json_or_String _ _ => destruct m
      end; simpl
    end;
    try done; intros [= <-]; simpl; lia.
Qed.

Lemma format_loop_index h args t st st1 :
  format_loop h args t st = Ok st1 → fmtIndex st ≤ fmtIndex st1.
Proof.
  revert st. induction t as [|c|c d s IH1 IH2] using string_ind2; intros st.
  - intros [= <-]. lia.
  - intros [= <-]. simpl. lia.
  - rewrite format_loop_cons2. destruct (ascii_eqb c "%" && plain_specifier d).
    + destruct (format_match h args d st) as [st2| |] eqn:Hm; try done. simpl.
      intros Hl. apply format_match_index in Hm. apply IH1 in Hl. lia.
    + intros Hl. apply IH2 in Hl. simpl in Hl. lia.
Qed.

Lemma format_match_shift h x y x' rest c st :
  1 ≤ fmtIndex st →
  format_match h (x :: y :: rest) c (bump st)
  = bump <$> format_match h (x' :: rest) c st.
Proof.
  intros Hi. destruct st as [out [|i]]; [simpl in Hi; lia|].
  unfold format_match, bump. cbn [fmtIndex output lookup list_lookup].
  destruct (ascii_eqb c "%"); [done|].
  destruct (rest !! i) as [arg|]; [|done].
  unfold parseInt, parseFloat.
  repeat match goal with |- context [if ?b then _ else _] => destruct b end;
    try done.
  - by destruct (String_ h arg).
  - by destruct (ToString h arg).
  - by destruct (ToString h arg).
  - by destruct (json_or_String h arg).
Qed.

Lemma format_loop_shift h x y x' rest t st :
  1 ≤ fmtIndex st →
  format_loop h (x :: y :: rest) t (bump st)
  = bump <$> format_loop h (x' :: rest) t st.
Proof.
  revert st. induction t as [|c|c d s IH1 IH2] using string_ind2; intros st Hi;
    [done..|].
  rewrite !format_loop_cons2. destruct (ascii_eqb c "%" && plain_specifier d).
  - rewrite (format_match_shift _ _ _ x') by done.
    destruct (format_match h (x' :: rest) d st) as [st1| |] eqn:Hm; try done.
    simpl. apply format_match_index in Hm. apply IH1. lia.
  - change (emit (bump st) (String c "")) with (bump (emit st (String c ""))).
    by apply IH2.
Qed.

Lemma format_loop_drops_style h x x' (pre post : string) style rest :
  no_percent pre = true →
  (st ← format_loop h (x :: style :: rest) (pre +:+ "%c" +:+ post) (mkFormat "" 1);
   forR (format_rest_arg h) (drop (fmtIndex st) (x :: style :: rest)) (output st))
  = (st ← format_loop h (x' :: rest) (pre +:+ post) (mkFormat "" 1);
     forR (format_rest_arg h) (drop (fmtIndex st) (x' :: rest)) (output st)).
Proof.
  intros Hpre.
  rewrite (format_loop_text _ _ pre post), (format_loop_text _ _ pre ("%c" +:+ post))
    by done.
  change (emit (mkFormat "" 1) pre) with (mkFormat pre 1).
  change ("%c" +:+ post) with (String "%" (String "c" post)).
  rewrite format_loop_cons2.
  change (ascii_eqb "%" "%" && plain_specifier "c") with true. cbv iota.
  change (format_match h (x :: style :: rest) "c" (mkFormat pre 1))
    with (Ok (bump (mkFormat pre 1))).
  cbn [mbind result_bind].
  rewrite (format_loop_shift _ _ _ x') by (simpl; lia).
  destruct (format_loop h (x' :: rest) post (mkFormat pre 1))
    as [[out [|i]]| |] eqn:Hl; try done.
  apply format_loop_index in Hl. simpl in Hl. lia.
Qed.

(** X4: in the plain text a [%c] and its argument leave no trace: the call
    formats as the call without them does, whatever the style argument is;
    it is never converted to a string. *)
Theorem formatArgs_drops_style (h : heap) (pre post : string) (style : value)
    (rest : list value) :
  no_percent pre = true →
  formatArgs h (VString (pre +:+ "%c" +:+ post) :: style :: rest)
  = formatArgs h (VString (pre +:+ post) :: rest).
Proof. intros Hpre. unfold formatArgs. by apply format_loop_drops_style. Qed.

Lemma formatArgs_drops_style_witness :
  formatArgs sample_heap [VString "Hi %cBig %s"; VObject 1; VString "x"]
  = formatArgs sample_heap [VString "Hi Big %s"; VString "x"].
Proof.
  apply (formatArgs_drops_style sample_heap "Hi " "Big %s" (VObject 1) [VString "x"]).
  reflexivity.
Defined.

Lemma format_rest_arg_text (h : heap) (arg : value) (out : string) :
  format_rest_arg h arg out
  = (s ← rest_text h arg; Ok ((if is_empty out then out else out +:+ " ") +:+ s)).
Proof.
  unfold format_rest_arg, rest_text. destruct (error_stack h arg); [done|].
  by destruct (is_null_or_object h arg).
Qed.

Lemma join_cons2 (sep a b : string) (l : list string) :
  join sep (a :: b :: l) = a +:+ sep +:+ join sep (b :: l).
Proof. reflexivity. Qed.

Lemma forR_rest_text (h : heap) (rest : list value) (texts : list string)
    (out : string) :
  mapR (rest_text h) rest = Ok texts → out ≠ "" →
  forR (format_rest_arg h) rest out = Ok (join " " (out :: texts)).
Proof.
  revert texts out. induction rest as [|a rest IH]; intros texts out Hm Hout.
  - simpl in Hm. by simplify_eq.
  - simpl in Hm. destruct (rest_text h a) as [s| |] eqn:Hs; try done.
    cbn [mbind result_bind] in Hm.
    destruct (mapR (rest_text h) rest) as [texts'| |] eqn:Hr; try done.
    cbn [mbind result_bind] in Hm. simplify_eq.
    cbn [forR]. rewrite format_rest_arg_text, Hs. cbn [mbind result_bind].
    destruct out as [|c out]; [done|]. cbn [is_empty].
    rewrite (IH texts') by (done || by rewrite str_app_cons).
    rewrite join_cons2. destruct texts' as [|s2 texts'].
    + cbn [join String.concat]. by rewrite !str_app_assoc.
    + rewrite !join_cons2. by rewrite !str_app_assoc.
Qed.

Lemma format_loop_plain (h : heap) args (t : string) (i : nat) :
  no_percent t = true →
  format_loop h args t (mkFormat "" i) = Ok (mkFormat t i).
Proof.
  intros Ht. rewrite <- (str_app_nil_r t) at 1.
  by rewrite format_loop_text.
Qed.

(** X5: after a template without specifier the arguments are appended, each
    as its text, with single spaces between: [log('a', x, y)] is the line
    [a X Y].  When the template is empty the first argument starts the line:
    no space stands before it. *)
Theorem formatArgs_appends_rest (h : heap) (t : string) (rest : list value)
    (texts : list string) :
  no_percent t = true → mapR (rest_text h) rest = Ok texts →
  (t ≠ "" → formatArgs h (VString t :: rest) = Ok (join " " (t :: texts))) ∧
  (∀ s texts', texts = s :: texts' → s ≠ "" →
     formatArgs h (VString "" :: rest) = Ok (join " " texts)).
Proof.
  intros Ht Hm. split.
  - intros Hne. unfold formatArgs. rewrite format_loop_plain by done.
    cbn [mbind result_bind fmtIndex output drop]. by apply forR_rest_text.
  - intros s texts' -> Hs. unfold formatArgs. cbn [format_loop].
    cbn [mbind result_bind fmtIndex output drop].
    destruct rest as [|a rest]; [done|]. simpl in Hm.
    destruct (rest_text h a) as [s'| |] eqn:Ha; try done.
    cbn [mbind result_bind] in Hm.
    destruct (mapR (rest_text h) rest) as [ts| |] eqn:Hr; try done.
    cbn [mbind result_bind] in Hm. simplify_eq.
    cbn [forR drop]. rewrite format_rest_arg_text, Ha. cbn [mbind result_bind is_empty].
    rewrite str_app_nil_l. by apply forR_rest_text.
Qed.

Lemma formatArgs_appends_rest_witness :
  formatArgs sample_heap [VString "a"; VNumber (Dec false 1 0); VObject 0; VNull]
  = Ok "a 1 Error: boom null".
Proof.
  apply (formatArgs_appends_rest sample_heap "a"
           [VNumber (Dec false 1 0); VObject 0; VNull]
           ["1"; "Error: boom"; "null"]); done.
Defined.

(** ** The buffers only grow *)

Lemma prefix_app (a b : string) : String.prefix a (a +:+ b) = true.
Proof.
  rewrite <- (str_app_nil_r a) at 1. by rewrite prefix_common, prefix_nil.
Qed.

Lemma prefix_refl (a : string) : String.prefix a a = true.
Proof. rewrite <- (str_app_nil_r a) at 2. apply prefix_app. Qed.

Lemma prefix_split (x y : string) :
  String.prefix x y = true → ∃ u, y = x +:+ u.
Proof.
  revert y. induction x as [|a x IH]; intros y Hp; [by exists y|].
  destruct y as [|b y]; [done|]. rewrite prefix_cons in Hp.
  destruct (ascii_eqb a b) eqn:Hab; [|done].
  apply Ascii.eqb_eq in Hab as ->. destruct (IH y Hp) as [u ->]. by exists u.
Qed.

Lemma grows_refl (vc : VirtualConsole) : grows vc vc.
Proof. unfold grows. by rewrite !prefix_refl. Qed.

Lemma grows_set_fresh (id : option string) (vc vc' : VirtualConsole) :
  grows vc vc' → grows vc (set_fresh id vc').
Proof. by destruct vc'. Qed.

Lemma grows_trans (a b c : VirtualConsole) : grows a b → grows b c → grows a c.
Proof.
  unfold grows. intros (Ho & Hh & Hop & Hb & Hrec) (Ho' & Hh' & Hop' & Hb' & Hrec').
  rewrite Hop in Hrec'.
  assert (Hpre : ∀ x y z, String.prefix x y = true → String.prefix y z = true →
                          String.prefix x z = true).
  { intros x y z [u ->]%prefix_split [v ->]%prefix_split.
    rewrite str_app_assoc. apply prefix_app. }
  split_and!; [by eapply Hpre|by eapply Hpre|congruence|congruence|].
  intros Hr. destruct (Hrec Hr) as [E1 E2]. destruct (Hrec' Hr) as [E3 E4].
  split; congruence.
Qed.

Lemma browser_call_grows `{!AnsiUp} h vc method args vc' evs :
  Browser.call h vc method args = Ok (vc', evs) → grows vc vc'.
Proof.
  unfold Browser.call. destruct (negb (Browser.installed vc method)); [done|].
  destruct (intercepted h (options vc) method args) as [[f e]|].
  { intros [= <- <-]. apply grows_refl. }
  destruct vc as [o oh op bm fr]. simpl.
  destruct (recordOutput op) eqn:Hrec; simpl.
  - destruct (formatArgs h args) as [text| |]; try done. simpl.
    destruct (argsToHtml h args) as [html| |]; try done. simpl.
    intros [= <- <-]. unfold grows. simpl. rewrite !prefix_app, Hrec. done.
  - intros [= <- <-]. unfold grows. simpl. by rewrite !prefix_refl.
Qed.

Lemma node_stream_write_grows vc stderr chunk :
  grows vc (Node.stream_write vc stderr chunk).1.
Proof.
  destruct vc as [o oh op bm fr]. unfold Node.stream_write, grows. simpl.
  destruct (recordOutput op) eqn:Hrec; simpl; by rewrite ?prefix_app, ?prefix_refl.
Qed.

Lemma Writable_write_grows vc s stderr chunk :
  grows vc (Node.Writable_write vc s stderr chunk).1.1.
Proof.
  unfold Node.Writable_write. destruct (Node.writing s); [apply grows_refl|].
  pose proof (node_stream_write_grows vc stderr chunk) as Hg.
  by destruct (Node.stream_write vc stderr chunk).
Qed.

Lemma node_call_on_grows `{!AnsiUp} `{!NodeFormat} h vc ss m args vc' ss' evs :
  Node.call_on h vc ss m args = Ok (vc', ss', evs) → grows vc vc'.
Proof.
  unfold Node.call_on.
  destruct (intercepted h (options vc) (Node.method_name m) args) as [[f e]|].
  { intros [= <- <- <-]. apply grows_refl. }
  assert (Hhtml : ∀ vc1,
    (if recordOutput (options vc) then
       html ← argsToHtml h args;
       Ok (set_buffers (outputs vc) (outputsHtml vc +:+ html +:+ "<br/>" +:+ NL) vc)
     else Ok vc) = Ok vc1 → grows vc vc1).
  { intros vc1. destruct vc as [o oh op bm fr]. simpl.
    destruct (recordOutput op) eqn:Hrec.
    - destruct (argsToHtml h args) as [html| |]; try done. simpl.
      intros [= <-]. unfold grows. simpl. by rewrite prefix_app, prefix_refl, Hrec.
    - intros [= <-]. apply grows_refl. }
  destruct (if recordOutput (options vc) then _ else _) as [vc1| |]; try done.
  specialize (Hhtml vc1 eq_refl). cbn [mbind result_bind].
  destruct (negb (realConsoleOutput (options vc1)) || recordOutput (options vc1)).
  - unfold Node.originalMethod.
    pose proof (Writable_write_grows vc1 (Node.stream_of ss (Node.to_stderr m))
                  (Node.to_stderr m) (node_format h args +:+ NL)) as Hg.
    destruct (Node.Writable_write vc1 _ _ _) as [[vc2 s2] evs2].
    intros [= <- <- <-]. by eapply grows_trans.
  - case_bool_decide; [|done]. intros [= <- <- <-]. by apply grows_set_fresh.
Qed.

Lemma node_call_grows `{!AnsiUp} `{!NodeFormat} h vc m args vc' evs :
  Node.call h vc m args = Ok (vc', evs) → grows vc vc'.
Proof.
  unfold Node.call.
  destruct (Node.call_on h vc Node.idle_streams m args)
    as [[[vc1 ss1] evs1]| |] eqn:Hc; try done.
  intros [= <- <-]. by eapply node_call_on_grows.
Qed.

Lemma node_freshLine_on_grows `{!AnsiUp} `{!NodeFormat} h vc ss id args vc' ss' evs :
  Node.freshLine_on h vc ss id args = Ok (vc', ss', evs) → grows vc vc'.
Proof.
  unfold Node.freshLine_on.
  destruct (supportsAnsi (options vc) && bool_decide (loggedFreshLineId vc = Some id)).
  - pose proof (Writable_write_grows vc (Node._stdout ss) false Node.overwrite_line)
      as Hw.
    destruct (Node.Writable_write vc _ false Node.overwrite_line) as [[vc0 s0] evs0].
    destruct (Node.call_on h vc0 _ Node.log args) as [[[vc1 ss1] evs1]| |] eqn:Hc;
      try done.
    intros [= <- <- <-]. apply grows_set_fresh.
    eapply grows_trans; [exact Hw|]. by eapply node_call_on_grows.
  - destruct (Node.call_on h vc ss Node.log args) as [[[vc1 ss1] evs1]| |] eqn:Hc;
      try done.
    intros [= <- <- <-]. by eapply grows_set_fresh, node_call_on_grows.
Qed.

(** X6: no logging call takes anything away from the buffers: after a call
    of a console method or of [freshLine] that returns, in either
    implementation, each buffer starts with what it held before, the
    configuration is the same, and nothing was added when recording is
    disabled. *)
Theorem logging_only_appends `{!AnsiUp} `{!NodeFormat}
    (h : heap) (vc vc' : VirtualConsole) (args : list value) (evs : list event) :
  (∀ method, Browser.call h vc method args = Ok (vc', evs) → grows vc vc') ∧
  (∀ id, Browser.freshLine h vc id args = Ok (vc', evs) → grows vc vc') ∧
  (∀ m, Node.call h vc m args = Ok (vc', evs) → grows vc vc') ∧
  (∀ id, Node.freshLine h vc id args = Ok (vc', evs) → grows vc vc').
Proof.
  split_and!.
  - intros method. apply browser_call_grows.
  - intros id. unfold Browser.freshLine.
    destruct (Browser.call h vc "log" args) as [[vc1 evs1]| |] eqn:Hc; try done.
    intros [= <- <-]. by eapply grows_set_fresh, browser_call_grows.
  - intros m. apply node_call_grows.
  - intros id. unfold Node.freshLine.
    destruct (Node.freshLine_on h vc Node.idle_streams id args)
      as [[[vc1 ss1] evs1]| |] eqn:Hf; try done.
    intros [= <- <-]. by eapply node_freshLine_on_grows.
Qed.

Lemma logging_only_appends_witness :
  grows (mkConsole "a" "b" recording console_methods None)
        (mkConsole ("a" +:+ "hi" +:+ NL) ("b" +:+ "hi" +:+ "<br/>" +:+ NL)
           recording console_methods None).
Proof.
  destruct (logging_only_appends (H := text_only_ansi) (H0 := plain_node_format) []
              (mkConsole "a" "b" recording console_methods None)
              (mkConsole ("a" +:+ "hi" +:+ NL) ("b" +:+ "hi" +:+ "<br/>" +:+ NL)
                 recording console_methods None)
              [VString "hi"] []) as [Hb _].
  apply (Hb "log"). vm_compute. reflexivity.
Defined.

(** ** The overwritable line in Node *)

Lemma node_call_state `{!AnsiUp} `{!NodeFormat} h vc m args vc' evs :
  Node.call h vc m args = Ok (vc', evs) →
  intercepted h (options vc) (Node.method_name m) args = None →
  loggedFreshLineId vc' = None ∧ options vc' = options vc ∧
  outputs vc'
  = (if recordOutput (options vc) then outputs vc +:+ node_format h args +:+ NL
     else outputs vc).
Proof.
  rewrite node_call_idle. intros Hc Hi. rewrite Hi in Hc.
  destruct vc as [o oh op bm fr]. simpl in *.
  destruct op as [real rec ansi eh]. simpl in *.
  destruct rec; simpl in Hc.
  - destruct (argsToHtml h args); try done. simpl in Hc.
    rewrite orb_true_r in Hc. by injection Hc as <- <-.
  - destruct real; simpl in Hc; [|by injection Hc as <- <-].
    case_bool_decide; [by injection Hc as <- <-|done].
Qed.

Lemma intercepted_log (h : heap) (o : console_options) (args : list value) :
  intercepted h o "log" args = None.
Proof. reflexivity. Qed.

Lemma node_freshLine_state `{!AnsiUp} `{!NodeFormat} h vc id args vc' evs :
  realConsoleOutput (options vc) = false →
  Node.freshLine h vc id args = Ok (vc', evs) →
  loggedFreshLineId vc' = Some id ∧ options vc' = options vc ∧
  evs = (if (supportsAnsi (options vc) && bool_decide (loggedFreshLineId vc = Some id)) && realConsoleOutput (options vc)
         then [StreamWrite false Node.overwrite_line] else [])
        ++ (if realConsoleOutput (options vc) then
              if recordOutput (options vc)
              then [StreamWrite false (node_format h args +:+ NL)]
              else [BaseCall "log" args]
            else []) ∧
  outputs vc'
  = (if recordOutput (options vc)
     then outputs vc +:+ (if (supportsAnsi (options vc) && bool_decide (loggedFreshLineId vc = Some id)) then Node.overwrite_line else "")
          +:+ node_format h args +:+ NL
     else outputs vc).
Proof.
  intros Hreal. rewrite (node_freshLine_idle _ _ _ _ Hreal). clear Hreal. intros Hf.
  destruct (supportsAnsi (options vc) && bool_decide (loggedFreshLineId vc = Some id)).
  - destruct (Node.stream_write vc false Node.overwrite_line) as [vc0 evs0] eqn:Hw.
    destruct (Node.call h vc0 Node.log args) as [[vc1 evs1]| |] eqn:Hc; try done.
    injection Hf as <- <-.
    assert (Hvc0 : options vc0 = options vc ∧
                   outputs vc0 = (if recordOutput (options vc)
                                  then outputs vc +:+ Node.overwrite_line
                                  else outputs vc) ∧
                   evs0 = if realConsoleOutput (options vc)
                          then [StreamWrite false Node.overwrite_line] else []).
    { unfold Node.stream_write in Hw. destruct vc as [o oh op bm fr]. simpl in *.
      injection Hw as <- <-. by destruct (recordOutput op). }
    destruct Hvc0 as (Hop & Hout & ->).
    pose proof (node_call_events _ _ _ _ _ _ Hc (intercepted_log _ _ _)) as ->.
    destruct (node_call_state _ _ _ _ _ _ Hc (intercepted_log _ _ _))
      as (_ & Hop1 & Hout1).
    rewrite Hop in *. split_and!; [by destruct vc1|by destruct vc1| |].
    + by destruct (realConsoleOutput (options vc)).
    + replace (outputs (set_fresh (Some id) vc1)) with (outputs vc1) by by destruct vc1.
      rewrite Hout1, Hout. destruct (recordOutput (options vc)); [|done].
      by rewrite !str_app_assoc.
  - destruct (Node.call h vc Node.log args) as [[vc1 evs1]| |] eqn:Hc; try done.
    injection Hf as <- <-.
    pose proof (node_call_events _ _ _ _ _ _ Hc (intercepted_log _ _ _)) as ->.
    destruct (node_call_state _ _ _ _ _ _ Hc (intercepted_log _ _ _))
      as (_ & Hop1 & Hout1).
    split_and!; [by destruct vc1|by destruct vc1|done|].
    replace (outputs (set_fresh (Some id) vc1)) with (outputs vc1) by by destruct vc1.
    rewrite Hout1. by destruct (recordOutput (options vc)).
Qed.

(** X7: in Node, on a recording instance with ANSI support and without
    pass-through (its virtual stream completes a write at once), a
    [freshLine] writes the escape sequence (cursor up, erase line) before its
    line exactly when the line before came from a [freshLine] with the same
    id and nothing was logged in between.  The sequence and the new line are
    appended to [outputs]: the line they replace on a terminal stays in the
    buffer. *)
Theorem node_freshLine_overwrites `{!AnsiUp} `{!NodeFormat}
    (h : heap) (vc vc1 : VirtualConsole) (id : string) (args1 args2 : list value)
    (evs1 : list event) :
  supportsAnsi (options vc) = true → realConsoleOutput (options vc) = false →
  recordOutput (options vc) = true →
  Node.freshLine h vc id args1 = Ok (vc1, evs1) →
  (∀ vc2 evs2, Node.freshLine h vc1 id args2 = Ok (vc2, evs2) →
     outputs vc2 = outputs vc1 +:+ Node.overwrite_line
                   +:+ node_format h args2 +:+ NL) ∧
  (∀ id' vc2 evs2, id' ≠ id → Node.freshLine h vc1 id' args2 = Ok (vc2, evs2) →
     outputs vc2 = outputs vc1 +:+ node_format h args2 +:+ NL) ∧
  (∀ m args vcm evm vc2 evs2,
     intercepted h (options vc) (Node.method_name m) args = None →
     Node.call h vc1 m args = Ok (vcm, evm) →
     Node.freshLine h vcm id args2 = Ok (vc2, evs2) →
     outputs vc2 = outputs vcm +:+ node_format h args2 +:+ NL).
Proof.
  intros Hansi Hreal Hrec Hf1.
  destruct (node_freshLine_state _ _ _ _ _ _ Hreal Hf1) as (Hid1 & Hop1 & _).
  assert (Hreal1 : realConsoleOutput (options vc1) = false) by by rewrite Hop1.
  split_and!.
  - intros vc2 evs2 Hf2.
    destruct (node_freshLine_state _ _ _ _ _ _ Hreal1 Hf2) as (_ & _ & _ & ->).
    by rewrite Hop1, Hid1, Hansi, Hrec, bool_decide_true.
  - intros id' vc2 evs2 Hne Hf2.
    destruct (node_freshLine_state _ _ _ _ _ _ Hreal1 Hf2) as (_ & _ & _ & ->).
    rewrite Hop1, Hid1, Hansi, Hrec.
    rewrite bool_decide_false by congruence. done.
  - intros m args vcm evm vc2 evs2 Hi Hc Hf2.
    rewrite <- Hop1 in Hi.
    destruct (node_call_state _ _ _ _ _ _ Hc Hi) as (Hidm & Hopm & _).
    assert (Hrealm : realConsoleOutput (options vcm) = false) by by rewrite Hopm.
    destruct (node_freshLine_state _ _ _ _ _ _ Hrealm Hf2) as (_ & _ & _ & ->).
    by rewrite Hopm, Hop1, Hidm, Hansi, Hrec.
Qed.

Lemma node_freshLine_overwrites_witness :
  let o := mkOptions false true true None in
  let vc1 := mkConsole ("1%" +:+ NL) ("1%<br/>" +:+ NL) o console_methods (Some "bar") in
  let vc2 := mkConsole (("1%" +:+ NL) +:+ Node.overwrite_line +:+ "2%" +:+ NL)
               (("1%<br/>" +:+ NL) +:+ "2%" +:+ "<br/>" +:+ NL)
               o console_methods (Some "bar") in
  Node.freshLine (H := text_only_ansi) (H0 := plain_node_format) [] vc1 "bar"
    [VString "2%"] = Ok (vc2, [])
  ∧ outputs vc2 = outputs vc1 +:+ Node.overwrite_line +:+ "2%" +:+ NL.
Proof.
  intros o vc1 vc2.
  assert (Hf2 : Node.freshLine (H := text_only_ansi) (H0 := plain_node_format) []
                  vc1 "bar" [VString "2%"] = Ok (vc2, [])) by by vm_compute.
  split; [exact Hf2|].
  destruct (node_freshLine_overwrites (H := text_only_ansi) (H0 := plain_node_format)
              [] (mkConsole "" "" o console_methods None) vc1 "bar"
              [VString "1%"] [VString "2%"] []
              eq_refl eq_refl eq_refl ltac:(by vm_compute)) as (Hsame & _).
  exact (Hsame _ _ Hf2).
Defined.

(** ** Two runs at once in the browser *)

(** X8: in [browser.mjs] the active instance is one cell, and a run restores
    what it found: when a second [consoleReflectRun] starts while the first
    is suspended, finishing in the reverse order restores the binding from
    before both, but when the first finishes first the second goes on under
    the binding from before both, and after it the cell holds what the first
    left, its own instance if [fn] did not rebind. *)
Theorem browser_overlapping_runs (a b : instance) (fnA fnB : callee)
    (prior c1 c2 : option instance) (stA stB : Browser.run_state) :
  (∃ r s, (fnA (Some a)).1 = Returns r ∧ Promise_resolve r = Some s) →
  (∃ r s, (fnB (Some b)).1 = Returns r ∧ Promise_resolve r = Some s) →
  Browser.consoleReflectRun_start a fnA prior = (c1, stA) →
  Browser.consoleReflectRun_start b fnB c1 = (c2, stB) →
  c1 = (fnA (Some a)).2 ∧ c2 = (fnB (Some b)).2 ∧
  finish stA (finish stB c2) = prior ∧
  finish stA c2 = prior ∧
  finish stB (finish stA c2) = c1.
Proof.
  intros (rA & sA & HA & HsA) (rB & sB & HB & HsB).
  unfold Browser.consoleReflectRun_start.
  destruct (fnA (Some a)) as [cA cellA]. destruct (fnB (Some b)) as [cB cellB].
  simpl in *. subst cA cB. rewrite HsA, HsB.
  intros [= <- <-] [= <- <-]. done.
Qed.

Lemma browser_overlapping_runs_witness :
  let fn : callee := λ c, (Returns (Plain VUndefined), c) in
  let stA := Browser.Suspended None (Some (Fulfilled VUndefined)) in
  let stB := Browser.Suspended (Some 1) (Some (Fulfilled VUndefined)) in
  finish stB (finish stA (Some 2)) = Some 1.
Proof.
  intros fn stA stB.
  apply (browser_overlapping_runs 1 2 fn fn None (Some 1) (Some 2) stA stB).
  - by exists (Plain VUndefined), (Fulfilled VUndefined).
  - by exists (Plain VUndefined), (Fulfilled VUndefined).
  - reflexivity.
  - reflexivity.
Defined.

(** ** Writing and reading through the facade *)

(** X9: what is assigned through the facade to a property other than
    [__proto__] is read back through it while the same instance is active,
    whether the value went to the instance or to the shared record; every
    other property reads as before, and no other instance is touched. *)
Theorem facade_set_then_get (property : string) (v : value) (r : Browser.realm) :
  property ≠ "__proto__" →
  ∃ r', Browser.facade_set property v r = Some (r', true) ∧
    Browser.facade_get property r' = Some v ∧
    (∀ other, other ≠ property →
       Browser.facade_get other r' = Browser.facade_get other r) ∧
    (∀ i, i ≠ Browser.consoleReflect (Browser.currentAsyncConsole r) →
       Browser.own_of r' i = Browser.own_of r i).
Proof.
  intros Hne. unfold Browser.facade_get, Browser.facade_set.
  assert (∀ own, Browser.reaches_proto_setter own property = false) as ->.
  { intros own. unfold Browser.reaches_proto_setter.
    by rewrite bool_decide_eq_false_2. }
  rewrite (bool_decide_eq_false_2 (property = _)) by done.
  destruct (Browser.has_property _ property) eqn:Hp;
    (eexists; split; [reflexivity|]).
  - unfold Browser.own_of. cbn [Browser.objects Browser.currentAsyncConsole
      Browser.globalConsoleAdditionalProperties].
    rewrite lookup_insert_eq. cbn [from_option id]. split_and!.
    + apply lookup_union_Some_l, lookup_insert_eq.
    + intros other Ho. destruct (bool_decide (other = _)); [done|].
      rewrite !lookup_union, lookup_insert_ne by done. done.
    + intros i Hi. by rewrite lookup_insert_ne.
  - apply has_property_false in Hp as [Hp _].
    cbn [Browser.objects Browser.currentAsyncConsole
      Browser.globalConsoleAdditionalProperties]. split_and!.
    + rewrite lookup_union_r by done. apply lookup_insert_eq.
    + intros other Ho. destruct (bool_decide (other = _)); [done|].
      rewrite !lookup_union, lookup_insert_ne by done. done.
    + done.
Qed.

Lemma facade_set_then_get_witness :
  let r := Browser.mkRealm
     {[ 1 := Browser.own_properties (Browser.new_VirtualConsole ["log"] recording) 10 ]}
     (Some 1) ∅ in
  ∃ r', Browser.facade_set "valueOf" (VString "mine") r = Some (r', true)
      ∧ Browser.facade_get "valueOf" r' = Some (VString "mine").
Proof.
  intros r.
  destruct (facade_set_then_get "valueOf" (VString "mine") r ltac:(done))
    as (r' & Hset & Hget & _).
  exists r'. split; [exact Hset | exact Hget].
Defined.

(** ** escapeHtml loses nothing *)

Lemma unescape_from_skip (a s : string) :
  unescape_from (String.length a) (a +:+ s) = unescape_from 0 s.
Proof. induction a as [|c a IH]; [done|]. by rewrite str_app_cons. Qed.

Lemma unescape_from_entity (c : ascii) (rest : string) :
  unescape_from 0 (escape_html_char c +:+ rest) = String c (unescape_from 0 rest).
Proof.
  unfold escape_html_char.
  destruct (ascii_eqb c "&") eqn:Hamp.
  { apply Ascii.eqb_eq in Hamp as ->.
    change ("&amp;" +:+ rest) with (String "&" ("amp;" +:+ rest)).
    cbn [unescape_from]. rewrite <- str_app_cons.
    rewrite (prefix_known_correct "&amp;" "&amp;" true) by reflexivity.
    by rewrite (unescape_from_skip "amp;"). }
  destruct (ascii_eqb c DQc) eqn:Hdq.
  { apply Ascii.eqb_eq in Hdq as ->.
    change ("&quot;" +:+ rest) with (String "&" ("quot;" +:+ rest)).
    cbn [unescape_from]. rewrite <- !str_app_cons.
    rewrite (prefix_known_correct "&amp;" "&quot;" false) by reflexivity.
    rewrite (prefix_known_correct "&quot;" "&quot;" true) by reflexivity.
    by rewrite (unescape_from_skip "quot;"). }
  destruct (ascii_eqb c "<") eqn:Hlt.
  { apply Ascii.eqb_eq in Hlt as ->.
    change ("&lt;" +:+ rest) with (String "&" ("lt;" +:+ rest)).
    cbn [unescape_from]. rewrite <- !str_app_cons.
    rewrite (prefix_known_correct "&amp;" "&lt;" false) by reflexivity.
    rewrite (prefix_known_correct "&quot;" "&lt;" false) by reflexivity.
    rewrite (prefix_known_correct "&lt;" "&lt;" true) by reflexivity.
    by rewrite (unescape_from_skip "lt;"). }
  destruct (ascii_eqb c ">") eqn:Hgt.
  { apply Ascii.eqb_eq in Hgt as ->.
    change ("&gt;" +:+ rest) with (String "&" ("gt;" +:+ rest)).
    cbn [unescape_from]. rewrite <- !str_app_cons.
    rewrite (prefix_known_correct "&amp;" "&gt;" false) by reflexivity.
    rewrite (prefix_known_correct "&quot;" "&gt;" false) by reflexivity.
    rewrite (prefix_known_correct "&lt;" "&gt;" false) by reflexivity.
    rewrite (prefix_known_correct "&gt;" "&gt;" true) by reflexivity.
    by rewrite (unescape_from_skip "gt;"). }
  rewrite str_app_cons, str_app_nil_l. cbn [unescape_from].
  assert (Hc : ascii_eqb "&" c = false).
  { unfold ascii_eqb in *. by rewrite Ascii.eqb_sym. }
  by rewrite !prefix_cons, Hc.
Qed.

Lemma unescape_escape (s : string) : unescapeHtml (escapeHtml s) = s.
Proof.
  unfold unescapeHtml. rewrite escapeHtml_chars.
  induction s as [|c s IH]; [done|].
  by rewrite str_flat_map_cons, unescape_from_entity, IH.
Qed.

(** X10: [escapeHtml] loses nothing and never escapes twice: decoding the
    four entities of its result gives the text back, so two different texts
    never escape to the same one; a text without [&], double quote, [<] and
    [>] is left as it is. *)
Theorem escapeHtml_round_trip (s : string) :
  unescapeHtml (escapeHtml s) = s ∧
  (∀ t, escapeHtml s = escapeHtml t → s = t) ∧
  (str_forallb (λ c, attr_safe_char c && negb (ascii_eqb c "&")) s = true →
   escapeHtml s = s).
Proof.
  split_and!.
  - apply unescape_escape.
  - intros t Heq. by rewrite <- (unescape_escape s), Heq, unescape_escape.
  - rewrite escapeHtml_chars. induction s as [|c s IH]; [done|].
    simpl. intros [Hc Hs]%andb_true_iff. rewrite (IH Hs).
    apply andb_true_iff in Hc as [Hsafe Hamp]. unfold attr_safe_char in Hsafe.
    apply andb_true_iff in Hsafe as [Hsafe Hgt].
    apply andb_true_iff in Hsafe as [Hdq Hlt].
    apply negb_true_iff in Hamp, Hgt, Hdq, Hlt.
    unfold escape_html_char. by rewrite Hamp, Hdq, Hlt, Hgt.
Qed.

(** ** The numbering of circular references *)

Lemma forR_invariant {A S} (P : S → Prop) (f : A → S → result S) (xs : list A) :
  (∀ x s s', f x s = Ok s' → P s → P s') →
  ∀ s s', forR f xs s = Ok s' → P s → P s'.
Proof.
  intros Hf. induction xs as [|x xs IH]; intros s s' Hr Hs; simpl in Hr.
  - by simplify_eq.
  - destruct (f x s) as [s1| |] eqn:Hx; try done. simpl in Hr.
    eapply IH; [done|]. by eapply Hf.
Qed.

Lemma ids_numbered_insert (st : scan_state) (l : loc) :
  ids_numbered st → circularIds st !! l = None →
  ids_numbered (mkScan (<[l := idCounter st]> (circularIds st)) (walkStack st)
                  (S (idCounter st))).
Proof.
  intros (Hpos & Hrange & Hsurj & Hinj) Hnone. unfold ids_numbered. simpl.
  split_and!.
  - rewrite map_size_insert_None by done. lia.
  - intros l' n. rewrite lookup_insert_Some. intros [[<- <-]|[_ Hl']]; [lia|].
    apply Hrange in Hl'. lia.
  - intros n H1 Hn. destruct (decide (n = idCounter st)) as [->|Hne].
    + exists l. apply lookup_insert_eq.
    + destruct (Hsurj n) as [l' Hl']; [lia..|]. exists l'.
      rewrite lookup_insert_ne; [done|]. intros <-. congruence.
  - intros l1 l2 n. rewrite !lookup_insert_Some.
    intros [[<- <-]|[_ H1]] [[<- Heq]|[_ H2]]; try done.
    + apply Hrange in H2. lia.
    + apply Hrange in H1. lia.
    + by eapply Hinj.
Qed.

Lemma scan_numbering (fuel : nat) (h : heap) (v : value) (st st' : scan_state) :
  scan fuel h v st = Ok st' →
  (ids_numbered st → ids_numbered st') ∧ walkStack st' = walkStack st.
Proof.
  revert v st st'. induction fuel as [|fuel IH]; intros v st st' Hs.
  - destruct v as [| | | | | | | |l]; try (simpl in Hs; by simplify_eq).
    destruct (h !! l) as [o|] eqn:Hl;
      [|simpl in Hs; rewrite Hl in Hs; by simplify_eq].
    rewrite (scan_VObject _ _ _ _ _ Hl) in Hs.
    case_bool_decide; [|done].
    destruct (circularIds st !! l) eqn:Hid; simplify_eq; [done|].
    split; [|done]. intros Hn. by apply ids_numbered_insert.
  - destruct v as [| | | | | | | |l]; try (simpl in Hs; by simplify_eq).
    destruct (h !! l) as [o|] eqn:Hl;
      [|simpl in Hs; rewrite Hl in Hs; by simplify_eq].
    rewrite (scan_VObject _ _ _ _ _ Hl) in Hs.
    case_bool_decide as Hin.
    { destruct (circularIds st !! l) eqn:Hid; simplify_eq; [done|].
      split; [|done]. intros Hn. by apply ids_numbered_insert. }
    destruct (forR _ (own_keys o) _) as [st2| |] eqn:Hfor; try done.
    simpl in Hs. simplify_eq.
    pose proof (forR_invariant
      (λ s, (ids_numbered (mkScan (circularIds st) ({[l]} ∪ walkStack st)
                             (idCounter st)) → ids_numbered s)
            ∧ walkStack s = {[l]} ∪ walkStack st)
      (λ kv, scan fuel h kv.2) (own_keys o)) as Hinv.
    destruct (Hinv ltac:(
        intros kv s s' Hkv [Hn Hw]; destruct (IH _ _ _ Hkv) as [Hn' Hw'];
        split; [tauto|congruence]) _ _ Hfor ltac:(done)) as [Hn2 Hw2].
    simpl. split.
    + intros Hn. specialize (Hn2 Hn). exact Hn2.
    + rewrite Hw2. set_solver.
Qed.

(** X11: the reference identifiers [scan] hands out are [1], [2], ... without
    gap, and no two objects share one: a marker [[Circular *n]] and a prefix
    [<ref *n>] name one object.  [scan] leaves [walkStack] as it found it. *)
Theorem scan_numbers_references (fuel : nat) (h : heap) (target : value)
    (st : scan_state) :
  scan fuel h target scan_init = Ok st →
  walkStack st = ∅ ∧
  idCounter st = S (size (circularIds st)) ∧
  (∀ l n, circularIds st !! l = Some n → 1 ≤ n ∧ n ≤ size (circularIds st)) ∧
  (∀ n, 1 ≤ n → n ≤ size (circularIds st) → ∃ l, circularIds st !! l = Some n) ∧
  (∀ l1 l2 n, circularIds st !! l1 = Some n → circularIds st !! l2 = Some n →
     l1 = l2).
Proof.
  intros Hs. destruct (scan_numbering _ _ _ _ _ Hs) as [Hn Hw].
  destruct Hn as (Hsize & Hrange & Hsurj & Hinj).
  { unfold ids_numbered, scan_init. simpl. split_and!; try done.
    intros n ??. simpl in *. lia. }
  rewrite Hsize in Hrange, Hsurj.
  split_and!; [done|done| | |done].
  - intros l n Hl. apply Hrange in Hl. lia.
  - intros n H1 Hn. apply Hsurj; lia.
Qed.

Lemma scan_numbers_references_witness :
  scan 1 self_referential (VObject 0) scan_init = Ok (mkScan {[0 := 1]} ∅ 2)
  ∧ ∃ l, ({[0 := 1]} : gmap loc nat) !! l = Some 1.
Proof.
  assert (Hs : scan 1 self_referential (VObject 0) scan_init
               = Ok (mkScan {[0 := 1]} ∅ 2)) by by vm_compute.
  split; [exact Hs|].
  destruct (scan_numbers_references 1 self_referential (VObject 0) _ Hs)
    as (_ & _ & _ & Hsurj & _).
  apply (Hsurj 1); [lia|]. simpl. rewrite map_size_singleton. lia.
Defined.

(** ** Values without cycle *)

Lemma forallb_imap_lookup {A} (f : nat → A → bool) (xs : list A) (i : nat) (x : A) :
  forallb id (imap f xs) = true → xs !! i = Some x → f i x = true.
Proof.
  revert f i. induction xs as [|y xs IH]; intros f i Hall Hi; [done|].
  simpl in Hall. apply andb_true_iff in Hall as [Hy Hall].
  destruct i as [|i]; simpl in Hi; [by simplify_eq|].
  by apply (IH (f ∘ S)).
Qed.

Lemma own_keys_props (o : object) (kv : key * value) :
  kv ∈ own_keys o → kv ∈ props o.
Proof.
  unfold own_keys. intros [H|H]%elem_of_app;
    apply list_elem_of_In, filter_In in H as [H _]; by apply list_elem_of_In.
Qed.

Lemma forR_invariant_in {A S} (P : S → Prop) (f : A → S → result S) (xs : list A) :
  (∀ x s s', x ∈ xs → f x s = Ok s' → P s → P s') →
  ∀ s s', forR f xs s = Ok s' → P s → P s'.
Proof.
  induction xs as [|x xs IH]; intros Hf s s' Hr Hs; simpl in Hr.
  - by simplify_eq.
  - destruct (f x s) as [s1| |] eqn:Hx; try done. simpl in Hr.
    eapply IH; [|done|].
    + intros y t t' Hy. apply Hf. set_solver.
    + eapply Hf; [|done..]. set_solver.
Qed.

Lemma scan_ranked (rank : loc → nat) (fuel : nat) (h : heap) (v : value)
    (st st' : scan_state) :
  ranked rank h = true →
  scan fuel h v st = Ok st' →
  (∀ l x, v = VObject l → x ∈ walkStack st → rank l < rank x) →
  circularIds st' = circularIds st.
Proof.
  intros Hr. revert v st st'. induction fuel as [|fuel IH]; intros v st st' Hs Hws;
    (destruct v as [| | | | | | | |l]; try (simpl in Hs; by simplify_eq));
    (destruct (h !! l) as [o|] eqn:Hl;
      [|simpl in Hs; rewrite Hl in Hs; by simplify_eq]);
    rewrite (scan_VObject _ _ _ _ _ Hl) in Hs;
    (case_bool_decide as Hin;
      [specialize (Hws l l eq_refl Hin); lia|]); [done|].
  destruct (forR _ (own_keys o) _) as [st2| |] eqn:Hfor; try done.
  simpl in Hs. simplify_eq. simpl.
  pose proof (forallb_imap_lookup _ _ _ _ Hr Hl) as Hdesc.
  unfold descends in Hdesc. rewrite forallb_forall in Hdesc.
  refine (proj1 (forR_invariant_in
    (λ s, circularIds s = circularIds st ∧ walkStack s = {[l]} ∪ walkStack st)
    (λ kv, scan fuel h kv.2) (own_keys o) _ _ _ Hfor _)); [|done].
  intros kv s s' Hkv Hscan [Hids Hw]. split.
  - rewrite <- Hids. eapply IH; [done|].
    intros l' x Hv Hx. rewrite Hw in Hx.
    specialize (Hdesc kv). rewrite Hv in Hdesc.
    apply Nat.ltb_lt in Hdesc;
      [|by apply list_elem_of_In, own_keys_props].
    apply elem_of_union in Hx as [->%elem_of_singleton|Hx]; [done|].
    specialize (Hws l x eq_refl Hx). lia.
  - destruct (scan_numbering _ _ _ _ _ Hscan) as [_ ->]. done.
Qed.

Lemma mapS_fst_ext {A B S} (f : A → S → result (B * S)) (xs : list A) :
  (∀ x s1 s2, fst <$> f x s1 = fst <$> f x s2) →
  ∀ s1 s2, fst <$> mapS f xs s1 = fst <$> mapS f xs s2.
Proof.
  intros Hf. induction xs as [|x xs IH]; intros s1 s2; [done|]. simpl.
  specialize (Hf x s1 s2).
  destruct (f x s1) as [[y1 t1]| |], (f x s2) as [[y2 t2]| |]; simplify_eq/=; try done.
  specialize (IH t1 t2).
  destruct (mapS f xs t1) as [[ys1 u1]| |], (mapS f xs t2) as [[ys2 u2]| |];
    simplify_eq/=; done.
Qed.

Lemma format_no_ids (fuel : nat) (h : heap) depth (v : value) (cur : nat)
    (seen1 seen2 : gset loc) :
  fst <$> format fuel h ∅ depth v cur seen1
  = fst <$> format fuel h ∅ depth v cur seen2.
Proof.
  revert v cur seen1 seen2.
  induction fuel as [|fuel IH]; intros v cur seen1 seen2.
  - destruct v as [| | | | | | | |l]; try done.
    destruct (h !! l) as [o|] eqn:Hl; [|by simpl; rewrite Hl].
    destruct (special_object o) as [r|] eqn:Hsp.
    { rewrite !(format_special _ _ _ _ _ _ _ _ _ Hl Hsp). by destruct r. }
    rewrite !(format_VObject _ _ _ _ _ _ _ _ Hl Hsp), !lookup_empty.
    destruct (bool_decide (l ∈ seen1)), (bool_decide (l ∈ seen2));
      destruct (exceeds cur depth); try done; by case_bool_decide.
  - destruct v as [| | | | | | | |l]; try done.
    destruct (h !! l) as [o|] eqn:Hl; [|by simpl; rewrite Hl].
    destruct (special_object o) as [r|] eqn:Hsp.
    { rewrite !(format_special _ _ _ _ _ _ _ _ _ Hl Hsp). by destruct r. }
    rewrite !(format_VObject _ _ _ _ _ _ _ _ Hl Hsp), !lookup_empty.
    assert (Hkeys : ∀ s1 s2,
      fst <$> mapS (λ kv seen,
          '(valStr, seen) ← format fuel h ∅ depth kv.2 (cur + 1) seen;
          Ok (repeat_str TAB (cur + 1)
              +:+ format_key (is_array_class (oclass o)) kv.1 +:+ valStr, seen))
        (own_keys o) s1
      = fst <$> mapS (λ kv seen,
          '(valStr, seen) ← format fuel h ∅ depth kv.2 (cur + 1) seen;
          Ok (repeat_str TAB (cur + 1)
              +:+ format_key (is_array_class (oclass o)) kv.1 +:+ valStr, seen))
        (own_keys o) s2).
    { apply mapS_fst_ext. intros kv t1 t2. specialize (IH kv.2 (cur + 1) t1 t2).
      destruct (format fuel h ∅ depth kv.2 (cur + 1) t1) as [[y1 u1]| |],
               (format fuel h ∅ depth kv.2 (cur + 1) t2) as [[y2 u2]| |];
        simplify_eq/=; done. }
    specialize (Hkeys ({[l]} ∪ seen1) ({[l]} ∪ seen2)).
    destruct (bool_decide (l ∈ seen1)), (bool_decide (l ∈ seen2));
      destruct (exceeds cur depth); try done; case_bool_decide; try done;
      destruct (mapS _ (own_keys o) ({[l]} ∪ seen1)) as [[ys1 u1]| |],
               (mapS _ (own_keys o) ({[l]} ∪ seen2)) as [[ys2 u2]| |];
      simplify_eq/=; done.
Qed.

(** X12: on a heap without cycle [scan] hands out no identifier, also when
    an object is reached twice, so [circularToString] writes no [<ref *n>]
    and no [[Circular *n]]: its text is the plain rendering, and the text of
    a value does not depend on what was rendered before it. *)
Theorem acyclic_values_render_plainly (rank : loc → nat) (h : heap)
    (target : value) (depth : option nat) :
  ranked rank h = true →
  (∀ fuel st, scan fuel h target scan_init = Ok st → circularIds st = ∅) ∧
  circularToString h target depth
  = fst <$> format (length h) h ∅ depth target 0 ∅ ∧
  (∀ fuel v cur seen,
     fst <$> format fuel h ∅ depth v cur seen
     = fst <$> format fuel h ∅ depth v cur ∅).
Proof.
  intros Hr.
  assert (Hscan : ∀ fuel st, scan fuel h target scan_init = Ok st →
                             circularIds st = ∅).
  { intros fuel st Hs. rewrite (scan_ranked rank _ _ _ _ _ Hr Hs); [done|].
    intros l x _ Hx. simpl in Hx. set_solver. }
  split_and!; [done| |intros; apply format_no_ids].
  unfold circularToString.
  destruct (scan_format_walk_alike h depth ∅ (length h) target scan_init)
    as (st & Hs & _); [set_solver|simpl; lia|].
  rewrite Hs. cbn [mbind result_bind]. rewrite (Hscan _ _ Hs).
  by destruct (format _ _ _ _ _ _ _) as [[s seen]| |].
Qed.

Lemma acyclic_values_render_plainly_witness :
  circularToString shared_twice (VObject 0) None
  = fst <$> format 2 shared_twice ∅ None (VObject 0) 0 ∅.
Proof.
  apply (acyclic_values_render_plainly (λ l, 1 - l) shared_twice (VObject 0) None).
  reflexivity.
Defined.

(** ** The HTML line is trimmed *)

Lemma first_char_trimStart (s : string) (c : ascii) :
  first_char (trimStart s) = Some c → is_space c = false.
Proof.
  induction s as [|a s IH]; [done|]. simpl.
  destruct (is_space a) eqn:Ha; [done|]. by intros [= <-].
Qed.

Lemma first_char_trimEnd (s : string) (c : ascii) :
  first_char s = Some c → is_space c = false → first_char (trimEnd s) = Some c.
Proof.
  destruct s as [|a s]; [done|]. intros [= ->] Hc. simpl.
  destruct (trimEnd s); [by rewrite Hc|done].
Qed.

Lemma last_char_trimEnd (s : string) (c : ascii) :
  last_char (trimEnd s) = Some c → is_space c = false.
Proof.
  induction s as [|a s IH]; [done|]. simpl.
  destruct (trimEnd s) as [|b t] eqn:Ht.
  - destruct (is_space a) eqn:Ha; [done|]. by intros [= <-].
  - exact IH.
Qed.

Lemma last_char_None (s : string) : last_char s = None → s = "".
Proof.
  induction s as [|a s IH]; [done|]. simpl. destruct s; [done|].
  intros Hs. by specialize (IH Hs).
Qed.

Lemma last_char_app (a b : string) (c : ascii) :
  last_char b = Some c → last_char (a +:+ b) = Some c.
Proof.
  intros Hb. induction a as [|x a IH]; [done|].
  rewrite str_app_cons. simpl. destruct (a +:+ b) eqn:Hab; [|done].
  destruct a; [|done]. rewrite str_app_nil_l in Hab. by subst b.
Qed.

Lemma is_space_NL (c : ascii) :
  is_space c = false → ascii_eqb (ascii_of_nat 10) c = false.
Proof.
  intros Hc. destruct (ascii_eqb (ascii_of_nat 10) c) eqn:Heq; [|done].
  apply Ascii.eqb_eq in Heq as <-. done.
Qed.

Lemma first_char_nl_to_br (s : string) (c : ascii) :
  first_char s = Some c → is_space c = false → first_char (nl_to_br s) = Some c.
Proof.
  destruct s as [|a s]; [done|]. intros [= ->] Hc.
  rewrite nl_to_br_chars, str_flat_map_cons, (is_space_NL _ Hc). done.
Qed.

Lemma last_char_nl_to_br (s : string) (c : ascii) :
  last_char s = Some c → is_space c = false → last_char (nl_to_br s) = Some c.
Proof.
  rewrite nl_to_br_chars. induction s as [|a s IH]; [done|]. intros Hl Hc.
  rewrite str_flat_map_cons. destruct s as [|b s].
  - injection Hl as ->. by rewrite (is_space_NL _ Hc).
  - apply last_char_app, IH; done.
Qed.

Lemma no_space_at_ends_trimmed (x : string) :
  no_space_at_ends (nl_to_br (trim x)) = true.
Proof.
  unfold no_space_at_ends, trim.
  destruct (first_char (nl_to_br (trimEnd (trimStart x)))) as [a|] eqn:Ha; [|done].
  destruct (last_char (nl_to_br (trimEnd (trimStart x)))) as [b|] eqn:Hb; [|done].
  destruct (first_char (trimStart x)) as [a0|] eqn:Ha0; last first.
  { destruct (trimStart x); done. }
  pose proof (first_char_trimStart _ _ Ha0) as Hsa.
  pose proof (first_char_trimEnd _ _ Ha0 Hsa) as Ha1.
  rewrite (first_char_nl_to_br _ _ Ha1 Hsa) in Ha. injection Ha as <-.
  destruct (last_char (trimEnd (trimStart x))) as [b0|] eqn:Hb0; last first.
  { apply last_char_None in Hb0. by rewrite Hb0 in Ha1. }
  pose proof (last_char_trimEnd _ _ Hb0) as Hsb.
  rewrite (last_char_nl_to_br _ _ Hb0 Hsb) in Hb. injection Hb as <-.
  by rewrite Hsa, Hsb.
Qed.

(** X13: a call with a template gives an HTML line without white space at
    either end, whatever the template, the arguments and the converter: the
    indentation of the message is lost in [outputsHtml].  The plain text
    keeps a template without specifier as it is. *)
Theorem argsToHtml_trims_the_line `{!AnsiUp} (h : heap) (format : string)
    (rest : list value) :
  (∀ out, argsToHtml h (VString format :: rest) = Ok out →
     no_space_at_ends out = true) ∧
  (no_percent format = true → formatArgs h [VString format] = Ok format).
Proof.
  split.
  - intros out. unfold argsToHtml.
    destruct (html_replace _ _ _ _) as [[html st]| |]; try done.
    cbn [mbind result_bind].
    destruct (mapR _ _) as [texts| |]; try done. cbn [mbind result_bind].
    intros [= <-]. apply no_space_at_ends_trimmed.
  - intros Hf. unfold formatArgs. by rewrite format_loop_plain.
Qed.

(** ** Every method records alike in the browser *)

(** X14: in [browser.mjs] the sixteen methods are one closure: whichever is
    called, the instance records the line [formatArgs(args)], so that
    [assert], [table], [group], [time] record their arguments as [log]
    does, the condition of [assert] included; only the method called on the base
    console differs. *)
Theorem browser_methods_record_alike `{!AnsiUp} (h : heap) (vc : VirtualConsole)
    (m1 m2 : string) (args : list value) :
  Browser.installed vc m1 = true → Browser.installed vc m2 = true →
  intercepted h (options vc) m1 args = None →
  intercepted h (options vc) m2 args = None →
  fst <$> Browser.call h vc m1 args = fst <$> Browser.call h vc m2 args ∧
  (∀ vc' evs, Browser.call h vc m1 args = Ok (vc', evs) →
     Browser.call h vc m2 args
     = Ok (vc', if realConsoleOutput (options vc) then [BaseCall m2 args] else [])).
Proof.
  intros H1 H2 Hi1 Hi2. unfold Browser.call. rewrite H1, H2, Hi1, Hi2. simpl.
  destruct (recordOutput (options vc)).
  - destruct (formatArgs h args) as [text| |]; try done. simpl.
    destruct (argsToHtml h args) as [html| |]; try done. simpl.
    split; [done|]. by intros vc' evs [= <- <-].
  - simpl. split; [done|]. by intros vc' evs [= <- <-].
Qed.

Lemma browser_methods_record_alike_witness :
  Browser.call (H := text_only_ansi) []
    (Browser.new_VirtualConsole console_methods recording) "group"
    [VString "Section %d"; VNumber (Dec false 1 0)]
  = Ok (mkConsole ("Section 1" +:+ NL) ("Section 1<br/>" +:+ NL) recording
          console_methods None, []).
Proof.
  destruct (browser_methods_record_alike (H := text_only_ansi) []
              (Browser.new_VirtualConsole console_methods recording) "log" "group"
              [VString "Section %d"; VNumber (Dec false 1 0)]
              eq_refl eq_refl eq_refl eq_refl)
    as [_ Hsame].
  pose proof (Hsame (mkConsole ("Section 1" +:+ NL) ("Section 1<br/>" +:+ NL)
                       recording console_methods None) []
                ltac:(by vm_compute)) as Hgroup.
  vm_compute in Hgroup. vm_compute. exact Hgroup.
Defined.

(** ** One resize listener for each target stream *)

Lemma release_if_empty_ok (s : Node.stream) (i : Node.info_ref)
    (left : gset Node.vref) (r : Node.registry) :
  registry_ok r → Node.streamResizeListeners r !! s = Some i →
  registry_ok (Node.release_if_empty s i left r).
Proof.
  intros (Hl & Hn & Hinj) Hs. destruct r as [m vs ls n].
  unfold Node.release_if_empty, registry_ok, Node.listeners_of, Node.refs_of in *.
  simpl in *. case_bool_decide as Hleft; simpl.
  - split_and!; [done| |done].
    intros s' i' Hs'. destruct (Hn _ _ Hs') as [Hlt Hne]. split; [done|].
    destruct (decide (i' = i)) as [->|Hi].
    + by rewrite lookup_insert_eq.
    + by rewrite lookup_insert_ne.
  - assert (left = ∅) as -> by (by destruct (decide (left = ∅)); [|exfalso; auto]).
    split_and!.
    + intros s'. destruct (decide (s' = s)) as [->|Hne].
      * rewrite lookup_insert_eq, lookup_delete_eq. simpl.
        specialize (Hl s). rewrite Hs in Hl. rewrite Hl. simpl.
        by rewrite bool_decide_true.
      * rewrite lookup_insert_ne, lookup_delete_ne by done. apply Hl.
    + intros s' i'. rewrite lookup_delete_Some. intros [Hne Hs'].
      destruct (Hn _ _ Hs') as [Hlt Hrefs]. split; [done|].
      rewrite lookup_insert_ne; [done|]. intros <-. apply Hne. by eapply Hinj.
    + intros s1 s2 i'. rewrite !lookup_delete_Some. intros [_ H1] [_ H2].
      by eapply Hinj.
Qed.

Lemma emit_resize_ok (s : Node.stream) (alive : Node.vref → bool)
    (r : Node.registry) :
  registry_ok r → registry_ok (Node.emit_resize s alive r).
Proof.
  intros Hok. unfold Node.emit_resize.
  destruct Hok as (Hl & Hrest). rewrite (Hl s).
  destruct (Node.streamResizeListeners r !! s) as [i|] eqn:Hs; simpl; [|done].
  by apply release_if_empty_ok.
Qed.

Lemma cleanup_ok (s : Node.stream) (v : Node.vref) (r : Node.registry) :
  registry_ok r → registry_ok (Node.cleanup s v r).
Proof.
  intros Hok. unfold Node.cleanup.
  destruct (Node.streamResizeListeners r !! s) as [i|] eqn:Hs; [|done].
  by apply release_if_empty_ok.
Qed.

Lemma new_VirtualStream_ok (s : Node.stream) (v : Node.vref) (r : Node.registry) :
  registry_ok r → registry_ok (Node.new_VirtualStream s v r).
Proof.
  intros (Hl & Hn & Hinj). destruct r as [m vs ls n].
  unfold Node.new_VirtualStream, Node.getListenerInfo, registry_ok,
    Node.listeners_of, Node.refs_of in *.
  simpl in *. destruct (m !! s) as [i|] eqn:Hs; simpl.
  - split_and!; [done| |done].
    intros s' i' Hs'. destruct (Hn _ _ Hs') as [Hlt Hne]. split; [done|].
    destruct (decide (i' = i)) as [->|Hi].
    + rewrite lookup_insert_eq. simpl. set_solver.
    + by rewrite lookup_insert_ne.
  - split_and!.
    + intros s'. destruct (decide (s' = s)) as [->|Hne].
      * rewrite !lookup_insert_eq. simpl. specialize (Hl s). rewrite Hs in Hl.
        by rewrite Hl.
      * rewrite !lookup_insert_ne by done. apply Hl.
    + intros s' i'. rewrite lookup_insert_Some. intros [[<- <-]|[Hne Hs']].
      * split; [lia|]. rewrite lookup_insert_eq. simpl. set_solver.
      * destruct (Hn _ _ Hs') as [Hlt Hrefs]. split; [lia|].
        rewrite !lookup_insert_ne by lia. done.
    + intros s1 s2 i'. rewrite !lookup_insert_Some.
      intros [[<- <-]|[Hne1 H1]] [[<- Heq]|[Hne2 H2]]; try done.
      * destruct (Hn _ _ H2). lia.
      * destruct (Hn _ _ H1). lia.
      * by eapply Hinj.
Qed.

Lemma no_registry_ok : registry_ok Node.no_registry.
Proof. split_and!; done. Qed.

Lemma registry_step_ok (r r' : Node.registry) :
  Node.registry_step r r' → registry_ok r → registry_ok r'.
Proof.
  intros [s v r0|s alive r0|s v r0];
    [apply new_VirtualStream_ok|apply emit_resize_ok|apply cleanup_ok].
Qed.

(** X15: whatever virtual streams are made on a target stream, however the
    stream is resized and whatever the garbage collector reports, the target
    stream carries at most one [resize] listener of the module: exactly one
    while a virtual stream is registered for it, and none once the last one
    is gone. *)
Theorem one_resize_listener_per_stream (r : Node.registry) (s : Node.stream) :
  rtc Node.registry_step Node.no_registry r →
  length (Node.listeners_of r s) ≤ 1 ∧
  (Node.listeners_of r s = [] ↔ Node.streamResizeListeners r !! s = None) ∧
  (∀ i, Node.streamResizeListeners r !! s = Some i →
     Node.listeners_of r s = [i] ∧ Node.refs_of r i ≠ ∅).
Proof.
  intros Hsteps.
  assert (Hok : registry_ok r).
  { revert r Hsteps. apply (rtc_ind_r registry_ok Node.no_registry).
    - apply no_registry_ok.
    - intros y z _ Hstep Hy. by eapply registry_step_ok. }
  destruct Hok as (Hl & Hn & _). specialize (Hl s).
  destruct (Node.streamResizeListeners r !! s) as [i|] eqn:Hs; rewrite Hl.
  - split_and!; [simpl; lia|done|]. intros i' [= <-]. split; [done|].
    by apply (Hn s).
  - split_and!; [simpl; lia|done|done].
Qed.

Lemma one_resize_listener_per_stream_witness :
  Node.listeners_of
    (Node.cleanup 7 1 (Node.new_VirtualStream 7 2 (Node.new_VirtualStream 7 1
       Node.no_registry))) 7 = [0].
Proof.
  destruct (one_resize_listener_per_stream
              (Node.cleanup 7 1 (Node.new_VirtualStream 7 2
                 (Node.new_VirtualStream 7 1 Node.no_registry))) 7)
    as (_ & _ & Hone).
  - eapply rtc_l; [apply Node.step_new|].
    eapply rtc_l; [apply Node.step_new|].
    eapply rtc_l; [apply Node.step_cleanup|]. apply rtc_refl.
  - apply (Hone 0). by vm_compute.
Defined.

(** ** The two formatters take the same arguments *)

Lemma specifiers_agree (d : ascii) :
  ascii_eqb d "j" = false → plain_specifier d = html_specifier d.
Proof. destruct d as [[] [] [] [] [] [] [] []]; vm_compute; intros; done. Qed.

Lemma no_j_cons2 (c d : ascii) (rest : string) :
  count_occurrences "%j" (String c (String d rest)) = 0 →
  (ascii_eqb c "%" = true → ascii_eqb d "j" = false) ∧
  count_occurrences "%j" (String d rest) = 0 ∧
  count_occurrences "%j" rest = 0.
Proof.
  intros Hc.
  change (count_occurrences "%j" (String c (String d rest)))
    with ((if String.prefix "%j" (String c (String d rest)) then 1 else 0)
          + count_occurrences "%j" (String d rest)) in Hc.
  assert (Hd : count_occurrences "%j" (String d rest) = 0) by lia.
  split_and!; [|done|].
  - intros Hpc. rewrite !prefix_cons, prefix_nil in Hc.
    assert (Hcp : ascii_eqb "%" c = true).
    { unfold ascii_eqb in *. by rewrite Ascii.eqb_sym. }
    rewrite Hcp in Hc.
    destruct (ascii_eqb "j" d) eqn:Hj; [simpl in Hc; lia|].
    unfold ascii_eqb in *. by rewrite Ascii.eqb_sym.
  - change (count_occurrences "%j" (String d rest))
      with ((if String.prefix "%j" (String d rest) then 1 else 0)
            + count_occurrences "%j" rest) in Hd.
    lia.
Qed.

Lemma loops_consume_alike `{!AnsiUp} h args (format : string) :
  count_occurrences "%j" format = 0 →
  ∀ st sr st1 out sr1,
    fmtIndex st = argIndex sr →
    format_loop h args format st = Ok st1 →
    html_replace h args format sr = Ok (out, sr1) →
    fmtIndex st1 = argIndex sr1.
Proof.
  induction format as [|c|c d s IH1 IH2] using string_ind2;
    intros Hj st sr st1 out sr1 Hi.
  - by intros [= <-] [= <- <-].
  - by intros [= <-] [= <- <-].
  - destruct (no_j_cons2 _ _ _ Hj) as (Hd & Hj2 & Hj1).
    rewrite format_loop_cons2, html_replace_cons2.
    destruct (ascii_eqb c "%") eqn:Hc; cbn [andb].
    + rewrite <- (specifiers_agree d) by auto.
      destruct (plain_specifier d).
      * destruct (format_match h args d st) as [st2| |] eqn:Hm; try done.
        destruct (html_callback h args d sr) as [[piece sr2]| |] eqn:Hcb; try done.
        cbn [mbind result_bind].
        destruct (html_replace h args s sr2) as [[rest sr3]| |] eqn:Hr2; try done.
        cbn [mbind result_bind]. intros Hl [= <- <-].
        apply format_match_consumes in Hm. apply html_callback_consumes in Hcb.
        eapply (IH1 Hj1 st2 sr2); [|done..]. rewrite Hm, Hcb, Hi. done.
      * destruct (html_replace h args (String d s) sr) as [[rest sr3]| |] eqn:Hr2;
          try done.
        cbn [mbind result_bind]. intros Hl [= <- <-].
        by eapply (IH2 Hj2 (emit st (String c "")) sr).
    + destruct (html_replace h args (String d s) sr) as [[rest sr3]| |] eqn:Hr2;
        try done.
      cbn [mbind result_bind]. intros Hl [= <- <-].
      by eapply (IH2 Hj2 (emit st (String c "")) sr).
Qed.

(** X16: for a template without [%j] that the converter returns as it is,
    the two formatters leave the same arguments to be appended after the
    line: those from the index the loop of [formatArgs] has reached, in the
    plain text and in the markup alike.  [%j] is a specifier of [argsToHtml]
    only. *)
Theorem formatters_consume_alike `{!AnsiUp} (h : heap) (rest : list value)
    (format : string) (st1 : format_state) (out : string) (sr1 : replace_state) :
  let args := VString format :: rest in
  ansi_to_html format = format →
  count_occurrences "%j" format = 0 →
  format_loop h args format (mkFormat "" 1) = Ok st1 →
  html_replace h args (ansi_to_html format) (mkReplace 1 false) = Ok (out, sr1) →
  formatArgs h args
  = forR (format_rest_arg h) (drop (fmtIndex st1) args) (output st1) ∧
  argsToHtml h args
  = (texts ← mapR (argToHtml h) (drop (fmtIndex st1) args);
     Ok (nl_to_br (trim (replaceAll "<span></span>" ""
                           (replaceAll empty_style_span "<span>"
                              (if hasStyle sr1 then "<span>" +:+ out +:+ "</span>"
                               else out))
                         +:+ " " +:+ join " " texts)))).
Proof.
  intros args Hconv Hj Hl Hr.
  assert (Heq : fmtIndex st1 = argIndex sr1).
  { rewrite Hconv in Hr.
    by eapply (loops_consume_alike h args format Hj (mkFormat "" 1)
                 (mkReplace 1 false)). }
  unfold formatArgs, argsToHtml, args. fold args.
  rewrite Hl, Hr. cbn [mbind result_bind]. rewrite Heq. done.
Qed.

Lemma formatters_consume_alike_witness :
  formatArgs [] [VString "%s and %d%% of"; VString "a"; VNumber (Dec false 5 0);
                 VString "b"]
  = Ok "a and 5% of b"
  ∧ argsToHtml (H := text_only_ansi) []
      [VString "%s and %d%% of"; VString "a"; VNumber (Dec false 5 0); VString "b"]
    = Ok ("a and 5% of " +:+ ESC +:+ "[32m&#x27;b&#x27;" +:+ ESC +:+ "[0m").
Proof.
  destruct (formatters_consume_alike (H := text_only_ansi) []
              [VString "a"; VNumber (Dec false 5 0); VString "b"]
              "%s and %d%% of" (mkFormat "a and 5% of" 3)
              "a and 5% of" (mkReplace 3 false))
    as [Hplain Hhtml]; [reflexivity|reflexivity|by vm_compute|by vm_compute|].
  split.
  - rewrite Hplain. by vm_compute.
  - rewrite Hhtml. by vm_compute.
Defined.

(** [log('%j', 1)]: the plain text keeps [%j] and appends the argument, the
    markup replaces it. *)
Example percent_j_differs :
  formatArgs [] [VString "%j"; VNumber (Dec false 1 0)] = Ok "%j 1"
  ∧ argsToHtml (H := text_only_ansi) [] [VString "%j"; VNumber (Dec false 1 0)]
    = Ok "1".
Proof. by vm_compute. Qed.

(** ** Specifiers without argument, in the formatters *)

Lemma format_match_head h x x' rest c st :
  1 ≤ fmtIndex st →
  format_match h (x :: rest) c st = format_match h (x' :: rest) c st.
Proof.
  intros Hi. destruct st as [out [|i]]; [simpl in Hi; lia|]. reflexivity.
Qed.

Lemma format_loop_head h x x' rest t st :
  1 ≤ fmtIndex st →
  format_loop h (x :: rest) t st = format_loop h (x' :: rest) t st.
Proof.
  revert st. induction t as [|c|c d s IH1 IH2] using string_ind2; intros st Hi;
    [done..|].
  rewrite !format_loop_cons2. destruct (ascii_eqb c "%" && plain_specifier d).
  - rewrite (format_match_head _ _ x') by done.
    destruct (format_match h (x' :: rest) d st) as [st1| |] eqn:Hm; try done.
    simpl. apply format_match_index in Hm. apply IH1. lia.
  - by apply IH2.
Qed.

Lemma format_loop_app h args (pre s : string) st :
  dangling plain_specifier pre = false →
  format_loop h args (pre +:+ s) st
  = st' ← format_loop h args pre st; format_loop h args s st'.
Proof.
  revert st. induction pre as [|c|c d p IH1 IH2] using string_ind2; intros st Hd.
  - by rewrite str_app_nil_l.
  - simpl in Hd. rewrite str_app_cons, str_app_nil_l.
    destruct s as [|d s]; [done|].
    rewrite format_loop_cons2, Hd. done.
  - rewrite !str_app_cons, !format_loop_cons2.
    change (dangling plain_specifier (String c (String d p)))
      with (if ascii_eqb c "%" && plain_specifier d
            then dangling plain_specifier p
            else dangling plain_specifier (String d p)) in Hd.
    destruct (ascii_eqb c "%" && plain_specifier d).
    + destruct (format_match h args d st) as [st1| |]; try done.
      cbn [mbind result_bind]. by apply IH1.
    + rewrite <- str_app_cons. by apply IH2.
Qed.

Lemma format_loop_consumed h args pre st st' :
  format_loop h args pre st = Ok st' →
  fmtIndex st ≤ length args →
  fmtIndex st' = (fmtIndex st + consuming plain_specifier pre) `min` length args.
Proof.
  revert st. induction pre as [|c|c d p IH1 IH2] using string_ind2; intros st.
  - intros [= <-] Hi. simpl. lia.
  - intros [= <-] Hi. simpl. lia.
  - rewrite format_loop_cons2.
    change (consuming plain_specifier (String c (String d p)))
      with (if ascii_eqb c "%" && plain_specifier d
            then (if ascii_eqb d "%" then 0 else 1) + consuming plain_specifier p
            else consuming plain_specifier (String d p)).
    destruct (ascii_eqb c "%" && plain_specifier d).
    + destruct (format_match h args d st) as [st1| |] eqn:Hm; try done.
      cbn [mbind result_bind]. intros Hl Hi.
      apply format_match_consumes in Hm.
      destruct (ascii_eqb d "%").
      * rewrite (IH1 _ Hl) by lia. rewrite Hm. lia.
      * destruct (args !! fmtIndex st) as [arg|] eqn:Ha.
        -- apply lookup_lt_Some in Ha. rewrite (IH1 _ Hl) by lia. rewrite Hm. lia.
        -- apply lookup_ge_None_1 in Ha. rewrite (IH1 _ Hl) by lia. rewrite Hm. lia.
    + intros Hl Hi. by rewrite (IH2 _ Hl).
Qed.

Lemma html_replace_app `{!AnsiUp} h args (pre s : string) st :
  dangling html_specifier pre = false →
  html_replace h args (pre +:+ s) st
  = '(o1, st1) ← html_replace h args pre st;
    '(o2, st2) ← html_replace h args s st1;
    Ok (o1 +:+ o2, st2).
Proof.
  revert st. induction pre as [|c|c d p IH1 IH2] using string_ind2; intros st Hd.
  - rewrite str_app_nil_l. simpl.
    by destruct (html_replace h args s st) as [[o2 st2]| |].
  - simpl in Hd. rewrite str_app_cons, str_app_nil_l.
    rewrite (html_replace_other _ _ _ _ _ Hd). simpl.
    by destruct (html_replace h args s st) as [[o2 st2]| |].
  - rewrite !str_app_cons, !html_replace_cons2.
    change (dangling html_specifier (String c (String d p)))
      with (if ascii_eqb c "%" && html_specifier d
            then dangling html_specifier p
            else dangling html_specifier (String d p)) in Hd.
    destruct (ascii_eqb c "%" && html_specifier d).
    + destruct (html_callback h args d st) as [[piece st1]| |]; try done.
      cbn [mbind result_bind]. rewrite (IH1 _ Hd).
      destruct (html_replace h args p st1) as [[o1 st2]| |]; try done.
      cbn [mbind result_bind].
      destruct (html_replace h args s st2) as [[o2 st3]| |]; try done.
      cbn [mbind result_bind]. by rewrite str_app_assoc.
    + rewrite <- str_app_cons, (IH2 _ Hd).
      destruct (html_replace h args (String d p) st) as [[o1 st2]| |]; try done.
      cbn [mbind result_bind].
      destruct (html_replace h args s st2) as [[o2 st3]| |]; try done.
Qed.

Lemma html_replace_consumed `{!AnsiUp} h args pre st out st' :
  html_replace h args pre st = Ok (out, st') →
  argIndex st ≤ length args →
  argIndex st' = (argIndex st + consuming html_specifier pre) `min` length args.
Proof.
  revert st out. induction pre as [|c|c d p IH1 IH2] using string_ind2; intros st out.
  - intros [= <- <-] Hi. simpl. lia.
  - intros [= <- <-] Hi. simpl. lia.
  - rewrite html_replace_cons2.
    change (consuming html_specifier (String c (String d p)))
      with (if ascii_eqb c "%" && html_specifier d
            then (if ascii_eqb d "%" then 0 else 1) + consuming html_specifier p
            else consuming html_specifier (String d p)).
    destruct (ascii_eqb c "%" && html_specifier d).
    + destruct (html_callback h args d st) as [[piece st1]| |] eqn:Hm; try done.
      cbn [mbind result_bind].
      destruct (html_replace h args p st1) as [[o1 st2]| |] eqn:Hl; try done.
      cbn [mbind result_bind]. intros [= <- <-] Hi.
      apply html_callback_consumes in Hm.
      destruct (ascii_eqb d "%").
      * rewrite (IH1 _ _ Hl) by lia. rewrite Hm. lia.
      * destruct (args !! argIndex st) as [arg|] eqn:Ha.
        -- apply lookup_lt_Some in Ha. rewrite (IH1 _ _ Hl) by lia. rewrite Hm. lia.
        -- apply lookup_ge_None_1 in Ha. rewrite (IH1 _ _ Hl) by lia. rewrite Hm. lia.
    + destruct (html_replace h args (String d p) st) as [[o1 st2]| |] eqn:Hl; try done.
      cbn [mbind result_bind]. intros [= <- <-] Hi. by rewrite (IH2 _ _ Hl).
Qed.

(** *** The specifier in the markup returned *)

Lemma prefix_before_percent (P y z : string) :
  no_percent P = true → P ≠ "" →
  String.prefix P (y +:+ String "%" z) = String.prefix P y.
Proof.
  revert P. induction y as [|b y IH]; intros [|a P] Hp Hne; try done.
  - rewrite str_app_nil_l, prefix_cons. simpl in Hp.
    apply andb_true_iff in Hp as [Ha _]. apply negb_true_iff in Ha.
    by rewrite Ha.
  - rewrite str_app_cons, !prefix_cons. destruct (ascii_eqb a b); [|done].
    simpl in Hp. apply andb_true_iff in Hp as [_ Hp].
    destruct P as [|a' P]; [by rewrite !prefix_nil|]. by apply IH.
Qed.

Lemma prefix_length (P y : string) :
  String.prefix P y = true → String.length P ≤ String.length y.
Proof.
  revert y. induction P as [|a P IH]; intros [|b y]; simpl; try done; try lia.
  destruct (ascii_dec a b); [|done]. intros Hp. apply IH in Hp. lia.
Qed.

Lemma replaceAll_from_percent (p R x z : string) (skip : nat) :
  no_percent p = true → skip ≤ String.length x →
  replaceAll_from (String "<" p) R skip (x +:+ String "%" z)
  = replaceAll_from (String "<" p) R skip x
    +:+ String "%" (replaceAll_from (String "<" p) R 0 z).
Proof.
  intros Hp. revert skip. induction x as [|c x IH]; intros skip Hs.
  - simpl in Hs. assert (skip = 0) as -> by lia.
    rewrite str_app_nil_l, replaceAll_from_cons, prefix_cons. done.
  - rewrite str_app_cons. destruct skip as [|k].
    + rewrite !replaceAll_from_cons.
      rewrite <- str_app_cons, prefix_before_percent by done.
      destruct (String.prefix (String "<" p) (String c x)) eqn:Hpre.
      * apply prefix_length in Hpre. simpl in Hpre.
        rewrite IH by (simpl; lia). by rewrite str_app_assoc.
      * rewrite IH by lia. by rewrite str_app_cons.
    + simpl in Hs. simpl. apply IH. lia.
Qed.

Lemma replaceAll_specifier (p R x y : string) (c : ascii) :
  no_percent p = true → ascii_eqb "<" c = false →
  replaceAll (String "<" p) R (x +:+ String "%" (String c y))
  = replaceAll (String "<" p) R x
    +:+ String "%" (String c (replaceAll (String "<" p) R y)).
Proof.
  intros Hp Hc. unfold replaceAll.
  rewrite replaceAll_from_percent by (done || lia).
  by rewrite replaceAll_from_cons, prefix_cons, Hc.
Qed.

Lemma trimStart_before (x w : string) (a : ascii) :
  is_space a = false →
  trimStart (x +:+ String a w) = trimStart x +:+ String a w.
Proof.
  intros Ha. induction x as [|b x IH].
  - rewrite !str_app_nil_l. simpl. by rewrite Ha.
  - rewrite str_app_cons. simpl. destruct (is_space b); [done|].
    by rewrite str_app_cons.
Qed.

Lemma trimEnd_cons (a : ascii) (s : string) :
  is_space a = false → trimEnd (String a s) = String a (trimEnd s).
Proof. intros Ha. simpl. rewrite Ha. by destruct (trimEnd s). Qed.

Lemma trim_specifier (x y : string) (c : ascii) :
  is_space c = false →
  trim (x +:+ String "%" (String c y))
  = trimStart x +:+ String "%" (String c (trimEnd y)).
Proof.
  intros Hc. unfold trim. rewrite trimStart_before by done.
  rewrite trimEnd_app; rewrite !trimEnd_cons by done; done.
Qed.

Lemma claimed_specifier_facts (c : ascii) :
  c ∈ claimed_specifiers →
  plain_specifier c = true ∧ html_specifier c = true ∧ ascii_eqb c "%" = false
  ∧ ascii_eqb "<" c = false ∧ is_space c = false
  ∧ nl_to_br (String "%" (String c "")) = String "%" (String c "").
Proof.
  unfold claimed_specifiers. set_unfold.
  intros [->|[->|[->|[->|[->|[->|[->|[]]]]]]]]; done.
Qed.

Lemma finish_html_specifier (hs : bool) (x y : string) (c : ascii) :
  c ∈ claimed_specifiers →
  ∃ before after,
    finish_html hs (x +:+ String "%" (String c y))
    = before +:+ String "%" (String c "") +:+ after.
Proof.
  intros (_ & _ & _ & Hlt & Hsp & Hnl)%claimed_specifier_facts.
  unfold finish_html.
  assert (∃ x' y', (if hs then "<span>" +:+ (x +:+ String "%" (String c y)) +:+ "</span>"
                    else x +:+ String "%" (String c y))
                   = x' +:+ String "%" (String c y')) as (x' & y' & ->).
  { destruct hs.
    - exists ("<span>" +:+ x), (y +:+ "</span>").
      by rewrite !str_app_assoc, !str_app_cons.
    - by exists x, y. }
  rewrite empty_style_span_shape.
  rewrite replaceAll_specifier by (by vm_compute || done).
  rewrite replaceAll_specifier by (by vm_compute || done).
  rewrite str_app_assoc, !str_app_cons.
  rewrite trim_specifier by done.
  eexists _, _.
  change (String "%" (String c ?z)) with (String "%" (String c "") +:+ z).
  rewrite <- str_app_assoc.
  change (replaceAll NL ("<br/>" +:+ NL)) with nl_to_br.
  rewrite !nl_to_br_app, Hnl. rewrite str_app_assoc. reflexivity.
Qed.

(** C3, as the claim states it, fails for the HTML formatter, which scans
    the template as the converter returns it: the control sequence
    [ESC [ % s] leaves no trace in the converted text, and the [%s] in it is
    dropped with it, while the plain-text formatter keeps the four
    characters. *)
Lemma specifier_in_control_sequence_is_dropped :
  formatArgs [] [VString ("a" +:+ ESC +:+ "[%sb")] = Ok ("a" +:+ ESC +:+ "[%sb")
  ∧ argsToHtml (H := csi_ansi) [] [VString ("a" +:+ ESC +:+ "[%sb")] = Ok "ab".
Proof. by vm_compute. Qed.

(** C3 (amended): a specifier among [%s %d %i %f %o %O %c] that the scan of
    a formatter meets when no unconsumed argument remains comes out as its
    two characters, and so does the rest of the template; the formatter does
    not throw there.  The plain-text formatter scans the template, and its
    text is the text of the part before the specifier followed by the
    specifier and the rest.  The HTML formatter scans the template as the
    converter returns it, so that a specifier the converter takes out is
    never met; the specifier it meets is in the markup returned. *)
Theorem specifier_without_argument_stays_literal `{!AnsiUp}
    (h : heap) (rest : list value) (pre : string) (c : ascii) (post : string) :
  c ∈ claimed_specifiers →
  (dangling plain_specifier pre = false →
   length rest ≤ consuming plain_specifier pre →
     formatArgs h (VString (pre +:+ String "%" (String c post)) :: rest)
     = (λ text, text +:+ String "%" (String c "")
                +:+ literal_specifiers plain_specifier post)
       <$> formatArgs h (VString pre :: rest)) ∧
  (∀ format out st,
     ansi_to_html format = pre +:+ String "%" (String c post) →
     dangling html_specifier pre = false →
     length rest ≤ consuming html_specifier pre →
     html_replace h (VString format :: rest) pre (mkReplace 1 false) = Ok (out, st) →
     ∃ before after,
       argsToHtml h (VString format :: rest)
       = Ok (finish_html (hasStyle st)
               (out +:+ String "%" (String c "")
                +:+ literal_specifiers html_specifier post))
       ∧ finish_html (hasStyle st)
           (out +:+ String "%" (String c "")
            +:+ literal_specifiers html_specifier post)
         = before +:+ String "%" (String c "") +:+ after).
Proof.
  intros Hc. pose proof (claimed_specifier_facts c Hc) as (Hp & Hh & Hne & _).
  split.
  - intros Hd Hlen. unfold formatArgs.
    rewrite (format_loop_head h _ (VString pre)) by (simpl; lia).
    rewrite format_loop_app by done.
    destruct (format_loop h (VString pre :: rest) pre (mkFormat "" 1))
      as [st'| |] eqn:Hl; try done.
    cbn [mbind result_bind].
    pose proof (format_loop_consumed _ _ _ _ _ Hl ltac:(simpl; lia)) as Hi.
    cbn [length fmtIndex] in Hi.
    assert (Hi' : fmtIndex st' = S (length rest)) by lia.
    rewrite format_loop_exhausted by (simpl; lia).
    rewrite literal_specifiers_cons2, Hp, Hne.
    cbn [andb emit fmtIndex output mbind result_bind fmap result_fmap].
    rewrite Hi'. cbn [drop]. rewrite !drop_all. simpl.
    by rewrite ?str_app_assoc.
  - intros format out st Hconv Hd Hlen Hpre.
    destruct (finish_html_specifier (hasStyle st) out
                (literal_specifiers html_specifier post) c Hc) as (before & after & Hf).
    exists before, after. split; [|exact Hf].
    unfold argsToHtml. rewrite Hconv, html_replace_app by done.
    rewrite Hpre. cbn [mbind result_bind].
    pose proof (html_replace_consumed _ _ _ _ _ _ Hpre ltac:(simpl; lia)) as Hi.
    cbn [length argIndex] in Hi.
    assert (Hi' : argIndex st = S (length rest)) by lia.
    rewrite html_replace_exhausted by (simpl; lia).
    rewrite literal_specifiers_cons2, Hh, Hne. cbn [andb mbind result_bind].
    rewrite Hi'. cbn [drop]. rewrite drop_all. reflexivity.
Qed.

Lemma specifier_without_argument_stays_literal_witness :
  formatArgs [] [VString "%s %s!"; VString "only-one"] = Ok "only-one %s!"
  ∧ ∃ before after,
      argsToHtml (H := text_only_ansi) [] [VString "%s %s!"; VString "only-one"]
      = Ok "only-one %s!"
      ∧ "only-one %s!" = before +:+ "%s" +:+ after.
Proof.
  destruct (specifier_without_argument_stays_literal (H := text_only_ansi) []
              [VString "only-one"] "%s " "s" "!") as [Hplain Hhtml].
  { unfold claimed_specifiers. set_solver. }
  split.
  - exact (Hplain eq_refl ltac:(simpl; lia)).
  - destruct (Hhtml "%s %s!" "only-one " (mkReplace 2 false) eq_refl eq_refl
                ltac:(simpl; lia) ltac:(by vm_compute)) as (before & after & Ha & Hf).
    exists before, after. split; [exact Ha | exact Hf].
Defined.
